(** * SkillVerse in-memory index layer

    A shallow embedding of the hand-built data structures of
    [BACKEND/models/data_structures.py] ([HashMap], [MaxHeap], [Trie]) and of
    the two caches built on them in [BACKEND/services/managers.py]
    ([ServiceManager.get_featured_services] and
    [SearchEngine.get_autocomplete_suggestions]), with the properties the
    specification states about them.

    Conventions
    - Python integers are [Z]; list positions that the code keeps in range
      are [nat] and read with stdpp's [!!].
    - A call that can raise returns an [outcome]: [Ret v], [Raise e], or
      [Timeout] when a loop bound of the model is exhausted (the theorems
      show that this does not happen on the states the code builds).
    - Python strings are [string]s of 8-bit characters read as the code
      points 0..255. *)

From Stdlib Require Import ZArith Lia Bool String Ascii DecimalString.
From stdpp Require Import base option list sorting countable gmap strings.

Local Open Scope Z_scope.

(** ** Outcomes of Python calls *)

Inductive exn : Set :=
  | KeyError
  | IndexError
  | ZeroDivisionError
  | TypeError.

Inductive outcome (A : Type) : Type :=
  | Ret (a : A)
  | Raise (e : exn)
  | Timeout.

Arguments Ret {A} a.
Arguments Raise {A} e.
Arguments Timeout {A}.

#[global] Instance outcome_ret : MRet outcome := @Ret.

#[global] Instance outcome_bind : MBind outcome := fun A B f m =>
  match m with
  | Ret a => f a
  | Raise e => Raise e
  | Timeout => Timeout
  end.

(** [l[i]] for a Python list and a Python integer: negative positions count
    from the end, anything outside raises [IndexError]. *)
Definition py_index {A} (l : list A) (i : Z) : outcome A :=
  let n := Z.of_nat (length l) in
  let j := if i <? 0 then i + n else i in
  if (0 <=? j) && (j <? n) then
    match l !! Z.to_nat j with
    | Some x => Ret x
    | None => Raise IndexError
    end
  else Raise IndexError.

(** [l[i] = x], same positions as [py_index]. *)
Definition py_store {A} (l : list A) (i : Z) (x : A) : outcome (list A) :=
  let n := Z.of_nat (length l) in
  let j := if i <? 0 then i + n else i in
  if (0 <=? j) && (j <? n) then Ret (<[Z.to_nat j := x]> l)
  else Raise IndexError.

(** ** 1. HashMap: hash table with separate chaining *)

Module HashMap.
Section HashMap.
Context {K V : Type} `{EqDecision K}.

(** Python's builtin [hash] on the keys. *)
Variable hash : K -> Z.

(** A bucket is the chain of [_HashNode]s from its head: the list of the
    [(key, value)] pairs in chain order. *)
Abbreviation chain := (list (K * V)).

Record t := Build {
  _capacity : Z;
  _size : Z;
  _buckets : list chain
}.

Definition INITIAL_CAPACITY : Z := 16.

(** [[None] * capacity] *)
Definition empty_buckets (capacity : Z) : list chain :=
  replicate (Z.to_nat capacity) [].

(** [HashMap()] *)
Definition init : t :=
  Build INITIAL_CAPACITY 0 (empty_buckets INITIAL_CAPACITY).

(** [hash(key) % self._capacity]; [Z.modulo] has the sign of the divisor,
    as Python's [%]. *)
Definition _hash (self : t) (key : K) : outcome Z :=
  if _capacity self =? 0 then Raise ZeroDivisionError
  else Ret (hash key mod _capacity self).

(** The [while node is not None] scan of [__getitem__]. *)
Fixpoint chain_get (key : K) (node : chain) : option V :=
  match node with
  | [] => None
  | (k, v) :: next => if decide (k = key) then Some v else chain_get key next
  end.

(** The scan of [__setitem__]: the chain with the value of the first node
    holding [key] replaced, or [None] when the scan falls off the end. *)
Fixpoint chain_set (key : K) (value : V) (node : chain) : option chain :=
  match node with
  | [] => None
  | (k, v) :: next =>
      if decide (k = key) then Some ((k, value) :: next)
      else cons (k, v) <$> chain_set key value next
  end.

(** The scan of [__delitem__]: the chain with the first node holding [key]
    unlinked, or [None] when there is none. *)
Fixpoint chain_del (key : K) (node : chain) : option chain :=
  match node with
  | [] => None
  | (k, v) :: next =>
      if decide (k = key) then Some next
      else cons (k, v) <$> chain_del key next
  end.

(** [self._size / self._capacity > 0.75], on the exact quotient. *)
Definition over_load (size capacity : Z) : bool :=
  if 0 <? capacity then 3 * capacity <? 4 * size
  else 4 * size <? 3 * capacity.

(** The nodes of all chains in the order [_resize] walks them. *)
Definition nodes (buckets : list chain) : list (K * V) := concat buckets.

(** [_resize], given the [__setitem__] it calls on [self]. *)
Definition _resize_with (setitem : t -> K -> V -> outcome t) (self : t)
  : outcome t :=
  let old_buckets := _buckets self in
  let capacity := _capacity self * 2 in
  let self := Build capacity 0 (empty_buckets capacity) in
  foldl (fun acc node => self ← acc; setitem self node.1 node.2)
        (Ret self) (nodes old_buckets).

(** [__setitem__]; [depth] bounds how deeply a rehash may itself trigger
    a rehash. *)
Fixpoint setitem_rec (depth : nat) (self : t) (key : K) (value : V)
  : outcome t :=
  index ← _hash self key;
  node ← py_index (_buckets self) index;
  match chain_set key value node with
  | Some node' =>
      buckets ← py_store (_buckets self) index node';
      Ret (Build (_capacity self) (_size self) buckets)
  | None =>
      buckets ← py_store (_buckets self) index ((key, value) :: node);
      let self := Build (_capacity self) (_size self + 1) buckets in
      if over_load (_size self) (_capacity self) then
        match depth with
        | O => Timeout
        | S depth => _resize_with (setitem_rec depth) self
        end
      else Ret self
  end.

(** One nested rehash is all a table built from [HashMap()] ever needs
    (lemma [setitem_ok]); the bound is kept generous. *)
Definition resize_depth : nat := 2.

Definition __setitem__ : t -> K -> V -> outcome t := setitem_rec resize_depth.

Definition _resize : t -> outcome t :=
  _resize_with (setitem_rec (pred resize_depth)).

Definition __getitem__ (self : t) (key : K) : outcome V :=
  index ← _hash self key;
  node ← py_index (_buckets self) index;
  match chain_get key node with
  | Some value => Ret value
  | None => Raise KeyError
  end.

Definition __contains__ (self : t) (key : K) : outcome bool :=
  index ← _hash self key;
  node ← py_index (_buckets self) index;
  Ret (bool_decide (is_Some (chain_get key node))).

Definition __delitem__ (self : t) (key : K) : outcome t :=
  index ← _hash self key;
  node ← py_index (_buckets self) index;
  match chain_del key node with
  | Some node' =>
      buckets ← py_store (_buckets self) index node';
      Ret (Build (_capacity self) (_size self - 1) buckets)
  | None => Raise KeyError
  end.

(** [get]: [try: return self[key] / except KeyError: return default];
    any other exception propagates. *)
Definition get (self : t) (key : K) (default : V) : outcome V :=
  match __getitem__ self key with
  | Raise KeyError => Ret default
  | r => r
  end.

Definition clear (self : t) : t :=
  Build INITIAL_CAPACITY 0 (empty_buckets INITIAL_CAPACITY).

Definition items (self : t) : list (K * V) := nodes (_buckets self).

(** [keys]: the chains in bucket order, each from its head. *)
Definition keys (self : t) : list K :=
  flat_map (fun head => map fst head) (_buckets self).

Definition values (self : t) : list V :=
  flat_map (fun head => map snd head) (_buckets self).

Definition __len__ (self : t) : Z := _size self.

End HashMap.
End HashMap.

(** ** 2. MaxHeap: array-backed binary max-heap *)

Module MaxHeap.
Section MaxHeap.
(** [P] is the type of priorities, [A] the type of items. *)
Context {P A : Type}.

(** Python's [>] on priorities. *)
Variable gt : P -> P -> bool.

(** An item read as a priority, for [insert(item)] without a priority
    ([priority = item]). *)
Variable as_priority : A -> P.

(** The [(priority, order, item)] tuples of [self._heap]. *)
Definition entry : Type := P * Z * A.

Definition priority_of (e : entry) : P := e.1.1.
Definition order_of (e : entry) : Z := e.1.2.
Definition item_of (e : entry) : A := e.2.

Record t := Build {
  _heap : list entry;
  _counter : Z
}.

(** [MaxHeap()] *)
Definition init : t := Build [] 0.

(** [heap[i]] at a position that is not negative. *)
Definition at_index (heap : list entry) (i : nat) : outcome entry :=
  match heap !! i with
  | Some e => Ret e
  | None => Raise IndexError
  end.

(** [heap[i], heap[j] = heap[j], heap[i]]: both reads, then the store at
    [i], then the store at [j]. *)
Definition _swap (heap : list entry) (i j : nat) : outcome (list entry) :=
  ej ← at_index heap j;
  ei ← at_index heap i;
  Ret (<[j := ei]> (<[i := ej]> heap)).

(** The loop of [_heapify_up]; [fuel] bounds its iterations. *)
Fixpoint heapify_up_loop (fuel : nat) (heap : list entry) (index : nat)
  : outcome (list entry) :=
  match fuel with
  | O => Timeout
  | S fuel =>
      if (0 <? index)%nat then
        let parent := ((index - 1) / 2)%nat in
        ei ← at_index heap index;
        ep ← at_index heap parent;
        if gt (priority_of ei) (priority_of ep) then
          heap ← _swap heap index parent;
          heapify_up_loop fuel heap parent
        else Ret heap
      else Ret heap
  end.

(** [index] strictly decreases, so [index + 1] tests of the loop
    condition are enough. *)
Definition _heapify_up (heap : list entry) (index : nat)
  : outcome (list entry) :=
  heapify_up_loop (S index) heap index.

(** [largest = child if child < size and heap[child][0] > heap[largest][0]] *)
Definition pick_larger (heap : list entry) (size child largest : nat)
  : outcome nat :=
  if (child <? size)%nat then
    ec ← at_index heap child;
    el ← at_index heap largest;
    Ret (if gt (priority_of ec) (priority_of el) then child else largest)
  else Ret largest.

(** The [while True] loop of [_heapify_down]. *)
Fixpoint heapify_down_loop (fuel : nat) (heap : list entry)
    (size index : nat) : outcome (list entry) :=
  match fuel with
  | O => Timeout
  | S fuel =>
      let largest := index in
      let left := (2 * index + 1)%nat in
      let right := (2 * index + 2)%nat in
      largest ← pick_larger heap size left largest;
      largest ← pick_larger heap size right largest;
      if (largest =? index)%nat then Ret heap
      else
        heap ← _swap heap index largest;
        heapify_down_loop fuel heap size largest
  end.

(** [index] strictly increases and stays below [size] while the loop
    runs. *)
Definition _heapify_down (heap : list entry) (index : nat)
  : outcome (list entry) :=
  let size := length heap in
  heapify_down_loop (S size) heap size index.

Definition insert (self : t) (item : A) (priority : option P) : outcome t :=
  let priority :=
    match priority with
    | None => as_priority item
    | Some priority => priority
    end in
  let heap := _heap self ++ [(priority, _counter self, item)] in
  let counter := _counter self + 1 in
  heap ← _heapify_up heap (length heap - 1);
  Ret (Build heap counter).

(** [list.pop()] *)
Definition pop (heap : list entry) : outcome (entry * list entry) :=
  match last heap with
  | Some e => Ret (e, take (length heap - 1) heap)
  | None => Raise IndexError
  end.

Definition extract_max (self : t) : outcome (A * t) :=
  match _heap self with
  | [] => Raise IndexError
  | _ :: _ =>
      heap ← _swap (_heap self) 0 (length (_heap self) - 1);
      '(e, heap) ← pop heap;
      heap ← match heap with
             | [] => Ret heap
             | _ :: _ => _heapify_down heap 0
             end;
      Ret (item_of e, Build heap (_counter self))
  end.

Definition peek (self : t) : outcome A :=
  match _heap self with
  | [] => Raise IndexError
  | e :: _ => Ret (item_of e)
  end.

Definition size (self : t) : Z := Z.of_nat (length (_heap self)).

Definition is_empty (self : t) : bool := (length (_heap self) =? 0)%nat.

(** [for _ in range(count): result.append(heap.extract_max())] *)
Fixpoint extract_times (count : nat) (heap : t) (result : list A)
  : outcome (list A * t) :=
  match count with
  | O => Ret (result, heap)
  | S count =>
      '(item, heap) ← extract_max heap;
      extract_times count heap (result ++ [item])
  end.

Definition nlargest (n : Z) (iterable : list A) (key : option (A -> P))
  : outcome (list A) :=
  let key := default as_priority key in
  heap ← foldl (fun heap item => heap ← heap; insert heap item (Some (key item)))
               (Ret init) iterable;
  '(result, _) ← extract_times (Z.to_nat (Z.min n (size heap))) heap [];
  Ret result.

End MaxHeap.
End MaxHeap.

(** ** 3. Python strings and sorting *)

Definition code (c : ascii) : Z := Z.of_N (N_of_ascii c).

(** [str.lower] on one character of the range 0..255: [A]-[Z] and the
    Latin-1 capitals 192..222 other than the multiplication sign 215. *)
Definition lower_char (c : ascii) : ascii :=
  let n := code c in
  if ((65 <=? n) && (n <=? 90)) || ((192 <=? n) && (n <=? 222) && negb (n =? 215))
  then ascii_of_N (Z.to_N (n + 32))
  else c.

(** [str.isspace] on one character of the range 0..255. *)
Definition is_space (c : ascii) : bool :=
  let n := code c in
  ((9 <=? n) && (n <=? 13)) || ((28 <=? n) && (n <=? 32))
  || (n =? 133) || (n =? 160).

Definition chars (s : string) : list ascii := list_ascii_of_string s.

(** [s.lower()], as the list of its characters. *)
Definition lower (s : string) : list ascii := map lower_char (chars s).

(** [not s or not s.strip()] *)
Definition blank (s : string) : bool := forallb is_space (chars s).

(** [len(s)] *)
Definition len (s : string) : Z := Z.of_nat (String.length s).

(** [sorted] and [list.sort]: a stable sort, [le x y] deciding that the key
    of [x] is not above the key of [y]. *)
Section Sorting.
Context {X : Type}.
Variable le : X -> X -> bool.

Fixpoint sort_insert (x : X) (l : list X) : list X :=
  match l with
  | [] => [x]
  | y :: l' => if le x y then x :: l else y :: sort_insert x l'
  end.

Fixpoint sorted (l : list X) : list X :=
  match l with
  | [] => []
  | x :: l' => sort_insert x (sorted l')
  end.
End Sorting.

(** [l[:n]] *)
Definition py_take {X} (n : Z) (l : list X) : list X :=
  if n <? 0 then take (length l - Z.to_nat (- n)) l else take (Z.to_nat n) l.

(** ** 4. Trie: prefix tree for autocomplete *)

Module Trie.

(** [_TrieNode]. The [children] dict is kept as its items in insertion
    order, one item per character. [original_word] is [None] until a word
    ends at the node. *)
#[local] Unset Elimination Schemes.
Inductive _TrieNode : Type :=
  Node {
    children : list (ascii * _TrieNode);
    is_end : bool;
    original_word : option string;
    frequency : Z
  }.
#[local] Set Elimination Schemes.

(** [_TrieNode()] *)
Definition new_node : _TrieNode := Node [] false None 0.

Record t := Build {
  root : _TrieNode;
  _word_count : Z
}.

(** [Trie()] *)
Definition init : t := Build new_node 0.

Section Dict.
Context {X : Type}.

(** [d[char]] when [char in d] *)
Fixpoint dict_get (char : ascii) (d : list (ascii * X)) : option X :=
  match d with
  | [] => None
  | (c, x) :: d' => if decide (c = char) then Some x else dict_get char d'
  end.

(** [d[char] = x]: in place when the key is there, else a new last
    item. *)
Fixpoint dict_set (char : ascii) (x : X) (d : list (ascii * X))
  : list (ascii * X) :=
  match d with
  | [] => [(char, x)]
  | (c, y) :: d' =>
      if decide (c = char) then (c, x) :: d' else (c, y) :: dict_set char x d'
  end.

Definition keys (d : list (ascii * X)) : list ascii := map fst d.
End Dict.

(** The descent [for char in word.lower(): ... node = node.children[char]]
    shared by [search], [starts_with] and [get_suggestions]; [None] when a
    character is missing. *)
Fixpoint walk (node : _TrieNode) (path : list ascii) : option _TrieNode :=
  match path with
  | [] => Some node
  | char :: path =>
      match dict_get char (children node) with
      | None => None
      | Some child => walk child path
      end
  end.

(** The loop of [insert] followed by the update of the last node: the
    node reached is created when missing and modified in place, which
    rebuilds the path to it. *)
Fixpoint insert_path (node : _TrieNode) (path : list ascii) (word : string)
  : _TrieNode :=
  match path with
  | [] =>
      Node (children node) true (Some word) (frequency node + 1)
  | char :: path =>
      let child :=
        match dict_get char (children node) with
        | None => new_node
        | Some child => child
        end in
      Node (dict_set char (insert_path child path word) (children node))
           (is_end node) (original_word node) (frequency node)
  end.

Definition insert (self : t) (word : string) : t :=
  if blank word then self
  else
    let path := lower word in
    let was_end :=
      match walk (root self) path with
      | Some node => is_end node
      | None => false
      end in
    Build (insert_path (root self) path word)
          (if was_end then _word_count self else _word_count self + 1).

Definition search (self : t) (word : string) : bool :=
  if String.eqb word "" then false
  else
    match walk (root self) (lower word) with
    | None => false
    | Some node => is_end node
    end.

Definition starts_with (self : t) (prefix : string) : bool :=
  if String.eqb prefix "" then false
  else
    match walk (root self) (lower prefix) with
    | None => false
    | Some _ => true
    end.

(** The collected [(original_word, frequency)] tuples. *)
Definition hits : Type := list (option string * Z).

Definition char_le (a b : ascii) : bool := code a <=? code b.

(** The [for char in sorted(...)] loop of [_collect_words], [visit] giving
    the recursive call on each child. *)
Fixpoint collect_children (limit : Z) (visit : list (ascii * (hits -> hits)))
    (order : list ascii) (results : hits) : hits :=
  match order with
  | [] => results
  | char :: order =>
      if limit <=? Z.of_nat (length results) then results
      else
        match dict_get char visit with
        | Some call => collect_children limit visit order (call results)
        | None => results
        end
  end.

(** [_collect_words]; the list [results] it appends to is passed in and
    returned. *)
Fixpoint _collect_words (node : _TrieNode) (results : hits) (limit : Z)
  : hits :=
  if limit <=? Z.of_nat (length results) then results
  else
    let results :=
      if is_end node
      then results ++ [(original_word node, frequency node)]
      else results in
    let visit :=
      map (fun item : ascii * _TrieNode =>
             (item.1, fun results => _collect_words item.2 results limit))
          (children node) in
    collect_children limit visit (sorted char_le (keys (children node)))
                     results.

(** The sort key [(-x[1], len(x[0]))], compared as Python compares
    tuples. *)
Definition rank_le (x y : string * Z) : bool :=
  let kx := (- x.2, len x.1) in
  let ky := (- y.2, len y.1) in
  (kx.1 <? ky.1) || ((kx.1 =? ky.1) && (kx.2 <=? ky.2)).

(** [len(x[0])] is taken of every collected tuple when the sort computes
    its keys; on [None] it raises [TypeError]. *)
Fixpoint with_lengths (results : hits) : outcome (list (string * Z)) :=
  match results with
  | [] => Ret []
  | (Some word, freq) :: results =>
      rest ← with_lengths results; Ret ((word, freq) :: rest)
  | (None, _) :: _ => Raise TypeError
  end.

Definition get_suggestions (self : t) (prefix : string) (limit : Z)
  : outcome (list string) :=
  if String.eqb prefix "" then Ret []
  else
    match walk (root self) (lower prefix) with
    | None => Ret []
    | Some node =>
        let results := _collect_words node [] (limit * 3) in
        results ← with_lengths results;
        let results := sorted rank_le results in
        Ret (map fst (py_take limit results))
    end.

Definition __len__ (self : t) : Z := _word_count self.

End Trie.

(** ** 5. Time: [datetime] and [timedelta] *)

(** A naive [datetime], as its count of microseconds on the time line. *)
Definition datetime : Type := Z.

(** A [timedelta], normalised as Python keeps it: [0 <= seconds < 86400]
    and [0 <= microseconds < 1000000], the rest in [days]. *)
Record timedelta := Timedelta {
  days : Z;
  seconds : Z;
  microseconds : Z
}.

Definition MICROS_PER_SECOND : Z := 1000000.
Definition SECONDS_PER_DAY : Z := 86400.

(** [a - b] on datetimes. *)
Definition datetime_sub (a b : datetime) : timedelta :=
  let d := a - b in
  let s := d / MICROS_PER_SECOND in
  Timedelta (s / SECONDS_PER_DAY) (s mod SECONDS_PER_DAY)
            (d mod MICROS_PER_SECOND).

(** [timedelta.total_seconds()], in microseconds. *)
Definition total_microseconds (d : timedelta) : Z :=
  (days d * SECONDS_PER_DAY + seconds d) * MICROS_PER_SECOND + microseconds d.

(** ** 6. The caches of [managers.py] *)

Module Managers.
Section Managers.
(** The [Service] rows of the catalog and what the two functions read of
    them; the model class is defined outside this module. *)
Context {Service Rating : Type}.
Variable is_active : Service -> bool.
Variable is_approved : Service -> bool.
Variable title : Service -> string.
Variable tags : Service -> option string.
Variable get_tags_list : Service -> list string.
Variable get_average_rating : Service -> Rating.
Variable get_review_count : Service -> Z.

(** [==] and [>] on average ratings. *)
Variable rating_eq : Rating -> Rating -> bool.
Variable rating_gt : Rating -> Rating -> bool.

(** Python's [hash] on [str]. *)
Variable hash : string -> Z.

(** [Service.query.filter_by(is_active=True, is_approved=True).all()] on
    the rows [table]. *)
Definition active_approved (table : list Service) : list Service :=
  filter (fun s => is_active s && is_approved s = true) table.

(** [>] on the [(average rating, review count)] tuples. *)
Definition score_gt (x y : Rating * Z) : bool :=
  if rating_eq x.1 y.1 then y.2 <? x.2 else rating_gt x.1 y.1.

(** *** ServiceManager *)

Record ServiceManager := BuildServiceManager {
  _cache : HashMap.t (K:=string) (V:=list Service * datetime);
  _cache_timeout : Z
}.

(** [ServiceManager()] *)
Definition new_service_manager : ServiceManager :=
  BuildServiceManager HashMap.init 300.

(** [f'featured_services_{limit}'] *)
Definition featured_key (limit : Z) : string :=
  "featured_services_" ++ NilZero.string_of_int (Z.to_int limit).

(** [get_featured_services]; [table] is the catalog at the time of the
    call, [now_read] and [now_store] the two readings of
    [datetime.now()]. *)
Definition get_featured_services (self : ServiceManager)
    (table : list Service) (now_read now_store : datetime) (limit : Z)
  : outcome (list Service * ServiceManager) :=
  let cache_key := featured_key limit in
  let compute :=
    let services := active_approved table in
    featured ← MaxHeap.nlargest score_gt
                 (fun s => (get_average_rating s, get_review_count s))
                 limit services
                 (Some (fun s => (get_average_rating s, get_review_count s)));
    cache ← HashMap.__setitem__ hash (_cache self) cache_key
              (featured, now_store);
    Ret (featured, BuildServiceManager cache (_cache_timeout self)) in
  hit ← HashMap.__contains__ hash (_cache self) cache_key;
  if hit : bool then
    '(cached_data, timestamp) ← HashMap.__getitem__ hash (_cache self) cache_key;
    if seconds (datetime_sub now_read timestamp) <? _cache_timeout self
    then Ret (cached_data, self)
    else compute
  else compute.

(** *** SearchEngine *)

Record SearchEngine := BuildSearchEngine {
  suggestions_cache : HashMap.t (K:=string) (V:=list string);
  _trie : Trie.t;
  _trie_built_at : option datetime;
  _trie_timeout : Z
}.

(** [SearchEngine()] *)
Definition new_search_engine : SearchEngine :=
  BuildSearchEngine HashMap.init Trie.init None 300.

(** [if service.tags]: neither [None] nor the empty string. *)
Definition truthy (s : option string) : bool :=
  match s with
  | None => false
  | Some s => negb (String.eqb s "")
  end.

(** The body of the [for service in services] loop of [_build_trie]. *)
Definition index_service (trie : Trie.t) (service : Service) : Trie.t :=
  let trie := Trie.insert trie (title service) in
  if truthy (tags service)
  then foldl Trie.insert trie (get_tags_list service)
  else trie.

Definition _build_trie (self : SearchEngine) (table : list Service)
    (now : datetime) : SearchEngine :=
  let trie := foldl index_service Trie.init (active_approved table) in
  BuildSearchEngine (suggestions_cache self) trie (Some now)
                    (_trie_timeout self).

Definition _ensure_trie_fresh (self : SearchEngine) (table : list Service)
    (now_check now_built : datetime) : SearchEngine :=
  match _trie_built_at self with
  | None => _build_trie self table now_built
  | Some built_at =>
      if _trie_timeout self <? seconds (datetime_sub now_check built_at)
      then _build_trie self table now_built
      else self
  end.

(** [get_autocomplete_suggestions]; [query] is [None] or a string. *)
Definition get_autocomplete_suggestions (self : SearchEngine)
    (table : list Service) (now_check now_built : datetime)
    (query : option string) (limit : Z)
  : outcome (list string * SearchEngine) :=
  match query with
  | None => Ret ([], self)
  | Some query =>
      if String.eqb query "" || (len query <? 2) then Ret ([], self)
      else
        let cache_key := string_of_list_ascii (lower query) in
        hit ← HashMap.__contains__ hash (suggestions_cache self) cache_key;
        if hit : bool then
          cached ← HashMap.__getitem__ hash (suggestions_cache self) cache_key;
          Ret (cached, self)
        else
          let self := _ensure_trie_fresh self table now_check now_built in
          result ← Trie.get_suggestions (_trie self) query limit;
          cache ← HashMap.__setitem__ hash (suggestions_cache self)
                    cache_key result;
          Ret (result,
               BuildSearchEngine cache (_trie self) (_trie_built_at self)
                                 (_trie_timeout self))
  end.

End Managers.
End Managers.


(** ** 7. Queue: linked-list FIFO queue *)

Module Queue.
Section Queue.
Context {V : Type}.

(** A [_QueueNode] object; [next] is [None] or the node it points to. The
    node objects are kept in the order of their creation and a node is
    referred to by its position there. *)
Record _QueueNode := Node {
  value : V;
  next : option nat
}.

Record t := Build {
  objects : list _QueueNode;
  _front : option nat;
  _rear : option nat;
  _size : Z
}.

(** [Queue()] *)
Definition init : t := Build [] None None 0.

(** The node object a reference points to. A reference to no object is no
    state of the program; the model reports it as [Timeout]. *)
Definition deref (objects : list _QueueNode) (ref : nat) : outcome _QueueNode :=
  match objects !! ref with
  | Some node => Ret node
  | None => Timeout
  end.

Definition enqueue (self : t) (value : V) : outcome t :=
  let new_node := length (objects self) in
  let objects := objects self ++ [Node value None] in
  match _rear self with
  | None =>
      Ret (Build objects (Some new_node) (Some new_node) (_size self + 1))
  | Some rear =>
      node ← deref objects rear;
      let objects := <[rear := Node (Queue.value node) (Some new_node)]> objects in
      Ret (Build objects (_front self) (Some new_node) (_size self + 1))
  end.

Definition dequeue (self : t) : outcome (V * t) :=
  match _front self with
  | None => Raise IndexError
  | Some front =>
      node ← deref (objects self) front;
      let value := Queue.value node in
      let front := next node in
      let rear := match front with None => None | Some _ => _rear self end in
      Ret (value, Build (objects self) front rear (_size self - 1))
  end.

Definition peek (self : t) : outcome V :=
  match _front self with
  | None => Raise IndexError
  | Some front => node ← deref (objects self) front; Ret (Queue.value node)
  end.

Definition is_empty (self : t) : bool :=
  match _front self with
  | None => true
  | Some _ => false
  end.

(** [append]: the alias of [enqueue]. *)
Definition append (self : t) (value : V) : outcome t := enqueue self value.

(** The [while node is not None] loop of [to_list]; [fuel] bounds its
    iterations. *)
Fixpoint to_list_loop (fuel : nat) (objects : list _QueueNode)
    (node : option nat) (result : list V) : outcome (list V) :=
  match node with
  | None => Ret result
  | Some ref =>
      match fuel with
      | O => Timeout
      | S fuel =>
          node ← deref objects ref;
          to_list_loop fuel objects (next node) (result ++ [Queue.value node])
      end
  end.

(** A chain has no more nodes than were ever created. *)
Definition to_list (self : t) : outcome (list V) :=
  to_list_loop (length (objects self)) (objects self) (_front self) [].

Definition __len__ (self : t) : Z := _size self.

End Queue.
End Queue.

(** ** 8. ReviewSystem: reviews and their distribution *)

Module Reviews.
Import Managers.
Section Reviews.
Context {Service : Type}.

(** The columns of a [Review] row that [ReviewSystem] writes and reads. *)
Record Review := BuildReview {
  service_id : Z;
  user_id : Z;
  rating : Z;
  comment : string
}.

(** [Review.query.filter_by(service_id=..., user_id=...).first()] on the
    rows [table], in the order they were added. *)
Definition first_by_service_and_user (table : list Review) (service user : Z)
  : option Review :=
  head (filter (fun review => service_id review = service /\ user_id review = user)
               table).

(** [Review.query.filter_by(service_id=...).all()] *)
Definition all_by_service (table : list Review) (service : Z) : list Review :=
  filter (fun review => service_id review = service) table.

(** [add_review]: the [(review, error)] pair returned, the rows after
    [db.session.add(review)] and [commit()], and the module's
    [service_manager], its cache cleared when the review was added. *)
Definition add_review (service_manager : ServiceManager (Service:=Service))
    (table : list Review) (service_id user_id rating : Z) (comment : string)
  : (option Review * option string) * list Review * ServiceManager :=
  if negb ((1 <=? rating) && (rating <=? 5)) then
    ((None, Some "Rating must be between 1 and 5"%string), table, service_manager)
  else
    match first_by_service_and_user table service_id user_id with
    | Some existing =>
        ((None, Some "You have already reviewed this service"%string),
         table, service_manager)
    | None =>
        let review := BuildReview service_id user_id rating comment in
        ((Some review, None),
         table ++ [review],
         BuildServiceManager (HashMap.clear (_cache service_manager))
                             (_cache_timeout service_manager))
    end.

(** [{1: 0, 2: 0, 3: 0, 4: 0, 5: 0}] *)
Definition no_ratings : gmap Z Z :=
  <[1 := 0]> (<[2 := 0]> (<[3 := 0]> (<[4 := 0]> (<[5 := 0]> ∅)))).

(** [distribution[review.rating] += 1] *)
Definition count_rating (distribution : gmap Z Z) (review : Review)
  : outcome (gmap Z Z) :=
  match distribution !! rating review with
  | Some count => Ret (<[rating review := count + 1]> distribution)
  | None => Raise KeyError
  end.

Definition calculate_rating_distribution (table : list Review) (service_id : Z)
  : outcome (gmap Z Z) :=
  foldl (fun distribution review =>
           distribution ← distribution; count_rating distribution review)
        (Ret no_ratings) (all_by_service table service_id).

End Reviews.
End Reviews.

(** * Invariants and reference models *)

(** ** HashMap: representation invariant and reference dictionary *)

Module HashMapModel.
Import HashMap.
Section HashMapModel.
Context {K V : Type} `{Countable K}.
Variable hash : K -> Z.

Abbreviation table := (HashMap.t (K:=K) (V:=V)).
Implicit Types (m : table) (k : K) (v : V) (c : list (K * V)).

(** The position of the chain a key belongs to. *)
Definition slot m k : nat := Z.to_nat (hash k mod _capacity m).

(** The chain a key belongs to. *)
Definition bucket m k : list (K * V) := default [] (_buckets m !! slot m k).

(** The value the table holds for a key. *)
Definition find m k : option V := chain_get k (bucket m k).

(** The representation invariant: as many chains as the capacity says,
    every node in the chain its key hashes to, each key at most once, and
    [_size] the number of nodes. *)
Record wf m : Prop := {
  wf_capacity : 0 < _capacity m;
  wf_length : length (_buckets m) = Z.to_nat (_capacity m);
  wf_slot : forall i c k, _buckets m !! i = Some c -> k ∈ c.*1 -> slot m k = i;
  wf_nodup : forall i c, _buckets m !! i = Some c -> NoDup c.*1;
  wf_size : _size m = Z.of_nat (length (nodes (_buckets m)))
}.

(** The growth invariant: entry count over bucket count is at most 0.75. *)
Definition within_load m : Prop := 4 * _size m <= 3 * _capacity m.

(** The table with the chain of [k] replaced by [c'] and the size set. *)
Definition with_chain m k c' (size : Z) : table :=
  Build (_capacity m) size (<[slot m k := c']> (_buckets m)).

(** The table [__setitem__] leaves before it looks at the load. *)
Definition put m k v : table :=
  match chain_set k v (bucket m k) with
  | Some c' => with_chain m k c' (_size m)
  | None => with_chain m k ((k, v) :: bucket m k) (_size m + 1)
  end.

(** The loop of [_resize] from an accumulated table. *)
Definition rehash (depth : nat) (acc : outcome table) (l : list (K * V))
  : outcome table :=
  foldl (fun acc node => self ← acc; setitem_rec hash depth self node.1 node.2)
        acc l.

(** [m[k] = v] for each pair in turn. *)
Definition set_all (acc : outcome table) (kvs : list (K * V))
  : outcome table :=
  foldl (fun acc kv => self ← acc; __setitem__ hash self kv.1 kv.2) acc kvs.

(** The value last set for [k] in a sequence of [m[k] = v]. *)
Fixpoint last_set (k : K) (kvs : list (K * V)) : option V :=
  match kvs with
  | [] => None
  | (k', v) :: kvs =>
      match last_set k kvs with
      | Some v' => Some v'
      | None => if decide (k' = k) then Some v else None
      end
  end.

(** The mutating calls of a client. *)
Inductive op : Type :=
  | SetItem (k : K) (v : V)
  | DelItem (k : K).

Definition call m (o : op) : outcome table :=
  match o with
  | SetItem k v => __setitem__ hash m k v
  | DelItem k => __delitem__ hash m k
  end.

(** The table after a call; a call that raises leaves it as it was. *)
Definition after m (o : op) : table :=
  match call m o with
  | Ret m' => m'
  | _ => m
  end.

(** The table after a sequence of calls on [HashMap()]. *)
Definition run (ops : list op) : table := foldl after init ops.

(** The same calls on a dictionary. *)
Definition dict_after (d : gmap K V) (o : op) : gmap K V :=
  match o with
  | SetItem k v => <[k := v]> d
  | DelItem k => delete k d
  end.

Definition dict_of (ops : list op) : gmap K V := foldl dict_after ∅ ops.

(** [o] is [m[k] = v] for some [v]. *)
Definition sets (k : K) (o : op) : bool :=
  match o with
  | SetItem k' _ => bool_decide (k' = k)
  | DelItem _ => false
  end.

End HashMapModel.
End HashMapModel.

(** ** HashMap: sessions with [clear] *)

Module HashMapSession.
Import HashMap HashMapModel.
Section HashMapSession.
Context {K V : Type} `{Countable K}.
Variable hash : K -> Z.

(** What a client asks of a table: a mutating call, or [clear()]. *)
Inductive request : Type :=
  | Change (o : @op K V)
  | Clear.

(** The table after a request; a call that raises leaves it as it was. *)
Definition serve (m : HashMap.t (K:=K) (V:=V)) (r : request)
  : HashMap.t (K:=K) (V:=V) :=
  match r with
  | Change o => after hash m o
  | Clear => clear m
  end.

(** The table after a sequence of requests on [HashMap()]. *)
Definition session (rs : list request) : HashMap.t (K:=K) (V:=V) :=
  foldl serve init rs.

(** The same requests on a dictionary. *)
Definition dict_serve (d : gmap K V) (r : request) : gmap K V :=
  match r with
  | Change o => dict_after d o
  | Clear => ∅
  end.

Definition dict_session (rs : list request) : gmap K V :=
  foldl dict_serve ∅ rs.

(** The capacities a session can reach: sixteen buckets doubled some
    number of times. *)
Definition doubled (m : HashMap.t (K:=K) (V:=V)) : Prop :=
  exists n : nat, _capacity m = 16 * 2 ^ Z.of_nat n.

End HashMapSession.
End HashMapSession.

(** ** MaxHeap: the heap property and sequences of calls *)

Module MaxHeapModel.
Import MaxHeap.
Section MaxHeapModel.
(** Priorities are numbers, compared with [>]; items are of any type. *)
Context {A : Type}.
Variable as_priority : A -> Z.

Abbreviation entry := (MaxHeap.entry (P:=Z) (A:=A)).
Abbreviation heap_t := (MaxHeap.t (P:=Z) (A:=A)).

(** [(i - 1) // 2] *)
Definition parent (i : nat) : nat := ((i - 1) / 2)%nat.

(** The priority stored at a position ([0] outside the array). *)
Definition prio (heap : list entry) (i : nat) : Z :=
  match heap !! i with
  | Some e => priority_of e
  | None => 0
  end.

(** The max-heap property: every entry other than the root has a priority
    that is at most its parent's. *)
Definition heap_ordered (heap : list entry) : Prop :=
  forall i, (0 < i < length heap)%nat -> prio heap i <= prio heap (parent i).

(** The property with position [j] on its way up: [j] may be above its
    parent, and its children are below that parent. *)
Definition ordered_but_up (heap : list entry) (j : nat) : Prop :=
  (forall i, (0 < i < length heap)%nat -> i <> j ->
             prio heap i <= prio heap (parent i)) /\
  (forall i, (0 < i < length heap)%nat -> parent i = j -> (0 < j)%nat ->
             prio heap i <= prio heap (parent j)).

(** The property with position [j] on its way down: [j] may be below its
    children, which are below the parent of [j]. *)
Definition ordered_but_down (heap : list entry) (j : nat) : Prop :=
  (forall i, (0 < i < length heap)%nat -> parent i <> j ->
             prio heap i <= prio heap (parent i)) /\
  (forall i, (0 < i < length heap)%nat -> parent i = j -> (0 < j)%nat ->
             prio heap i <= prio heap (parent j)).

(** The priority an [insert] files an item under. *)
Definition filed (item : A) (priority : option Z) : Z :=
  match priority with
  | None => as_priority item
  | Some priority => priority
  end.

Definition pair_of (e : entry) : Z * A := (priority_of e, item_of e).

(** Entries in the order of non-increasing priority. *)
Definition by_priority (es : list entry) : Prop :=
  StronglySorted (fun a b => priority_of b <= priority_of a) es.

(** The mutating calls of a client. *)
Inductive op : Type :=
  | Insert (item : A) (priority : option Z)
  | ExtractMax.

Definition call (h : heap_t) (o : op) : outcome heap_t :=
  match o with
  | Insert item priority => insert Z.gtb as_priority h item priority
  | ExtractMax => r ← extract_max Z.gtb h; Ret r.2
  end.

(** The heap after a call; a call that raises leaves it as it was. *)
Definition after (h : heap_t) (o : op) : heap_t :=
  match call h o with
  | Ret h' => h'
  | _ => h
  end.

(** The heap after a sequence of calls on [MaxHeap()]. *)
Definition run (ops : list op) : heap_t := foldl after init ops.

(** [heap.insert(item, priority)] for each pair in turn, on [MaxHeap()]. *)
Definition insert_all (pairs : list (Z * A)) : outcome heap_t :=
  foldl (fun acc pair => h ← acc; insert Z.gtb as_priority h pair.2 (Some pair.1))
        (Ret init) pairs.

(** [heap.insert(item)] for each item in turn, on [MaxHeap()]. *)
Definition insert_bare (items : list A) : outcome heap_t :=
  foldl (fun acc item => h ← acc; insert Z.gtb as_priority h item None)
        (Ret init) items.

(** [extract_max] until the heap is empty: the items in the order they
    come out. *)
Definition drain (h : heap_t) : outcome (list A) :=
  r ← extract_times Z.gtb (length (_heap h)) h []; Ret r.1.

End MaxHeapModel.
End MaxHeapModel.

(** ** MaxHeap: counting the calls *)

Module MaxHeapCalls.
Import MaxHeap MaxHeapModel.
Section MaxHeapCalls.
Context {A : Type}.

(** The number of entries after a call, from the number before it. *)
Definition size_after (n : Z) (o : @op A) : Z :=
  match o with
  | Insert _ _ => n + 1
  | ExtractMax => Z.max 0 (n - 1)
  end.

(** The number of entries after a sequence of calls on [MaxHeap()]. *)
Definition size_of (ops : list (@op A)) : Z := foldl size_after 0 ops.

(** The value of the counter after a call, from the value before it. *)
Definition counter_after (n : Z) (o : @op A) : Z :=
  match o with
  | Insert _ _ => n + 1
  | ExtractMax => n
  end.

(** The number of [insert]s among the calls. *)
Definition inserts (ops : list (@op A)) : Z := foldl counter_after 0 ops.

(** Entries carry the counter value of their insertion: different for
    different entries, and below the counter. *)
Definition stamped (h : MaxHeap.t (P:=Z) (A:=A)) : Prop :=
  0 <= _counter h /\
  NoDup (order_of <$> _heap h) /\
  Forall (fun e => 0 <= order_of e < _counter h) (_heap h).

End MaxHeapCalls.
End MaxHeapCalls.

(** ** Trie: built tries, full traversal, and the suggestions of the
    specification *)

Module TrieModel.
Import Trie.

(** Induction on a node, with the property for the nodes of its
    [children]. *)
Section NodeInduction.
Variable P : _TrieNode -> Prop.
Hypothesis step :
  forall cs e w f, Forall (fun item => P item.2) cs -> P (Node cs e w f).

Fixpoint node_ind (node : _TrieNode) : P node :=
  match node with
  | Node cs e w f =>
      step cs e w f
        ((fix go (cs : list (ascii * _TrieNode))
            : Forall (fun item => P item.2) cs :=
            match cs with
            | [] => List.Forall_nil _
            | item :: cs' => List.Forall_cons _ item cs' (node_ind item.2) (go cs')
            end) cs)
  end.
End NodeInduction.

(** The trie after [insert] of each word in turn, from [Trie()]. *)
Definition build (words : list string) : t := foldl insert init words.

(** [word] begins with [prefix], compared case-insensitively. *)
Definition begins_with (prefix word : string) : Prop :=
  lower prefix `prefix_of` lower word.

(** One of the terms inserted begins with [prefix]; [insert] takes no term
    that is empty or only whitespace. *)
Definition some_term_begins_with (words : list string) (prefix : string)
  : Prop :=
  exists word, word ∈ words /\ blank word = false /\ begins_with prefix word.

(** Every terminal node below [node] carries its original word. *)
Definition terminal_named (node : _TrieNode) : Prop :=
  forall path node',
    walk node path = Some node' -> is_end node' = true ->
    is_Some (original_word node').

(** The original word of a terminal node. *)
Definition term_of (node : _TrieNode) : string :=
  match original_word node with
  | Some word => word
  | None => ""
  end.

(** The depth-first traversal of a subtree, children in ascending
    character order: the [(originalTerm, occurrenceCount)] pairs of its
    terminal nodes. *)
Fixpoint terms (node : _TrieNode) : list (string * Z) :=
  (if is_end node then [(term_of node, frequency node)] else [])
  ++ let below :=
       map (fun item : ascii * _TrieNode => (item.1, terms item.2))
           (children node) in
     flat_map (fun char => default [] (dict_get char below))
              (sorted char_le (keys (children node))).

(** A candidate goes before another when its occurrence count is higher,
    or the counts are equal and its term is not longer. *)
Definition ranks_before (x y : string * Z) : bool :=
  (y.2 <? x.2) || ((x.2 =? y.2) && (String.length x.1 <=? String.length y.1)%nat).

(** The suggestions of the specification from the node at the end of the
    prefix path: at most [limit * 3] candidates of the traversal, sorted by
    rank, the terms of the first [limit]. *)
Definition suggest (node : _TrieNode) (limit : Z) : list string :=
  let candidates := take (Z.to_nat (limit * 3)) (terms node) in
  let ranked := sorted ranks_before candidates in
  fst <$> take (Z.to_nat limit) ranked.

(** How many more tuples [_collect_words] may append to [results]. *)
Definition room {X} (limit : Z) (results : list X) : nat :=
  Z.to_nat (limit - Z.of_nat (length results)).

(** A pair of the traversal as the tuple [_collect_words] appends. *)
Definition hit (x : string * Z) : option string * Z := (Some x.1, x.2).

End TrieModel.

(** ** Trie: the words a trie was built from *)

Module TrieWords.
Import Trie TrieModel.

(** The words [insert] takes: those that are not empty or all
    whitespace. *)
Definition stored (words : list string) : list string :=
  filter (fun word => blank word = false) words.

(** The stored words whose lowercase form is [path], in the order of
    insertion. *)
Definition spelled (path : list ascii) (words : list string) : list string :=
  filter (fun word => lower word = path) (stored words).

(** The lowercase forms of the stored words. *)
Definition distinct (words : list string) : gset (list ascii) :=
  list_to_set (lower <$> stored words).

(** What a node records: [is_end], [original_word], [frequency]. *)
Definition data (node : _TrieNode) : bool * option string * Z :=
  (is_end node, original_word node, frequency node).

(** What the node at the end of [path] records; a node that does not
    exist yet records what a new node does. *)
Definition data_at (node : _TrieNode) (path : list ascii)
  : bool * option string * Z :=
  match walk node path with
  | Some node' => data node'
  | None => data new_node
  end.

End TrieWords.

(** ** The caches: a small catalog to run them on *)

Module Scenario.
Import Managers.

(** A catalog row: title, average rating, number of reviews; it has no
    tags, and is active and approved. *)
Record row := Row {
  row_title : string;
  row_rating : Z;
  row_reviews : Z
}.

(** A hash on strings: any function will do. *)
Definition length_hash (s : string) : Z := Z.of_nat (String.length s).

Definition autocomplete :=
  get_autocomplete_suggestions (fun _ : row => true) (fun _ => true)
    row_title (fun _ => None) (fun _ => []) length_hash.

Definition rebuild :=
  _build_trie (fun _ : row => true) (fun _ => true)
    row_title (fun _ => None) (fun _ => []).

Definition featured :=
  get_featured_services (fun _ : row => true) (fun _ => true)
    row_rating row_reviews Z.eqb Z.gtb length_hash.

(** [n] seconds, in microseconds. *)
Definition secs (n : Z) : datetime := n * MICROS_PER_SECOND.

Definition python : row := Row "Python" 5 10.
Definition pyramid : row := Row "Pyramid" 4 2.

(** A query is cached, the catalog changes, the index is rebuilt, and the
    query is asked again: the second answer, and the answer of the rebuilt
    index. *)
Definition ask_rebuild_ask : outcome (list string * outcome (list string)) :=
  first ← autocomplete new_search_engine [python] (secs 0) (secs 0)
            (Some "py"%string) 5;
  let engine := rebuild first.2 [pyramid] (secs 1000) in
  second ← autocomplete engine [pyramid] (secs 1001) (secs 1001)
             (Some "py"%string) 5;
  Ret (second.1, Trie.get_suggestions (_trie engine) "py" 5).

(** The engine once ["py"] has been asked on the catalog of [python]. *)
Definition engine_with_py : SearchEngine :=
  match autocomplete new_search_engine [python] (secs 0) (secs 0)
          (Some "py"%string) 5 with
  | Ret answer => answer.2
  | _ => new_search_engine
  end.

(** The featured list is computed and cached, the catalog changes, and the
    list is asked again [age] seconds later: both answers. *)
Definition featured_twice (age : Z) : outcome (list row * list row) :=
  first ← featured new_service_manager [pyramid] (secs 0) (secs 0) 4;
  second ← featured first.2 [python] (secs age) (secs age) 4;
  Ret (first.1, second.1).

End Scenario.

(** ** The caches over the life of the managers *)

Module Sessions.
Import Managers.
Section Sessions.
Context {Service Rating : Type}.
Variables is_active is_approved : Service -> bool.
Variable title : Service -> string.
Variable tags : Service -> option string.
Variable get_tags_list : Service -> list string.
Variable get_average_rating : Service -> Rating.
Variable get_review_count : Service -> Z.
Variables rating_eq rating_gt : Rating -> Rating -> bool.
Variable hash : string -> Z.

(** *** SearchEngine *)

(** What happens to a search engine: a query is asked, or the index is
    rebuilt. *)
Inductive search_event : Type :=
  | Asked (table : list Service) (now_check now_built : datetime)
          (query : option string) (limit : Z)
  | Rebuilt (table : list Service) (now : datetime).

(** The engine after an event; a call that raises leaves it as it was. *)
Definition engine_after (self : SearchEngine) (ev : search_event)
  : SearchEngine :=
  match ev with
  | Asked table now_check now_built query limit =>
      match get_autocomplete_suggestions is_active is_approved title tags
              get_tags_list hash self table now_check now_built query limit with
      | Ret answer => answer.2
      | _ => self
      end
  | Rebuilt table now =>
      _build_trie is_active is_approved title tags get_tags_list self table now
  end.

(** The engine after a sequence of events on [SearchEngine()]. *)
Definition engine_of (evs : list search_event) : SearchEngine :=
  foldl engine_after new_search_engine evs.

(** The terms [_build_trie] inserts for a service, in order. *)
Definition terms_of (service : Service) : list string :=
  title service :: (if truthy (tags service) then get_tags_list service else []).

Definition catalog_terms (table : list Service) : list string :=
  flat_map terms_of (active_approved is_active is_approved table).

(** Every cached answer holds terms that begin with its key. *)
Definition answers_begin (cache : HashMap.t (K:=string) (V:=list string))
  : Prop :=
  forall key answer,
    HashMapModel.find hash cache key = Some answer ->
    forall s, s ∈ answer -> chars key `prefix_of` lower s.

Definition engine_ok (self : SearchEngine) : Prop :=
  HashMapModel.wf hash (suggestions_cache self) /\
  HashMapModel.within_load (suggestions_cache self) /\
  (exists words, _trie self = TrieModel.build words) /\
  answers_begin (suggestions_cache self).

(** *** ServiceManager *)

(** What happens to a service manager: the featured list is asked for, or
    the cache is cleared ([self._cache.clear()], as creating, approving or
    rejecting a service and adding a review do). *)
Inductive manager_event : Type :=
  | Featured (table : list Service) (now_read now_store : datetime) (limit : Z)
  | CacheCleared.

Definition manager_after (self : ServiceManager) (ev : manager_event)
  : ServiceManager :=
  match ev with
  | Featured table now_read now_store limit =>
      match get_featured_services is_active is_approved get_average_rating
              get_review_count rating_eq rating_gt hash self table
              now_read now_store limit with
      | Ret answer => answer.2
      | _ => self
      end
  | CacheCleared =>
      BuildServiceManager (HashMap.clear (_cache self)) (_cache_timeout self)
  end.

(** The manager after a sequence of events on [ServiceManager()]. *)
Definition manager_of (evs : list manager_event) : ServiceManager :=
  foldl manager_after new_service_manager evs.

(** Every cached list holds active, approved services only. *)
Definition lists_listed
    (cache : HashMap.t (K:=string) (V:=list Service * datetime)) : Prop :=
  forall key answer,
    HashMapModel.find hash cache key = Some answer ->
    forall s, s ∈ answer.1 -> is_active s = true /\ is_approved s = true.

Definition manager_ok (self : ServiceManager) : Prop :=
  HashMapModel.wf hash (_cache self) /\
  HashMapModel.within_load (_cache self) /\
  _cache_timeout self = 300 /\
  lists_listed (_cache self).

End Sessions.
End Sessions.

(** ** Queue: the chain of nodes and sequences of calls *)

Module QueueModel.
Import Queue.
Section QueueModel.
Context {V : Type}.

Abbreviation queue := (Queue.t (V:=V)).

(** Following [next] from [first] visits the nodes [refs], which hold
    [values], and ends on [None]. *)
Inductive linked (objects : list (_QueueNode (V:=V)))
  : option nat -> list nat -> list V -> Prop :=
  | linked_nil : linked objects None [] []
  | linked_cons ref v nxt refs values :
      objects !! ref = Some (Node v nxt) ->
      linked objects nxt refs values ->
      linked objects (Some ref) (ref :: refs) (v :: values).

(** The queue holds [values], front first: its nodes are linked from
    [_front], [_rear] is the last of them, and [_size] their number. *)
Definition holds (self : queue) (values : list V) : Prop :=
  exists refs,
    linked (objects self) (_front self) refs values /\
    _rear self = last refs /\
    NoDup refs /\
    Forall (fun ref => (ref < length (objects self))%nat) refs /\
    (length refs <= length (objects self))%nat /\
    _size self = Z.of_nat (length values).

(** The mutating calls of a client. *)
Inductive op : Type :=
  | Enqueue (value : V)
  | Dequeue.

Definition call (self : queue) (o : op) : outcome queue :=
  match o with
  | Enqueue value => enqueue self value
  | Dequeue => r ← dequeue self; Ret r.2
  end.

(** The queue after a call; a call that raises leaves it as it was. *)
Definition after (self : queue) (o : op) : queue :=
  match call self o with
  | Ret self' => self'
  | _ => self
  end.

(** The queue after a sequence of calls on [Queue()]. *)
Definition run (ops : list op) : queue := foldl after init ops.

(** The same calls on a list, oldest value first. *)
Definition list_after (l : list V) (o : op) : list V :=
  match o with
  | Enqueue value => l ++ [value]
  | Dequeue => tail l
  end.

Definition list_of (ops : list op) : list V := foldl list_after [] ops.

End QueueModel.
End QueueModel.

(** ** ReviewSystem: the reviews of a site *)

Module ReviewsModel.
Import Managers Reviews Sessions.
Section ReviewsModel.
Context {Service Rating : Type}.
Variables is_active is_approved : Service -> bool.
Variable get_average_rating : Service -> Rating.
Variable get_review_count : Service -> Z.
Variables rating_eq rating_gt : Rating -> Rating -> bool.
Variable hash : string -> Z.

(** A rating of one to five stars. *)
Definition stars (review : Review) : Prop := 1 <= rating review <= 5.

(** The number of reviews with [r] stars. *)
Definition with_stars (r : Z) (reviews : list Review) : Z :=
  Z.of_nat (length (filter (fun review => rating review = r) reviews)).

(** What happens on the site: a review is submitted, or the service
    manager is used. *)
Inductive site_event : Type :=
  | Reviewed (service_id user_id rating : Z) (comment : string)
  | Managed (ev : @manager_event Service).

(** The [Review] rows and the [service_manager]. *)
Definition site : Type := list Review * ServiceManager (Service:=Service).

Definition site_after (w : site) (ev : site_event) : site :=
  match ev with
  | Reviewed service_id user_id rating comment =>
      let result := add_review w.2 w.1 service_id user_id rating comment in
      (result.1.2, result.2)
  | Managed ev =>
      (w.1, manager_after is_active is_approved get_average_rating
              get_review_count rating_eq rating_gt hash w.2 ev)
  end.

(** The site after a sequence of events, from no reviews and
    [ServiceManager()]. *)
Definition site_of (evs : list site_event) : site :=
  foldl site_after ([], new_service_manager) evs.

(** The rows hold one to five stars each, and one review for a service by
    a user at most. *)
Definition reviews_ok (table : list Review) : Prop :=
  Forall stars table /\
  NoDup ((fun review => (service_id review, user_id review)) <$> table).

End ReviewsModel.
End ReviewsModel.

(** * Properties *)

(** ** Outcomes *)

Lemma bind_Ret {A B} (f : A -> outcome B) (a : A) : (Ret a ≫= f) = f a.
Proof. reflexivity. Qed.

Lemma bind_Ret_inv {A B} (f : A -> outcome B) (m : outcome A) (b : B) :
m ≫= f = Ret b -> exists a, m = Ret a /\ f a = Ret b.
Proof. destruct m; simpl; [eauto | discriminate | discriminate]. Qed.

Lemma py_index_nat {A} (l : list A) (i : nat) (x : A) :
l !! i = Some x -> py_index l (Z.of_nat i) = Ret x.
Proof.
intros Hx. pose proof (lookup_lt_Some _ _ _ Hx) as Hlt.
unfold py_index.
replace (Z.of_nat i <? 0) with false by (symmetry; apply Z.ltb_ge; lia).
replace (0 <=? Z.of_nat i) with true by (symmetry; apply Z.leb_le; lia).
replace (Z.of_nat i <? Z.of_nat (length l)) with true
  by (symmetry; apply Z.ltb_lt; lia).
simpl. rewrite Nat2Z.id, Hx. reflexivity.
Qed.

Lemma py_store_nat {A} (l : list A) (i : nat) (x : A) :
(i < length l)%nat -> py_store l (Z.of_nat i) x = Ret (<[i := x]> l).
Proof.
intros Hlt. unfold py_store.
replace (Z.of_nat i <? 0) with false by (symmetry; apply Z.ltb_ge; lia).
replace (0 <=? Z.of_nat i) with true by (symmetry; apply Z.leb_le; lia).
replace (Z.of_nat i <? Z.of_nat (length l)) with true
  by (symmetry; apply Z.ltb_lt; lia).
simpl. rewrite Nat2Z.id. reflexivity.
Qed.

(** ** HashMap *)

Module HashMapFacts.
Import HashMap HashMapModel.
Section Chains.
Context {K V : Type} `{EqDecision K}.
Implicit Types (c : list (K * V)) (k : K) (v : V).

Lemma chain_get_None k c : chain_get k c = None <-> k ∉ c.*1.
Proof.
  induction c as [|[k' v'] c IH]; simpl.
  - split; [intros _; apply not_elem_of_nil | done].
  - rewrite not_elem_of_cons. destruct (decide (k' = k)) as [->|Hne].
    + split; [discriminate | intros [? _]; done].
    + rewrite IH. split; [intros ?; split; [congruence | done] | tauto].
Qed.

Lemma chain_get_Some k v c :
  NoDup c.*1 -> chain_get k c = Some v <-> (k, v) ∈ c.
Proof.
  induction c as [|[k' v'] c IH]; simpl; intros Hnd.
  - split; [discriminate | intros Hin; inversion Hin].
  - apply NoDup_cons in Hnd as [Hk' Hnd]. rewrite elem_of_cons.
    destruct (decide (k' = k)) as [->|Hne].
    + split; [intros [= ->]; by left |].
      intros [[= ->]|Hin]; [done |].
      exfalso. apply Hk'. apply (list_elem_of_fmap_2 fst) in Hin. done.
    + rewrite (IH Hnd). split; [by right |].
      intros [[= ? ?]|?]; [congruence | done].
Qed.

Lemma chain_get_app k c1 c2 :
  chain_get k (c1 ++ c2) =
    match chain_get k c1 with Some v => Some v | None => chain_get k c2 end.
Proof.
  induction c1 as [|[k' v'] c1 IH]; simpl; [done |].
  destruct (decide (k' = k)); [done | apply IH].
Qed.

Lemma chain_get_reverse k c :
  NoDup c.*1 -> chain_get k (reverse c) = chain_get k c.
Proof.
  intros Hnd. destruct (chain_get k c) as [v|] eqn:Hget.
  - apply chain_get_Some in Hget; [|done].
    apply chain_get_Some; [by rewrite fmap_reverse, reverse_Permutation |].
    by apply elem_of_reverse.
  - apply chain_get_None in Hget. apply chain_get_None.
    by rewrite fmap_reverse, elem_of_reverse.
Qed.

Lemma chain_set_None k v c : chain_set k v c = None <-> chain_get k c = None.
Proof.
  induction c as [|[k' v'] c IH]; simpl; [done |].
  destruct (decide (k' = k)); [done |].
  rewrite fmap_None. exact IH.
Qed.

Lemma chain_set_Some k v c c' :
  chain_set k v c = Some c' ->
  c'.*1 = c.*1 /\
  forall k', chain_get k' c' = if decide (k = k') then Some v else chain_get k' c.
Proof.
  revert c'. induction c as [|[k0 v0] c IH]; simpl; intros c'; [done |].
  destruct (decide (k0 = k)) as [->|Hne].
  - intros [= <-]. split; [done |]. intros k'. simpl.
    destruct (decide (k = k')); done.
  - destruct (chain_set k v c) as [c1|]; simpl; [|done].
    intros [= <-]. destruct (IH c1 eq_refl) as [Hk Hg].
    split; [rewrite !fmap_cons; by rewrite Hk |].
    intros k'. simpl. rewrite Hg.
    destruct (decide (k0 = k')), (decide (k = k')); congruence.
Qed.

Lemma chain_del_None k c : chain_del k c = None <-> chain_get k c = None.
Proof.
  induction c as [|[k' v'] c IH]; simpl; [done |].
  destruct (decide (k' = k)); [done |].
  rewrite fmap_None. exact IH.
Qed.

Lemma chain_del_Some k c c' :
  chain_del k c = Some c' -> NoDup c.*1 ->
  NoDup c'.*1 /\ c'.*1 ⊆ c.*1 /\ S (length c') = length c /\
  forall k', chain_get k' c' = if decide (k = k') then None else chain_get k' c.
Proof.
  revert c'. induction c as [|[k0 v0] c IH]; simpl; intros c'; [done |].
  destruct (decide (k0 = k)) as [->|Hne].
  - intros [= <-] [Hk Hnd]%NoDup_cons. repeat split; [done | | ].
    + intros x Hx. by right.
    + intros k'. destruct (decide (k = k')) as [<-|]; [|done].
      by apply chain_get_None.
  - destruct (chain_del k c) as [c1|]; simpl; [|done].
    intros [= <-] [Hk Hnd]%NoDup_cons.
    destruct (IH c1 eq_refl Hnd) as (Hnd1 & Hsub & Hlen & Hg).
    repeat split.
    + simpl. apply NoDup_cons. split; [|done]. intros Hin. apply Hk, Hsub, Hin.
    + simpl. intros x [->|Hx]%elem_of_cons; [by left | right; by apply Hsub].
    + simpl. by rewrite Hlen.
    + intros k'. simpl. rewrite Hg.
      destruct (decide (k0 = k')), (decide (k = k')); congruence.
Qed.
End Chains.

Section Tables.
Context {K V : Type} `{Countable K}.
Variable hash : K -> Z.

Abbreviation table := (HashMap.t (K:=K) (V:=V)).
Implicit Types (m : table) (k : K) (v : V) (c : list (K * V)).




Lemma slot_lt m k : wf hash m -> (slot hash m k < length (_buckets m))%nat.
Proof.
  intros Hwf. rewrite (wf_length _ _ Hwf). unfold slot.
  pose proof (wf_capacity _ _ Hwf).
  pose proof (Z.mod_pos_bound (hash k) (_capacity m)). lia.
Qed.

Lemma bucket_lookup m k : wf hash m -> _buckets m !! slot hash m k = Some (bucket hash m k).
Proof.
  intros Hwf. unfold bucket.
  destruct (lookup_lt_is_Some_2 _ _ (slot_lt m k Hwf)) as [c Hc].
  by rewrite Hc.
Qed.

Lemma hash_wf m k : wf hash m -> _hash hash m k = Ret (Z.of_nat (slot hash m k)).
Proof.
  intros Hwf. unfold _hash, slot. pose proof (wf_capacity _ _ Hwf).
  destruct (Z.eqb_spec (_capacity m) 0); [lia |].
  pose proof (Z.mod_pos_bound (hash k) (_capacity m)).
  rewrite Z2Nat.id by lia. done.
Qed.

Lemma getitem_wf m k :
  wf hash m ->
  __getitem__ hash m k =
    match find hash m k with Some v => Ret v | None => Raise KeyError end.
Proof.
  intros Hwf. unfold __getitem__. rewrite hash_wf by done. simpl.
  rewrite (py_index_nat _ _ _ (bucket_lookup m k Hwf)). done.
Qed.

Lemma contains_wf m k :
  wf hash m -> __contains__ hash m k = Ret (bool_decide (is_Some (find hash m k))).
Proof.
  intros Hwf. unfold __contains__. rewrite hash_wf by done. simpl.
  rewrite (py_index_nat _ _ _ (bucket_lookup m k Hwf)). done.
Qed.

(** *** Replacing one chain *)

Lemma nodes_insert (bs : list (list (K * V))) i c c' :
  bs !! i = Some c ->
  (length (nodes (<[i := c']> bs)) + length c
   = length (nodes bs) + length c')%nat.
Proof.
  intros Hi. unfold nodes.
  rewrite insert_take_drop by (eapply lookup_lt_Some; eauto).
  replace (concat bs) with (concat (take i bs ++ c :: drop (S i) bs))
    by (by rewrite take_drop_middle).
  rewrite !concat_app. simpl. rewrite !length_app. lia.
Qed.


Lemma slot_with_chain m k c' size k' : slot hash (with_chain hash m k c' size) k' = slot hash m k'.
Proof. done. Qed.

Lemma bucket_with_chain m k c' size k' :
  wf hash m ->
  bucket hash (with_chain hash m k c' size) k' =
    if decide (slot hash m k = slot hash m k') then c' else bucket hash m k'.
Proof.
  intros Hwf. unfold bucket at 1. rewrite slot_with_chain. simpl.
  destruct (decide (slot hash m k = slot hash m k')) as [<-|Hne].
  - rewrite list_lookup_insert_eq by (by apply slot_lt). done.
  - rewrite list_lookup_insert_ne by done. done.
Qed.

Lemma wf_with_chain m k c' size :
  wf hash m ->
  (forall k', k' ∈ c'.*1 -> slot hash m k' = slot hash m k) ->
  NoDup c'.*1 ->
  size + Z.of_nat (length (bucket hash m k)) = _size m + Z.of_nat (length c') ->
  wf hash (with_chain hash m k c' size).
Proof.
  intros Hwf Hslot Hnd Hsize. split; simpl.
  - apply Hwf.
  - rewrite length_insert. apply Hwf.
  - intros i c k' Hi Hk'. rewrite slot_with_chain.
    destruct (decide (i = slot hash m k)) as [->|Hne].
    + rewrite list_lookup_insert_eq in Hi by (by apply slot_lt).
      injection Hi as <-. by apply Hslot.
    + rewrite list_lookup_insert_ne in Hi by done.
      eapply wf_slot; eauto.
  - intros i c Hi.
    destruct (decide (i = slot hash m k)) as [->|Hne].
    + rewrite list_lookup_insert_eq in Hi by (by apply slot_lt).
      by injection Hi as <-.
    + rewrite list_lookup_insert_ne in Hi by done.
      eapply wf_nodup; eauto.
  - pose proof (nodes_insert _ _ _ c' (bucket_lookup m k Hwf)) as Hn.
    pose proof (wf_size _ _ Hwf). lia.
Qed.

(** *** [__setitem__] without the rehash *)


Lemma put_wf m k v : wf hash m -> wf hash (put hash m k v).
Proof.
  intros Hwf. unfold put.
  pose proof (bucket_lookup m k Hwf) as Hb.
  destruct (chain_set k v (bucket hash m k)) as [c'|] eqn:Hset.
  - destruct (chain_set_Some _ _ _ _ Hset) as [Hkeys _].
    apply wf_with_chain; [done | | |].
    + intros k'. rewrite Hkeys. intros Hk'. eapply wf_slot; eauto.
    + rewrite Hkeys. eapply wf_nodup; eauto.
    + apply (f_equal length) in Hkeys. rewrite !length_fmap in Hkeys. lia.
  - apply chain_set_None, chain_get_None in Hset.
    apply wf_with_chain; [done | | |].
    + intros k'. rewrite fmap_cons. intros [->|Hk']%elem_of_cons; [done |].
      eapply wf_slot; eauto.
    + rewrite fmap_cons. apply NoDup_cons. split; [done |].
      eapply wf_nodup; eauto.
    + simpl. lia.
Qed.

Lemma find_absent_other_slot m k k' :
  wf hash m -> slot hash m k ≠ slot hash m k' -> k' ∉ (bucket hash m k).*1.
Proof.
  intros Hwf Hne Hin. apply Hne. symmetry.
  eapply wf_slot; eauto using bucket_lookup.
Qed.

Lemma find_put m k v k' :
  wf hash m ->
  find hash (put hash m k v) k' = if decide (k = k') then Some v else find hash m k'.
Proof.
  intros Hwf. unfold find, put.
  destruct (chain_set k v (bucket hash m k)) as [c'|] eqn:Hset.
  - destruct (chain_set_Some _ _ _ _ Hset) as [Hkeys Hget].
    rewrite bucket_with_chain by done.
    destruct (decide (slot hash m k = slot hash m k')) as [Heq|Hne].
    + rewrite Hget. unfold bucket. by rewrite Heq.
    + destruct (decide (k = k')) as [->|]; done.
  - rewrite bucket_with_chain by done.
    destruct (decide (slot hash m k = slot hash m k')) as [Heq|Hne].
    + simpl. destruct (decide (k = k')); [done |].
      unfold bucket. by rewrite Heq.
    + destruct (decide (k = k')) as [->|]; done.
Qed.

Lemma capacity_put m k v : _capacity (put hash m k v) = _capacity m.
Proof. unfold put. by destruct (chain_set k v (bucket hash m k)). Qed.

Lemma size_put m k v :
  _size (put hash m k v) =
    match find hash m k with Some _ => _size m | None => _size m + 1 end.
Proof.
  unfold put, find.
  destruct (chain_set k v (bucket hash m k)) as [c'|] eqn:Hset.
  - destruct (chain_get k (bucket hash m k)) eqn:Hget; [done |].
    apply (chain_set_None k v) in Hget. congruence.
  - apply chain_set_None in Hset. by rewrite Hset.
Qed.

Lemma setitem_rec_wf depth m k v :
  wf hash m ->
  setitem_rec hash depth m k v =
    match find hash m k with
    | Some _ => Ret (put hash m k v)
    | None =>
        if over_load (_size m + 1) (_capacity m) then
          match depth with
          | O => Timeout
          | S depth => _resize_with (setitem_rec hash depth) (put hash m k v)
          end
        else Ret (put hash m k v)
    end.
Proof.
  intros Hwf. pose proof (slot_lt m k Hwf) as Hlt.
  unfold find, put.
  destruct depth; simpl; rewrite hash_wf by done; simpl;
    rewrite (py_index_nat _ _ _ (bucket_lookup m k Hwf)); simpl;
    (destruct (chain_set k v (bucket hash m k)) as [c'|] eqn:Hset;
     [ destruct (chain_get k (bucket hash m k)) eqn:Hget;
       [| apply (chain_set_None k v) in Hget; congruence]
     | apply chain_set_None in Hset; rewrite Hset ]);
    rewrite py_store_nat by done; simpl; done.
Qed.

(** *** The rehash of [_resize] *)

Lemma over_load_spec size capacity :
  0 < capacity -> over_load size capacity = true <-> 3 * capacity < 4 * size.
Proof.
  intros Hc. unfold over_load.
  destruct (Z.ltb_spec 0 capacity); [|lia]. apply Z.ltb_lt.
Qed.

Lemma over_load_false size capacity :
  0 < capacity -> 4 * size <= 3 * capacity -> over_load size capacity = false.
Proof.
  intros Hc Hs. apply not_true_is_false. rewrite over_load_spec by done. lia.
Qed.

Lemma nodes_empty n : nodes (replicate n ([] : list (K * V))) = [].
Proof. induction n; simpl; [done |]. apply IHn. Qed.

Lemma wf_fresh capacity :
  0 < capacity -> wf hash (Build capacity 0 (empty_buckets capacity) : table).
Proof.
  intros Hc. unfold empty_buckets. split; simpl.
  - done.
  - apply length_replicate.
  - intros i c k [-> _]%lookup_replicate Hk. inversion Hk.
  - intros i c [-> _]%lookup_replicate. apply NoDup_nil_2.
  - by rewrite nodes_empty.
Qed.

Lemma find_fresh capacity k :
  find hash (Build capacity 0 (empty_buckets capacity) : table) k = None.
Proof.
  unfold find, bucket, empty_buckets. simpl.
  destruct (replicate _ _ !! _) as [c|] eqn:Hc; [|done].
  by apply lookup_replicate in Hc as [-> _].
Qed.


Lemma rehash_ok depth (l : list (K * V)) :
  forall acc : table,
    wf hash acc ->
    4 * (_size acc + Z.of_nat (length l)) <= 3 * _capacity acc ->
    exists acc',
      rehash hash depth (Ret acc) l = Ret acc' /\ wf hash acc' /\
      _capacity acc' = _capacity acc /\
      _size acc' <= _size acc + Z.of_nat (length l) /\
      forall k, find hash acc' k =
                match chain_get k (reverse l) with
                | Some v => Some v
                | None => find hash acc k
                end.
Proof.
  induction l as [|[k v] l IH]; intros acc Hwf Hload.
  - exists acc. simpl. split_and!; [done | done | done | lia | done].
  - pose proof (wf_capacity _ _ Hwf) as Hc.
    pose proof (wf_size _ _ Hwf) as Hs.
    simpl in Hload.
    assert (setitem_rec hash depth acc k v = Ret (put hash acc k v)) as Hput.
    { rewrite setitem_rec_wf by done. destruct (find hash acc k); [done |].
      rewrite over_load_false by lia. done. }
    assert (_size (put hash acc k v) <= _size acc + 1) as Hsz.
    { rewrite size_put. destruct (find hash acc k); lia. }
    destruct (IH (put hash acc k v)) as (acc' & Hrun & Hwf' & Hcap & Hsize & Hfind).
    { by apply put_wf. }
    { rewrite capacity_put. lia. }
    exists acc'. unfold rehash in *. simpl. rewrite Hput.
    split; [done |]. split; [done |].
    split; [by rewrite Hcap, capacity_put |].
    split; [simpl; lia |].
    intros k'. rewrite Hfind, reverse_cons, chain_get_app, find_put by done.
    destruct (chain_get k' (reverse l)); [done |]. simpl.
    destruct (decide (k = k')); done.
Qed.

Lemma in_nodes (bs : list (list (K * V))) k :
  k ∈ (nodes bs).*1 -> exists i c, bs !! i = Some c /\ k ∈ c.*1.
Proof.
  unfold nodes. induction bs as [|c bs IH]; simpl.
  - intros Hin. inversion Hin.
  - rewrite fmap_app, elem_of_app. intros [Hin|Hin].
    + exists 0%nat, c. done.
    + destruct (IH Hin) as (i & c' & Hi & Hk). exists (S i), c'. done.
Qed.

(** Walking all chains and keeping the last value seen for a key finds
    the value the table holds for it. *)
Lemma nodes_find m k :
  wf hash m -> chain_get k (reverse (nodes (_buckets m))) = find hash m k.
Proof.
  intros Hwf. pose proof (bucket_lookup m k Hwf) as Hb.
  unfold nodes.
  rewrite <- (take_drop_middle _ _ _ Hb) at 1.
  rewrite concat_app. simpl. rewrite !reverse_app, !chain_get_app.
  assert (chain_get k (reverse (concat (drop (S (slot hash m k)) (_buckets m)))) = None)
    as ->.
  { apply chain_get_None. rewrite fmap_reverse, elem_of_reverse.
    intros (i & c & Hi & Hk)%in_nodes. rewrite lookup_drop in Hi.
    pose proof (wf_slot _ _ Hwf _ _ _ Hi Hk). lia. }
  rewrite chain_get_reverse by (eapply wf_nodup; eauto).
  fold (find hash m k). destruct (find hash m k); [done |].
  apply chain_get_None. rewrite fmap_reverse, elem_of_reverse.
  intros (i & c & Hi & Hk)%in_nodes.
  apply lookup_take_Some in Hi as [Hi Hlt].
  pose proof (wf_slot _ _ Hwf _ _ _ Hi Hk). lia.
Qed.

Lemma resize_ok depth m :
  wf hash m -> 4 * _size m <= 6 * _capacity m ->
  exists m',
    _resize_with (setitem_rec hash depth) m = Ret m' /\
    wf hash m' /\ within_load m' /\ forall k, find hash m' k = find hash m k.
Proof.
  intros Hwf Hload. pose proof (wf_capacity _ _ Hwf) as Hc.
  pose proof (wf_size _ _ Hwf) as Hs.
  destruct (rehash_ok depth (nodes (_buckets m))
              (Build (_capacity m * 2) 0 (empty_buckets (_capacity m * 2))))
    as (m' & Hrun & Hwf' & Hcap & Hsize & Hfind).
  { apply wf_fresh. lia. }
  { simpl. lia. }
  exists m'. split; [exact Hrun |]. split; [done |]. split.
  - unfold within_load. rewrite Hcap. simpl in *. lia.
  - intros k. rewrite Hfind, nodes_find, find_fresh by done.
    by destruct (find hash m k).
Qed.

(** *** The three mutators on a well-formed table *)

Lemma setitem_ok depth m k v :
  wf hash m -> within_load m ->
  exists m',
    setitem_rec hash (S depth) m k v = Ret m' /\ wf hash m' /\ within_load m' /\
    forall k', find hash m' k' = if decide (k = k') then Some v else find hash m k'.
Proof.
  intros Hwf Hload. unfold within_load in Hload.
  pose proof (wf_capacity _ _ Hwf) as Hc.
  pose proof (wf_size _ _ Hwf) as Hs.
  pose proof (put_wf m k v Hwf) as Hwfp.
  pose proof (size_put m k v) as Hsp.
  pose proof (capacity_put m k v) as Hcp.
  rewrite setitem_rec_wf by done.
  destruct (find hash m k) as [v0|] eqn:Hfind.
  - exists (put hash m k v). split; [done |]. split; [done |]. split.
    + unfold within_load. lia.
    + intros k'. by apply find_put.
  - destruct (over_load (_size m + 1) (_capacity m)) eqn:Hover.
    + destruct (resize_ok depth (put hash m k v)) as (m' & Hrun & Hwf' & Hl' & Hf').
      { done. } { lia. }
      exists m'. split; [done |]. split; [done |]. split; [done |].
      intros k'. rewrite Hf'. by apply find_put.
    + exists (put hash m k v). split; [done |]. split; [done |]. split.
      * unfold within_load. apply not_true_iff_false in Hover.
        rewrite over_load_spec in Hover by done. lia.
      * intros k'. by apply find_put.
Qed.

Lemma delitem_absent m k :
  wf hash m -> find hash m k = None -> __delitem__ hash m k = Raise KeyError.
Proof.
  intros Hwf Hfind. unfold __delitem__. rewrite hash_wf by done. simpl.
  rewrite (py_index_nat _ _ _ (bucket_lookup m k Hwf)). simpl.
  apply chain_del_None in Hfind. by rewrite Hfind.
Qed.

Lemma delitem_ok m k v :
  wf hash m -> within_load m -> find hash m k = Some v ->
  exists m',
    __delitem__ hash m k = Ret m' /\ wf hash m' /\ within_load m' /\
    forall k', find hash m' k' = if decide (k = k') then None else find hash m k'.
Proof.
  intros Hwf Hload Hfind. unfold within_load in Hload.
  pose proof (bucket_lookup m k Hwf) as Hb.
  pose proof (wf_nodup _ _ Hwf _ _ Hb) as Hnd.
  unfold __delitem__. rewrite hash_wf by done. simpl.
  rewrite (py_index_nat _ _ _ Hb). simpl.
  destruct (chain_del k (bucket hash m k)) as [c'|] eqn:Hdel.
  2:{ apply chain_del_None in Hdel. unfold find in Hfind. congruence. }
  destruct (chain_del_Some _ _ _ Hdel Hnd) as (Hnd' & Hsub & Hlen & Hget).
  rewrite py_store_nat by (by apply slot_lt). simpl.
  exists (with_chain hash m k c' (_size m - 1)).
  split; [done |]. split; [| split].
  - apply wf_with_chain; [done | | done | lia].
    intros k' Hk'. eapply wf_slot; eauto.
  - unfold within_load. simpl. lia.
  - intros k'. unfold find. rewrite bucket_with_chain by done.
    destruct (decide (slot hash m k = slot hash m k')) as [Heq|Hne].
    + rewrite Hget. unfold bucket. by rewrite Heq.
    + destruct (decide (k = k')) as [->|]; done.
Qed.

Lemma wf_init : wf hash (init : table) /\ within_load (init : table).
Proof. split; [by apply wf_fresh | unfold within_load, init, INITIAL_CAPACITY; cbn; lia]. Qed.

Lemma find_init k : find hash (init : table) k = None.
Proof. apply find_fresh. Qed.

(** *** Sequences of calls *)

Lemma setitem_wf m k v :
  wf hash m -> within_load m ->
  exists m',
    __setitem__ hash m k v = Ret m' /\ wf hash m' /\ within_load m' /\
    forall k', find hash m' k' = if decide (k = k') then Some v else find hash m k'.
Proof. apply (setitem_ok 1%nat). Qed.

Lemma set_all_ok (kvs : list (K * V)) :
  forall m : table,
    wf hash m -> within_load m ->
    exists m',
      set_all hash (Ret m) kvs = Ret m' /\ wf hash m' /\ within_load m' /\
      forall k, find hash m' k =
                match last_set k kvs with
                | Some v => Some v
                | None => find hash m k
                end.
Proof.
  induction kvs as [|[k0 v0] kvs IH]; intros m Hwf Hload.
  - exists m. done.
  - destruct (setitem_wf m k0 v0 Hwf Hload) as (m1 & Hset & Hwf1 & Hload1 & Hfind1).
    destruct (IH m1 Hwf1 Hload1) as (m' & Hrun & Hwf' & Hload' & Hfind').
    exists m'. split.
    { unfold set_all in *. simpl. rewrite Hset. exact Hrun. }
    split; [done |]. split; [done |].
    intros k. rewrite Hfind', Hfind1. simpl.
    destruct (last_set k kvs); [done |]. by destruct (decide (k0 = k)).
Qed.

Lemma last_set_elem (kvs : list (K * V)) k v :
  NoDup kvs.*1 -> (k, v) ∈ kvs -> last_set k kvs = Some v.
Proof.
  induction kvs as [|[k0 v0] kvs IH]; simpl; intros Hnd Hin.
  - inversion Hin.
  - apply NoDup_cons in Hnd as [Hk0 Hnd].
    apply elem_of_cons in Hin as [[= <- <-]|Hin].
    + destruct (last_set k kvs) as [v'|] eqn:Hlast.
      * exfalso. apply Hk0. clear -Hlast.
        induction kvs as [|[k1 v1] kvs IH]; simpl in *; [done |].
        destruct (last_set k kvs); [right; by apply IH |].
        destruct (decide (k1 = k)) as [->|]; [by left | done].
      * by rewrite decide_True.
    + by rewrite (IH Hnd Hin).
Qed.

Lemma after_sim m (d : gmap K V) (o : @op K V) :
  wf hash m -> within_load m -> (forall k, find hash m k = d !! k) ->
  wf hash (after hash m o) /\ within_load (after hash m o) /\
  forall k, find hash (after hash m o) k = dict_after d o !! k.
Proof.
  intros Hwf Hload Hsim. unfold after. destruct o as [k v|k]; simpl.
  - destruct (setitem_wf m k v Hwf Hload) as (m' & -> & Hwf' & Hload' & Hfind').
    split_and!; [done | done |].
    intros k'. rewrite Hfind', lookup_insert, Hsim. done.
  - destruct (find hash m k) as [v|] eqn:Hk.
    + destruct (delitem_ok m k v Hwf Hload Hk) as (m' & -> & Hwf' & Hload' & Hfind').
      split_and!; [done | done |].
      intros k'. rewrite Hfind', lookup_delete, Hsim. done.
    + rewrite delitem_absent by done. split_and!; [done | done |].
      intros k'. rewrite lookup_delete, Hsim.
      destruct (decide (k = k')) as [<-|]; [|done]. by rewrite <- Hsim.
Qed.

Lemma foldl_sim (ops : list (@op K V)) :
  forall m (d : gmap K V),
    wf hash m -> within_load m -> (forall k, find hash m k = d !! k) ->
    wf hash (foldl (after hash) m ops) /\
    within_load (foldl (after hash) m ops) /\
    forall k, find hash (foldl (after hash) m ops) k = foldl dict_after d ops !! k.
Proof.
  induction ops as [|o ops IH]; intros m d Hwf Hload Hsim; simpl; [done |].
  destruct (after_sim m d o Hwf Hload Hsim) as (Hwf' & Hload' & Hsim').
  by apply IH.
Qed.

(** The table after any calls is well formed and holds what a dictionary
    would. *)
Lemma run_sim (ops : list (@op K V)) :
  wf hash (run hash ops) /\ within_load (run hash ops) /\
  forall k, find hash (run hash ops) k = dict_of ops !! k.
Proof.
  apply foldl_sim; [apply wf_init | apply wf_init |].
  intros k. by rewrite find_init, lookup_empty.
Qed.

Lemma dict_of_deleted (ops ops' : list (@op K V)) k :
  forallb (fun o => negb (sets k o)) ops' = true ->
  dict_of (ops ++ DelItem k :: ops') !! k = None.
Proof.
  unfold dict_of. rewrite foldl_app. simpl.
  generalize (foldl dict_after ∅ ops). intros d.
  assert (delete k d !! k = None) as Hnone by apply lookup_delete_eq.
  revert Hnone. generalize (delete k d). clear d.
  induction ops' as [|o ops' IH]; simpl; intros d Hnone Hall; [done |].
  apply andb_true_iff in Hall as [Ho Hall]. apply IH; [|done].
  destruct o as [k' v|k']; simpl in *.
  - apply negb_true_iff, bool_decide_eq_false in Ho.
    by rewrite lookup_insert_ne.
  - rewrite lookup_delete. by destruct (decide (k' = k)).
Qed.

(** On a table reached by any calls, [m[k] = v] returns, and [del m[k]]
    returns or raises [KeyError]. *)
Lemma call_returns (ops : list (@op K V)) (o : @op K V) :
  (exists m', call hash (run hash ops) o = Ret m') \/
  (exists k, o = DelItem k /\ call hash (run hash ops) o = Raise KeyError).
Proof.
  destruct (run_sim ops) as (Hwf & Hload & _). destruct o as [k v|k]; simpl.
  - left. destruct (setitem_wf (run hash ops) k v Hwf Hload) as (m' & Hset & _).
    by exists m'.
  - destruct (find hash (run hash ops) k) as [v|] eqn:Hk.
    + left. destruct (delitem_ok (run hash ops) k v Hwf Hload Hk) as (m' & Hdel & _).
      by exists m'.
    + right. exists k. split; [done |]. by apply delitem_absent.
Qed.

(** C6. KeyedTable resizing is transparent: after any sequence of
    [m[k] = v] on [HashMap()], every call having returned, each key set is
    retrievable with the value last set for it, whatever rehashes happened
    on the way; in particular all keys of a sequence of distinct keys are
    retrievable with their values. *)
Theorem resize_transparent (kvs : list (K * V)) :
  exists m : table,
    set_all hash (Ret init) kvs = Ret m /\
    (forall k v, last_set k kvs = Some v -> __getitem__ hash m k = Ret v) /\
    (NoDup kvs.*1 ->
     forall k v, (k, v) ∈ kvs -> __getitem__ hash m k = Ret v).
Proof.
  destruct (set_all_ok kvs init) as (m & Hrun & Hwf & _ & Hfind);
    [apply wf_init | apply wf_init |].
  exists m. split; [done |].
  assert (forall k v, last_set k kvs = Some v -> __getitem__ hash m k = Ret v)
    as Hget.
  { intros k v Hlast. by rewrite getitem_wf, Hfind, Hlast. }
  split; [done |].
  intros Hnd k v Hin. apply Hget. by apply last_set_elem.
Qed.

(** C8. On the table reached by any sequence of set and delete calls,
    [__contains__] tells whether a dictionary given the same calls holds
    the key, [__getitem__] and [__delitem__] raise [KeyError] exactly when
    it does not and return otherwise; after [del m[k]] the key is not
    reported and [m[k]] raises through any further calls that do not set
    [k]; and [get] always returns. *)
Theorem key_error_iff_absent (ops : list (@op K V)) (k : K) :
  __contains__ hash (run hash ops) k
    = Ret (bool_decide (is_Some (dict_of ops !! k))) /\
  __getitem__ hash (run hash ops) k
    = match dict_of ops !! k with
      | Some v => Ret v
      | None => Raise KeyError
      end /\
  match dict_of ops !! k with
  | Some _ => exists m', __delitem__ hash (run hash ops) k = Ret m'
  | None => __delitem__ hash (run hash ops) k = Raise KeyError
  end /\
  (forall ops',
     forallb (fun o => negb (sets k o)) ops' = true ->
     __contains__ hash (run hash (ops ++ DelItem k :: ops')) k = Ret false /\
     __getitem__ hash (run hash (ops ++ DelItem k :: ops')) k = Raise KeyError) /\
  (forall default,
     get hash (run hash ops) k default
       = Ret (match dict_of ops !! k with Some v => v | None => default end)).
Proof.
  destruct (run_sim ops) as (Hwf & Hload & Hsim).
  assert (__getitem__ hash (run hash ops) k
          = match dict_of ops !! k with
            | Some v => Ret v
            | None => Raise KeyError
            end) as Hget.
  { by rewrite getitem_wf, Hsim. }
  split_and!.
  - by rewrite contains_wf, Hsim.
  - exact Hget.
  - destruct (dict_of ops !! k) as [v|] eqn:Hk.
    + rewrite <- Hsim in Hk.
      destruct (delitem_ok (run hash ops) k v Hwf Hload Hk) as (m' & Hdel & _).
      by exists m'.
    + apply delitem_absent; [done |]. by rewrite Hsim.
  - intros ops' Hops'.
    destruct (run_sim (ops ++ DelItem k :: ops')) as (Hwf' & _ & Hsim').
    rewrite contains_wf, getitem_wf, Hsim', dict_of_deleted by done.
    done.
  - intros default. unfold get. rewrite Hget.
    by destruct (dict_of ops !! k).
Qed.
End Tables.

(** Twenty-five integer keys, Python's [hash] of a small integer being the
    integer: the table has doubled its sixteen buckets twice. *)
Example two_rehashes :
  exists m : HashMap.t (K:=Z) (V:=Z),
    set_all (fun k => k) (Ret init) ((fun k => (k, k * k)) <$> seqZ 0 25) = Ret m /\
    _capacity m = 64 /\ _size m = 25 /\
    __getitem__ (fun k => k) m 7 = Ret 49.
Proof. eexists. split; [vm_compute; reflexivity |]. by vm_compute. Qed.

End HashMapFacts.

(** ** HashMap: sessions, sizes and snapshots *)

Module HashMapSessionFacts.
Import HashMap HashMapModel HashMapFacts HashMapSession.
Section Sessions.
Context {K V : Type} `{Countable K}.
Variable hash : K -> Z.
Implicit Types (m : HashMap.t (K:=K) (V:=V)) (k : K) (v : V).

Lemma doubled_twice m m' :
  doubled m -> _capacity m' = _capacity m * 2 -> doubled m'.
Proof.
  intros [n Hn] Hcap. exists (S n). rewrite Hcap, Hn, Nat2Z.inj_succ, Z.pow_succ_r by lia.
  lia.
Qed.

Lemma setitem_capacity m k v m' :
  wf hash m -> within_load m ->
  __setitem__ hash m k v = Ret m' ->
  _capacity m' = _capacity m \/ _capacity m' = _capacity m * 2.
Proof.
  intros Hwf Hload. unfold within_load in Hload.
  pose proof (wf_capacity _ _ Hwf) as Hc.
  pose proof (wf_size _ _ Hwf) as Hs.
  pose proof (put_wf hash m k v Hwf) as Hwfp.
  pose proof (size_put hash m k v) as Hsp.
  pose proof (capacity_put hash m k v) as Hcp.
  unfold __setitem__, resize_depth. rewrite setitem_rec_wf by done.
  destruct (find hash m k) as [v0|] eqn:Hfind.
  { intros [= <-]. left. done. }
  destruct (over_load (_size m + 1) (_capacity m)) eqn:Hover.
  2:{ intros [= <-]. left. done. }
  destruct (rehash_ok hash 1 (nodes (_buckets (put hash m k v)))
              (Build (_capacity (put hash m k v) * 2) 0
                 (empty_buckets (_capacity (put hash m k v) * 2))))
    as (acc & Hrun & _ & Hcap & _).
  { apply wf_fresh. lia. }
  { pose proof (wf_size _ _ Hwfp). simpl. lia. }
  unfold _resize_with. unfold rehash in Hrun. rewrite Hrun. intros [= <-].
  right. rewrite Hcap. simpl. by rewrite Hcp.
Qed.

Lemma delitem_capacity m k m' :
  __delitem__ hash m k = Ret m' -> _capacity m' = _capacity m.
Proof.
  unfold __delitem__. intros Hdel.
  apply bind_Ret_inv in Hdel as (index & _ & Hdel).
  apply bind_Ret_inv in Hdel as (node & _ & Hdel).
  destruct (chain_del k node); [|done].
  apply bind_Ret_inv in Hdel as (buckets & _ & [= <-]). done.
Qed.

Lemma after_capacity m (o : @op K V) :
  wf hash m -> within_load m ->
  _capacity (after hash m o) = _capacity m \/
  _capacity (after hash m o) = _capacity m * 2.
Proof.
  intros Hwf Hload. unfold after. destruct o as [k v|k]; simpl.
  - destruct (__setitem__ hash m k v) as [m'| |] eqn:Hset; [|by left..].
    by apply (setitem_capacity m k v).
  - destruct (__delitem__ hash m k) as [m'| |] eqn:Hdel; [|by left..].
    left. by apply (delitem_capacity m k).
Qed.

Lemma session_sim (rs : list (@request K V)) :
  wf hash (session hash rs) /\ within_load (session hash rs) /\
  doubled (session hash rs) /\
  forall k, find hash (session hash rs) k = dict_session rs !! k.
Proof.
  induction rs as [|r rs IH] using rev_ind.
  - split_and!; [apply (wf_init hash) | apply (wf_init hash) | by exists 0%nat |].
    intros k. etrans; [apply find_init | symmetry; apply lookup_empty].
  - destruct IH as (Hwf & Hload & Hcap & Hsim).
    unfold session, dict_session in *. rewrite !foldl_snoc.
    destruct r as [o|]; simpl.
    + destruct (after_sim hash _ _ o Hwf Hload Hsim) as (Hwf' & Hload' & Hsim').
      split_and!; [done | done | | done].
      destruct (after_capacity _ o Hwf Hload) as [Heq|Heq].
      * destruct Hcap as [n Hn]. exists n. by rewrite Heq.
      * by eapply doubled_twice.
    + unfold clear. split_and!; [apply (wf_init hash) | apply (wf_init hash) | by exists 0%nat |].
      intros k. etrans; [apply find_init | symmetry; apply lookup_empty].
Qed.

(** *** The nodes of a well-formed table *)

Lemma nodes_nodup_from (f : K -> nat) (bs : list (list (K * V))) :
  forall off : nat,
    (forall i c k, bs !! i = Some c -> k ∈ c.*1 -> f k = (off + i)%nat) ->
    (forall i c, bs !! i = Some c -> NoDup c.*1) ->
    NoDup (nodes bs).*1.
Proof.
  unfold nodes. induction bs as [|c bs IH]; intros off Hslot Hnd; simpl.
  { constructor. }
  rewrite fmap_app. apply NoDup_app. split_and!.
  - by apply (Hnd 0%nat).
  - intros k Hk Hk'. apply in_nodes in Hk' as (i & c' & Hi & Hin).
    pose proof (Hslot 0%nat c k eq_refl Hk).
    pose proof (Hslot (S i) c' k Hi Hin). lia.
  - apply (IH (S off)).
    + intros i c' k Hi Hin. rewrite (Hslot (S i) c' k Hi Hin). lia.
    + intros i c' Hi. by apply (Hnd (S i)).
Qed.

Lemma nodes_nodup m : wf hash m -> NoDup (nodes (_buckets m)).*1.
Proof.
  intros Hwf. apply (nodes_nodup_from (slot hash m) _ 0%nat).
  - intros i c k Hi Hk. by apply (wf_slot _ _ Hwf i c k).
  - intros i c Hi. by apply (wf_nodup _ _ Hwf i c).
Qed.

Lemma elem_of_nodes m k v :
  wf hash m -> (k, v) ∈ nodes (_buckets m) <-> find hash m k = Some v.
Proof.
  intros Hwf. rewrite <- nodes_find by done.
  rewrite chain_get_Some.
  - by rewrite elem_of_reverse.
  - rewrite fmap_reverse, reverse_Permutation. by apply nodes_nodup.
Qed.

Lemma nodes_dict m (d : gmap K V) :
  wf hash m -> (forall k, find hash m k = d !! k) ->
  nodes (_buckets m) ≡ₚ map_to_list d.
Proof.
  intros Hwf Hsim. apply NoDup_Permutation.
  - eapply NoDup_fmap_1. by apply nodes_nodup.
  - apply NoDup_map_to_list.
  - intros [k v]. by rewrite elem_of_nodes, elem_of_map_to_list, Hsim.
Qed.

Lemma keys_items m : keys m = (items m).*1.
Proof.
  unfold keys, items, nodes. induction (_buckets m) as [|c bs IH]; simpl; [done |].
  by rewrite fmap_app, IH.
Qed.

Lemma values_items m : values m = (items m).*2.
Proof.
  unfold values, items, nodes. induction (_buckets m) as [|c bs IH]; simpl; [done |].
  by rewrite fmap_app, IH.
Qed.

(** A session with [clear] behaves as a dictionary. After any sets,
    deletions and [clear()]s on [HashMap()], lookups answer as a
    dictionary given the same requests would, a set never fails, and the
    table keeps at most three entries for four buckets, the buckets being
    sixteen doubled some number of times. *)
Theorem session_is_a_dict (rs : list (@request K V)) (k : K) :
  __getitem__ hash (session hash rs) k
    = match dict_session rs !! k with
      | Some v => Ret v
      | None => Raise KeyError
      end /\
  __contains__ hash (session hash rs) k
    = Ret (bool_decide (is_Some (dict_session rs !! k))) /\
  (forall default,
     get hash (session hash rs) k default
       = Ret (match dict_session rs !! k with Some v => v | None => default end)) /\
  (forall v, exists m', __setitem__ hash (session hash rs) k v = Ret m') /\
  4 * __len__ (session hash rs) <= 3 * _capacity (session hash rs) /\
  exists n : nat, _capacity (session hash rs) = 16 * 2 ^ Z.of_nat n.
Proof.
  destruct (session_sim rs) as (Hwf & Hload & Hcap & Hsim).
  assert (__getitem__ hash (session hash rs) k
          = match dict_session rs !! k with
            | Some v => Ret v
            | None => Raise KeyError
            end) as Hget.
  { by rewrite getitem_wf, Hsim. }
  split_and!; [done | | | | done | done].
  - by rewrite contains_wf, Hsim.
  - intros default. unfold get. rewrite Hget.
    by destruct (dict_session rs !! k).
  - intros v. destruct (setitem_wf hash _ k v Hwf Hload) as (m' & Hset & _).
    by exists m'.
Qed.

(** [len] counts the keys. After any session, [len(m)] is the number of
    keys a dictionary given the same requests holds: setting a key again
    or a failed deletion does not change it, and [clear()] makes it 0. *)
Theorem len_is_number_of_keys (rs : list (@request K V)) :
  __len__ (session hash rs) = Z.of_nat (size (dict_session rs)).
Proof.
  destruct (session_sim rs) as (Hwf & _ & _ & Hsim).
  unfold __len__. rewrite (wf_size _ _ Hwf).
  rewrite (nodes_dict _ _ Hwf Hsim). by rewrite length_map_to_list.
Qed.

(** Snapshots. After any session, [items()] lists each entry of the
    dictionary exactly once, no key twice, and [keys()] and [values()]
    list its keys and values in the same order. *)
Theorem items_list_the_dict (rs : list (@request K V)) :
  items (session hash rs) ≡ₚ map_to_list (dict_session rs) /\
  NoDup (keys (session hash rs)) /\
  keys (session hash rs) = (items (session hash rs)).*1 /\
  values (session hash rs) = (items (session hash rs)).*2 /\
  (forall k, k ∈ keys (session hash rs) <-> is_Some (dict_session rs !! k)) /\
  length (keys (session hash rs)) = Z.to_nat (__len__ (session hash rs)).
Proof.
  destruct (session_sim rs) as (Hwf & _ & _ & Hsim).
  pose proof (nodes_dict _ _ Hwf Hsim) as Hperm.
  split_and!.
  - exact Hperm.
  - rewrite keys_items. by apply nodes_nodup.
  - apply keys_items.
  - apply values_items.
  - intros k. rewrite keys_items. unfold items. rewrite Hperm.
    rewrite list_elem_of_fmap. split.
    + intros ([k' v] & -> & Hin%elem_of_map_to_list). by exists v.
    + intros [v Hv]. exists (k, v). split; [done |]. by apply elem_of_map_to_list.
  - rewrite keys_items, length_fmap. unfold items, __len__.
    rewrite (wf_size _ _ Hwf). lia.
Qed.

End Sessions.
End HashMapSessionFacts.

(** ** MaxHeap *)

Module MaxHeapFacts.
Import MaxHeap MaxHeapModel.
Section Heaps.
Context {A : Type}.
Variable as_priority : A -> Z.

Abbreviation entry := (MaxHeap.entry (P:=Z) (A:=A)).
Abbreviation heap_t := (MaxHeap.t (P:=Z) (A:=A)).
Implicit Types (heap : list entry) (h : heap_t) (e : entry) (i j : nat).

Lemma at_index_Some heap i e : heap !! i = Some e -> at_index heap i = Ret e.
Proof. unfold at_index. by intros ->. Qed.

Lemma at_index_lt heap i :
  (i < length heap)%nat -> exists e, heap !! i = Some e /\ at_index heap i = Ret e.
Proof.
  intros Hlt. destruct (lookup_lt_is_Some_2 _ _ Hlt) as [e He].
  exists e. split; [done | by apply at_index_Some].
Qed.

Lemma prio_Some heap i e : heap !! i = Some e -> prio heap i = priority_of e.
Proof. unfold prio. by intros ->. Qed.

Lemma prio_insert heap k e i :
  (k < length heap)%nat ->
  prio (<[k := e]> heap) i = if decide (i = k) then priority_of e else prio heap i.
Proof.
  intros Hk. unfold prio. destruct (decide (i = k)) as [->|Hne].
  - by rewrite list_lookup_insert_eq.
  - by rewrite list_lookup_insert_ne.
Qed.

(** The array after [_swap(i, j)]. *)
Lemma swap_spec heap i j ei ej :
  heap !! i = Some ei -> heap !! j = Some ej ->
  _swap heap i j = Ret (<[j := ei]> (<[i := ej]> heap)) /\
  <[j := ei]> (<[i := ej]> heap) ≡ₚ heap /\
  length (<[j := ei]> (<[i := ej]> heap)) = length heap /\
  forall k, prio (<[j := ei]> (<[i := ej]> heap)) k =
            if decide (k = j) then priority_of ei
            else if decide (k = i) then priority_of ej
            else prio heap k.
Proof.
  intros Hi Hj. split_and!.
  - unfold _swap. by rewrite (at_index_Some _ _ _ Hj), (at_index_Some _ _ _ Hi).
  - by apply Permutation_insert_swap.
  - by rewrite !length_insert.
  - intros k. rewrite !prio_insert; [done | |].
    + eapply lookup_lt_Some; eauto.
    + rewrite length_insert. eapply lookup_lt_Some; eauto.
Qed.

Lemma parent_lt i : (0 < i)%nat -> (parent i < i)%nat.
Proof. unfold parent. intros Hi. apply Nat.Div0.div_lt_upper_bound. lia. Qed.

Lemma parent_child i j :
  (0 < i)%nat -> parent i = j <-> i = (2 * j + 1)%nat \/ i = (2 * j + 2)%nat.
Proof.
  unfold parent. intros Hi.
  pose proof (Nat.div_mod_eq (i - 1) 2) as Hdm.
  pose proof (Nat.mod_upper_bound (i - 1) 2). lia.
Qed.

(** *** [_heapify_up] *)

Lemma heapify_up_loop_S fuel heap index :
  heapify_up_loop Z.gtb (S fuel) heap index =
    if (0 <? index)%nat then
      ei ← at_index heap index;
      ep ← at_index heap (parent index);
      if priority_of ei >? priority_of ep then
        heap ← _swap heap index (parent index);
        heapify_up_loop Z.gtb fuel heap (parent index)
      else Ret heap
    else Ret heap.
Proof. reflexivity. Qed.

Lemma heapify_up_loop_ok fuel :
  forall heap j,
    (j < fuel)%nat -> (j < length heap)%nat -> ordered_but_up heap j ->
    exists heap',
      heapify_up_loop Z.gtb fuel heap j = Ret heap' /\
      heap_ordered heap' /\ heap' ≡ₚ heap.
Proof.
  induction fuel as [|fuel IH]; intros heap j Hfuel Hlen [Hup1 Hup2]; [lia |].
  rewrite heapify_up_loop_S. destruct (Nat.ltb_spec 0 j) as [Hj|Hj].
  2:{ exists heap. split_and!; [done | | done].
      intros i Hi. apply Hup1; lia. }
  pose proof (parent_lt j Hj) as Hp.
  destruct (at_index_lt heap j Hlen) as (ej & Hej & ->).
  destruct (at_index_lt heap (parent j)) as (ep & Hep & ->); [lia |].
  rewrite !bind_Ret. pose proof (prio_Some _ _ _ Hej) as Hpj.
  pose proof (prio_Some _ _ _ Hep) as Hpp.
  destruct (Z.gtb_spec (priority_of ej) (priority_of ep)) as [Hgt|Hle].
  - destruct (swap_spec heap j (parent j) ej ep Hej Hep)
      as (-> & Hperm & Hlen' & Hprio).
    rewrite bind_Ret.
    destruct (IH (<[parent j := ej]> (<[j := ep]> heap)) (parent j))
      as (heap' & Hrun & Hord & Hperm'); [lia | lia | |].
    2:{ exists heap'. split_and!; [done | done | by rewrite Hperm']. }
    split; intros i Hi; rewrite Hlen' in Hi; rewrite !Hprio.
    + intros Hne. rewrite decide_False by done.
      destruct (decide (i = j)) as [->|Hij].
      * rewrite decide_True by done. lia.
      * destruct (decide (parent i = parent j)) as [Hpar|Hpar].
        { pose proof (Hup1 i ltac:(lia) Hij) as H1. rewrite Hpar in H1. lia. }
        destruct (decide (parent i = j)) as [Hpij|Hpij]; [|by apply Hup1].
        rewrite <- Hpp. apply Hup2; [lia | done | done].
    + intros Hpi Hpos.
      pose proof (parent_lt (parent j) Hpos).
      rewrite (decide_False (P:=parent (parent j) = parent j)) by lia.
      rewrite (decide_False (P:=parent (parent j) = j)) by lia.
      assert (i <> parent j) by (pose proof (parent_lt i); lia).
      rewrite (decide_False (P:=i = parent j)) by done.
      pose proof (Hup1 (parent j) ltac:(lia) ltac:(lia)) as H1.
      destruct (decide (i = j)) as [->|Hij]; [lia |].
      pose proof (Hup1 i ltac:(lia) Hij) as H2. rewrite Hpi in H2. lia.
  - exists heap. split_and!; [done | | done].
    intros i Hi. destruct (decide (i = j)) as [->|Hij]; [lia |].
    by apply Hup1.
Qed.

Lemma heapify_up_ok heap j :
  (j < length heap)%nat -> ordered_but_up heap j ->
  exists heap',
    _heapify_up Z.gtb heap j = Ret heap' /\ heap_ordered heap' /\ heap' ≡ₚ heap.
Proof. intros. apply heapify_up_loop_ok; [lia | done | done]. Qed.

(** *** [_heapify_down] *)

Lemma pick_larger_spec heap child largest :
  (largest < length heap)%nat ->
  pick_larger Z.gtb heap (length heap) child largest =
    Ret (if (child <? length heap)%nat && (prio heap child >? prio heap largest)
         then child else largest).
Proof.
  intros Hl. unfold pick_larger.
  destruct (Nat.ltb_spec child (length heap)) as [Hc|Hc]; [|done].
  destruct (at_index_lt heap child Hc) as (ec & Hec & ->).
  destruct (at_index_lt heap largest Hl) as (el & Hel & ->).
  rewrite !bind_Ret, (prio_Some _ _ _ Hec), (prio_Some _ _ _ Hel). done.
Qed.

Lemma pick_larger_ge heap child largest :
  (length heap <= child)%nat ->
  pick_larger Z.gtb heap (length heap) child largest = Ret largest.
Proof.
  intros Hc. unfold pick_larger.
  by destruct (Nat.ltb_spec child (length heap)); [lia |].
Qed.

Lemma heapify_down_loop_S fuel heap size index :
  heapify_down_loop Z.gtb (S fuel) heap size index =
    (largest ← pick_larger Z.gtb heap size (2 * index + 1) index;
     largest ← pick_larger Z.gtb heap size (2 * index + 2) largest;
     if (largest =? index)%nat then Ret heap
     else
       heap ← _swap heap index largest;
       heapify_down_loop Z.gtb fuel heap size largest).
Proof. reflexivity. Qed.

(** Where the loop of [_heapify_down] stops. *)
Lemma ordered_down_stop heap j :
  ordered_but_down heap j ->
  (forall i, (0 < i < length heap)%nat -> parent i = j ->
             prio heap i <= prio heap j) ->
  heap_ordered heap.
Proof.
  intros [Hd1 Hd2] Hch i Hi.
  destruct (decide (parent i = j)) as [Hp|Hp].
  - rewrite Hp. by apply Hch.
  - by apply Hd1.
Qed.

(** One step of the loop of [_heapify_down]: the larger child [g] goes up. *)
Lemma ordered_down_step heap j g ej eg :
  ordered_but_down heap j ->
  heap !! j = Some ej -> heap !! g = Some eg ->
  (0 < g)%nat -> parent g = j ->
  priority_of ej < priority_of eg ->
  (forall i, (0 < i < length heap)%nat -> parent i = j ->
             prio heap i <= priority_of eg) ->
  ordered_but_down (<[g := ej]> (<[j := eg]> heap)) g.
Proof.
  intros [Hd1 Hd2] Hej Heg Hg Hpg Hlt Hch.
  destruct (swap_spec heap j g ej eg Hej Heg) as (_ & _ & Hlen & Hprio).
  pose proof (parent_lt g Hg) as Hjg. rewrite Hpg in Hjg.
  pose proof (prio_Some _ _ _ Hej) as Hpj.
  pose proof (prio_Some _ _ _ Heg) as Hpe.
  split; intros i Hi; rewrite Hlen in Hi; rewrite !Hprio.
  - intros Hne. pose proof (parent_lt i ltac:(lia)) as Hpi.
    destruct (decide (i = g)) as [->|Hig].
    + rewrite Hpg, (decide_False (P:=j = g)), (decide_True (P:=j = j)) by lia.
      lia.
    + rewrite (decide_False (P:=parent i = g)) by done.
      destruct (decide (i = j)) as [->|Hij].
      * rewrite (decide_False (P:=parent j = j)) by lia.
        rewrite <- Hpe.
        apply (Hd2 g); [split; [done | by eapply lookup_lt_Some] | done | lia].
      * destruct (decide (parent i = j)) as [Hpij|Hpij]; [by apply Hch |].
        by apply Hd1.
  - intros Hpi _. rewrite Hpg.
    rewrite (decide_False (P:=j = g)), (decide_True (P:=j = j)) by lia.
    pose proof (parent_lt i ltac:(lia)).
    rewrite (decide_False (P:=i = g)), (decide_False (P:=i = j)) by lia.
    rewrite <- Hpe, <- Hpi. apply Hd1; lia.
Qed.

Lemma heapify_down_loop_ok fuel :
  forall heap j,
    (length heap - j < fuel)%nat -> ordered_but_down heap j ->
    exists heap',
      heapify_down_loop Z.gtb fuel heap (length heap) j = Ret heap' /\
      heap_ordered heap' /\ heap' ≡ₚ heap.
Proof.
  induction fuel as [|fuel IH]; intros heap j Hfuel Hdown; [lia |].
  rewrite heapify_down_loop_S.
  destruct (decide (j < length heap)%nat) as [Hj|Hj].
  2:{ rewrite pick_larger_ge, bind_Ret by lia.
      rewrite pick_larger_ge, bind_Ret by lia.
      rewrite Nat.eqb_refl. exists heap. split_and!; [done | | done].
      apply (ordered_down_stop heap j Hdown).
      intros i Hi Hp. pose proof (parent_lt i). lia. }
  rewrite pick_larger_spec, bind_Ret by done.
  set (g1 := if (2 * j + 1 <? length heap)%nat
                && (prio heap (2 * j + 1) >? prio heap j)
             then (2 * j + 1)%nat else j).
  assert ((g1 < length heap)%nat /\ prio heap j <= prio heap g1 /\
          (g1 = j \/ g1 = (2 * j + 1)%nat) /\
          ((2 * j + 1 < length heap)%nat -> prio heap (2 * j + 1) <= prio heap g1))
    as (Hg1 & Hg1j & Hg1c & Hg1l).
  { unfold g1. destruct (Nat.ltb_spec (2 * j + 1) (length heap));
      destruct (Z.gtb_spec (prio heap (2 * j + 1)) (prio heap j)); cbn [andb];
      split_and!; try lia; auto. }
  rewrite pick_larger_spec, bind_Ret by done.
  set (g := if (2 * j + 2 <? length heap)%nat
               && (prio heap (2 * j + 2) >? prio heap g1)
            then (2 * j + 2)%nat else g1).
  assert ((g < length heap)%nat /\ prio heap g1 <= prio heap g /\
          (g = g1 \/ g = (2 * j + 2)%nat) /\
          ((2 * j + 2 < length heap)%nat -> prio heap (2 * j + 2) <= prio heap g))
    as (Hg & Hgg1 & Hgc & Hgr).
  { unfold g. destruct (Nat.ltb_spec (2 * j + 2) (length heap));
      destruct (Z.gtb_spec (prio heap (2 * j + 2)) (prio heap g1)); cbn [andb];
      split_and!; try lia; auto. }
  assert (forall i, (0 < i < length heap)%nat -> parent i = j ->
                    prio heap i <= prio heap g) as Hch.
  { intros i Hi [->| ->]%parent_child; [| | lia].
    - specialize (Hg1l ltac:(lia)). lia.
    - apply Hgr. lia. }
  destruct (Nat.eqb_spec g j) as [Hgj|Hgj].
  - exists heap. split_and!; [done | | done].
    apply (ordered_down_stop heap j Hdown).
    intros i Hi Hp. pose proof (Hch i Hi Hp) as Hle. by rewrite Hgj in Hle.
  - assert ((0 < g)%nat /\ parent g = j /\ prio heap j < prio heap g)
      as (Hg0 & Hpg & Hlt).
    { assert (g = (2 * j + 1)%nat \/ g = (2 * j + 2)%nat) as Hc by lia.
      split; [lia |]. split; [apply parent_child; lia |].
      unfold g, g1 in *.
      destruct (Nat.ltb_spec (2 * j + 1) (length heap));
        destruct (Z.gtb_spec (prio heap (2 * j + 1)) (prio heap j));
        destruct (Nat.ltb_spec (2 * j + 2) (length heap)); cbn [andb] in *;
        try lia;
        destruct (Z.gtb_spec (prio heap (2 * j + 2)) (prio heap j));
        cbn [andb] in *; try lia;
        destruct (Z.gtb_spec (prio heap (2 * j + 2)) (prio heap (2 * j + 1)));
        cbn [andb] in *; lia. }
    destruct (lookup_lt_is_Some_2 _ _ Hj) as [ej Hej].
    destruct (lookup_lt_is_Some_2 _ _ Hg) as [eg Heg].
    rewrite (prio_Some _ _ _ Hej), (prio_Some _ _ _ Heg) in Hlt.
    destruct (swap_spec heap j g ej eg Hej Heg) as (-> & Hperm & Hlen & _).
    rewrite bind_Ret.
    destruct (IH (<[g := ej]> (<[j := eg]> heap)) g)
      as (heap' & Hrun & Hord & Hperm').
    { rewrite Hlen. lia. }
    { apply ordered_down_step; try done.
      intros i Hi Hp. rewrite <- (prio_Some _ _ _ Heg). by apply Hch. }
    rewrite Hlen in Hrun.
    exists heap'. split_and!; [done | done | by rewrite Hperm'].
Qed.

Lemma heapify_down_ok heap j :
  ordered_but_down heap j ->
  exists heap',
    _heapify_down Z.gtb heap j = Ret heap' /\ heap_ordered heap' /\ heap' ≡ₚ heap.
Proof. intros. apply heapify_down_loop_ok; [lia | done]. Qed.

(** *** [insert] and [extract_max] *)

Lemma prio_app_l heap (l : list entry) i :
  (i < length heap)%nat -> prio (heap ++ l) i = prio heap i.
Proof. intros Hi. unfold prio. by rewrite lookup_app_l. Qed.

Lemma prio_take heap k i :
  (i < k)%nat -> prio (take k heap) i = prio heap i.
Proof. intros Hi. unfold prio. by rewrite lookup_take_lt. Qed.

Lemma heap_ordered_nil : heap_ordered ([] : list entry).
Proof. intros i Hi. simpl in Hi. lia. Qed.

Lemma insert_ok h item priority :
  heap_ordered (_heap h) ->
  exists heap',
    insert Z.gtb as_priority h item priority
      = Ret (Build heap' (_counter h + 1)) /\
    heap_ordered heap' /\
    heap' ≡ₚ (match priority with
              | None => as_priority item
              | Some priority => priority
              end, _counter h, item) :: _heap h.
Proof.
  intros Hord. unfold insert.
  set (e := (match priority with
             | None => as_priority item
             | Some priority => priority
             end, _counter h, item)).
  destruct (heapify_up_ok (_heap h ++ [e]) (length (_heap h ++ [e]) - 1))
    as (heap' & -> & Hord' & Hperm).
  - rewrite length_app. simpl. lia.
  - rewrite length_app. simpl.
    replace (length (_heap h) + 1 - 1)%nat with (length (_heap h)) by lia.
    split; intros i Hi; rewrite length_app in Hi; simpl in Hi.
    + intros Hne. pose proof (parent_lt i ltac:(lia)).
      rewrite !prio_app_l by lia. apply Hord. lia.
    + intros Hp. pose proof (parent_lt i ltac:(lia)). lia.
  - exists heap'. split_and!; [done | done |].
    rewrite Hperm. by rewrite <- Permutation_cons_append.
Qed.

Lemma pop_spec heap e :
  last heap = Some e -> pop heap = Ret (e, take (length heap - 1) heap).
Proof. unfold pop. by intros ->. Qed.

Lemma take_last heap e :
  last heap = Some e -> heap = take (length heap - 1) heap ++ [e].
Proof.
  intros [l' ->]%last_Some. rewrite length_app. simpl.
  replace (length l' + 1 - 1)%nat with (length l') by lia.
  by rewrite take_app_length.
Qed.

Lemma down_or_empty heap :
  ordered_but_down heap 0 ->
  exists heap',
    match heap with
    | [] => Ret heap
    | _ :: _ => _heapify_down Z.gtb heap 0
    end = Ret heap' /\ heap_ordered heap' /\ heap' ≡ₚ heap.
Proof.
  intros Hdown. destruct heap as [|e heap0] eqn:Hheap.
  - exists []. split_and!; [done | apply heap_ordered_nil | done].
  - by apply heapify_down_ok.
Qed.

Lemma extract_max_ok h e0 rest :
  _heap h = e0 :: rest -> heap_ordered (_heap h) ->
  exists heap',
    extract_max Z.gtb h = Ret (item_of e0, Build heap' (_counter h)) /\
    heap_ordered heap' /\ _heap h ≡ₚ e0 :: heap'.
Proof.
  intros Hheap Hord. unfold extract_max. rewrite Hheap. rewrite <- Hheap.
  set (n := length (_heap h)).
  assert (0 < n)%nat as Hn by (unfold n; rewrite Hheap; simpl; lia).
  assert (_heap h !! 0%nat = Some e0) as H0 by (by rewrite Hheap).
  destruct (lookup_lt_is_Some_2 (_heap h) (n - 1)) as [el Hel]; [lia |].
  destruct (swap_spec (_heap h) 0 (n - 1) e0 el H0 Hel)
    as (-> & Hperm & Hlen & _).
  rewrite bind_Ret.
  set (heap1 := <[(n - 1)%nat := e0]> (<[0%nat := el]> (_heap h))) in *.
  assert (last heap1 = Some e0) as Hlast.
  { rewrite last_lookup, Hlen. unfold heap1.
    replace (pred (length (_heap h))) with (n - 1)%nat by (unfold n; lia).
    apply list_lookup_insert_eq. rewrite length_insert. fold n. lia. }
  rewrite (pop_spec _ _ Hlast), bind_Ret, Hlen. fold n.
  set (heap2 := take (n - 1) heap1).
  assert (_heap h ≡ₚ e0 :: heap2) as Hperm2.
  { rewrite <- Hperm. rewrite (take_last _ _ Hlast) at 1.
    rewrite Hlen. fold n. fold heap2. by rewrite <- Permutation_cons_append. }
  assert (length heap2 = (n - 1)%nat) as Hlen2.
  { unfold heap2. rewrite length_take, Hlen. fold n. lia. }
  assert (forall i, (0 < i < n - 1)%nat -> prio heap2 i = prio (_heap h) i)
    as Hprio.
  { intros i Hi. unfold heap2, heap1. rewrite prio_take by lia.
    rewrite !prio_insert; [| fold n; lia | rewrite length_insert; fold n; lia].
    rewrite !decide_False by lia. done. }
  assert (ordered_but_down heap2 0) as Hdown.
  { split; intros i Hi; rewrite Hlen2 in Hi; [|lia].
    intros Hp. pose proof (parent_lt i ltac:(lia)).
    rewrite !Hprio by lia. apply Hord. fold n. lia. }
  destruct (down_or_empty heap2 Hdown) as (heap' & Hrun & Hord' & Hperm').
  exists heap'. rewrite Hrun, !bind_Ret.
  split_and!; [done | done |].
  by rewrite Hperm2, Hperm'.
Qed.

Lemma extract_max_empty h :
  _heap h = [] -> extract_max Z.gtb h = Raise IndexError.
Proof. unfold extract_max. by intros ->. Qed.

(** The root of an ordered heap has the highest priority. *)
Lemma root_max heap :
  heap_ordered heap ->
  forall i, (i < length heap)%nat -> prio heap i <= prio heap 0.
Proof.
  intros Hord i. induction i as [i IH] using lt_wf_ind. intros Hi.
  destruct (decide (i = 0)%nat) as [->|Hne]; [lia |].
  pose proof (parent_lt i ltac:(lia)) as Hp.
  pose proof (Hord i ltac:(lia)). pose proof (IH (parent i) Hp ltac:(lia)).
  lia.
Qed.

Lemma root_max_elem heap e0 rest e :
  heap = e0 :: rest -> heap_ordered heap -> e ∈ heap ->
  priority_of e <= priority_of e0.
Proof.
  intros -> Hord [i Hi]%list_elem_of_lookup.
  pose proof (root_max _ Hord i (lookup_lt_Some _ _ _ Hi)) as Hle.
  by rewrite (prio_Some _ _ _ Hi) in Hle.
Qed.

Lemma extract_times_ok count :
  forall h result,
    heap_ordered (_heap h) -> (count <= length (_heap h))%nat ->
    exists es heap',
      extract_times Z.gtb count h result
        = Ret (result ++ map item_of es, Build heap' (_counter h)) /\
      length es = count /\
      _heap h ≡ₚ es ++ heap' /\
      heap_ordered heap' /\
      by_priority es /\
      forall e e', e ∈ es -> e' ∈ heap' -> priority_of e' <= priority_of e.
Proof.
  induction count as [|count IH]; intros h result Hord Hcount.
  - exists [], (_heap h). simpl. rewrite app_nil_r. destruct h.
    split_and!; [done | done | done | done | constructor |].
    intros e e' He. inversion He.
  - destruct (_heap h) as [|e0 rest] eqn:Hheap; [simpl in Hcount; lia |].
    rewrite <- Hheap in Hord.
    destruct (extract_max_ok h e0 rest Hheap Hord) as (heap1 & Hex & Hord1 & Hperm1).
    rewrite Hheap in Hperm1.
    destruct (IH (Build heap1 (_counter h)) (result ++ [item_of e0]))
      as (es & heap' & Hrun & Hlen & Hperm & Hord' & Hsorted & Hbelow).
    { done. }
    { simpl. apply Permutation_length in Hperm1. simpl in *. lia. }
    simpl in Hperm, Hrun.
    assert (forall e, e ∈ heap1 -> priority_of e <= priority_of e0) as Hroot.
    { intros e He. apply (root_max_elem (_heap h) e0 rest); [done | done |].
      rewrite Hheap, Hperm1. by right. }
    exists (e0 :: es), heap'. split_and!.
    + simpl. rewrite Hex, bind_Ret. simpl. rewrite Hrun.
      by rewrite <- app_assoc.
    + simpl. by rewrite Hlen.
    + by rewrite Hperm1, Hperm.
    + done.
    + constructor; [done |]. apply Forall_forall. intros e He.
      apply Hroot. rewrite Hperm. apply elem_of_app. by left.
    + intros e e' [->|He]%elem_of_cons He'.
      * apply Hroot. rewrite Hperm. apply elem_of_app. by right.
      * by apply Hbelow.
Qed.

(** *** Sequences of calls *)

Lemma after_ordered h (o : @op A) :
  heap_ordered (_heap h) -> heap_ordered (_heap (after as_priority h o)).
Proof.
  intros Hord. unfold after. destruct o as [item priority|]; simpl.
  - by destruct (insert_ok h item priority Hord) as (heap' & -> & Hord' & _).
  - destruct (_heap h) as [|e0 rest] eqn:Hheap.
    + rewrite extract_max_empty by done. simpl. rewrite Hheap.
      apply heap_ordered_nil.
    + rewrite <- Hheap in Hord.
      destruct (extract_max_ok h e0 rest Hheap Hord) as (heap' & -> & Hord' & _).
      done.
Qed.

Lemma run_ordered (ops : list (@op A)) : heap_ordered (_heap (run as_priority ops)).
Proof.
  unfold run. assert (heap_ordered (_heap (init : heap_t))) as Hinit
    by apply heap_ordered_nil.
  revert Hinit. generalize (init : heap_t).
  induction ops as [|o ops IH]; intros h Hord; simpl; [done |].
  apply IH. by apply after_ordered.
Qed.

(** C7. Between the calls of any sequence of [insert] and [extract_max] on
    [MaxHeap()] the array satisfies the max-heap property: the priority at
    every position [i > 0] is at most the priority at [(i - 1) // 2]; every
    [insert] returns, and [extract_max] returns unless the heap is empty.
    The insertion number is no secondary key: among equal priorities a
    parent may have been inserted after its child, or before it. *)
Theorem heap_property_invariant (ops : list (@op A)) :
  (forall i e p,
     (0 < i)%nat ->
     _heap (run as_priority ops) !! i = Some e ->
     _heap (run as_priority ops) !! ((i - 1) / 2)%nat = Some p ->
     priority_of e <= priority_of p) /\
  (forall item priority,
     exists h', call as_priority (run as_priority ops) (Insert item priority) = Ret h') /\
  match _heap (run as_priority ops) with
  | [] => call as_priority (run as_priority ops) ExtractMax = Raise IndexError
  | _ :: _ => exists h', call as_priority (run as_priority ops) ExtractMax = Ret h'
  end /\
  (forall x : A,
     let later_above :=
       run as_priority [Insert x (Some 1); Insert x (Some 1);
                        Insert x (Some 1); ExtractMax] in
     let earlier_above :=
       run as_priority [Insert x (Some 1); Insert x (Some 1)] in
     _heap later_above = [(1, 2, x); (1, 1, x)] /\
     _heap earlier_above = [(1, 0, x); (1, 1, x)]).
Proof.
  pose proof (run_ordered ops) as Hord. split_and!.
  - intros i e p Hi He Hp.
    pose proof (Hord i (conj Hi (lookup_lt_Some _ _ _ He))) as Hle.
    unfold parent in Hle.
    by rewrite (prio_Some _ _ _ He), (prio_Some _ _ _ Hp) in Hle.
  - intros item priority. simpl.
    destruct (insert_ok (run as_priority ops) item priority Hord)
      as (heap' & -> & _). by eexists.
  - simpl. destruct (_heap (run as_priority ops)) as [|e0 rest] eqn:Hheap.
    + by rewrite extract_max_empty.
    + rewrite <- Hheap in Hord.
      destruct (extract_max_ok _ e0 rest Hheap Hord) as (heap' & -> & _).
      by eexists.
  - intros x. split; reflexivity.
Qed.

(** *** Filling a heap and emptying it *)

Lemma insert_fold_ok {X} (arg : X -> A * option Z) (xs : list X) :
  forall h,
    heap_ordered (_heap h) ->
    exists h',
      foldl (fun acc x => h ← acc; insert Z.gtb as_priority h (arg x).1 (arg x).2)
            (Ret h) xs = Ret h' /\
      heap_ordered (_heap h') /\
      pair_of <$> _heap h' ≡ₚ
        ((fun x => (filed as_priority (arg x).1 (arg x).2, (arg x).1)) <$> xs)
        ++ (pair_of <$> _heap h).
Proof.
  induction xs as [|x xs IH]; intros h Hord.
  - exists h. done.
  - destruct (insert_ok h (arg x).1 (arg x).2 Hord) as (heap1 & Hins & Hord1 & Hperm1).
    destruct (IH (Build heap1 (_counter h + 1)) Hord1) as (h' & Hrun & Hord' & Hperm').
    exists h'. simpl. rewrite Hins. split_and!; [done | done |].
    rewrite Hperm'. simpl. rewrite Hperm1. simpl.
    by rewrite <- Permutation_middle.
Qed.

Lemma drain_ok h :
  heap_ordered (_heap h) ->
  exists es,
    drain h = Ret (item_of <$> es) /\ es ≡ₚ _heap h /\ by_priority es.
Proof.
  intros Hord. unfold drain.
  destruct (extract_times_ok (length (_heap h)) h [] Hord)
    as (es & heap' & -> & Hlen & Hperm & _ & Hsorted & _); [done |].
  assert (heap' = []) as ->.
  { apply Permutation_length in Hperm. rewrite length_app in Hperm.
    destruct heap'; [done | simpl in Hperm; lia]. }
  rewrite app_nil_r in Hperm. exists es. done.
Qed.

(** After any inserts, emptying the heap gives the items in an order of
    non-increasing priority. *)
Lemma extraction_non_increasing (pairs : list (Z * A)) :
  exists h es,
    insert_all as_priority pairs = Ret h /\
    drain h = Ret (item_of <$> es) /\
    pair_of <$> es ≡ₚ pairs /\
    by_priority es.
Proof.
  destruct (insert_fold_ok (fun pair => (pair.2, Some pair.1)) pairs init)
    as (h & Hrun & Hord & Hperm); [apply heap_ordered_nil |].
  destruct (drain_ok h Hord) as (es & Hdrain & Hes & Hsorted).
  exists h, es. split_and!; [exact Hrun | done | | done].
  rewrite Hes, Hperm. simpl. rewrite app_nil_r.
  clear. induction pairs as [|[p x] pairs IH]; simpl; [done |]. by rewrite IH.
Qed.

End Heaps.

(** *** Bare values, and ties *)

Lemma sorted_items {A} (item_as_priority : A -> Z) (es : list (Z * Z * A)) :
  by_priority es ->
  (forall e, e ∈ es -> priority_of e = item_as_priority (item_of e)) ->
  StronglySorted (fun a b => item_as_priority b <= item_as_priority a)
                 (item_of <$> es).
Proof.
  intros Hsorted. induction Hsorted as [|e es Hsorted IH Hall]; intros Heq.
  - constructor.
  - simpl. constructor.
    + apply IH. intros e' He'. apply Heq. by right.
    + apply Forall_fmap, Forall_forall. intros e' He'. simpl.
      rewrite Forall_forall in Hall. specialize (Hall e' He').
      rewrite <- (Heq e) by (by left). rewrite <- (Heq e') by (by right).
      done.
Qed.

(** C10. [insert(item)] without a priority, or with [None], files the item
    under itself, so a heap filled with bare numbers gives them back, when
    emptied, in non-increasing order. *)
Theorem bare_items_are_priorities :
  (forall (h : MaxHeap.t (P:=Z) (A:=Z)) (item : Z),
     insert Z.gtb (fun item => item) h item None
       = insert Z.gtb (fun item => item) h item (Some item)) /\
  (forall items : list Z,
     exists h out,
       insert_bare (fun item => item) items = Ret h /\
       drain h = Ret out /\
       out ≡ₚ items /\
       StronglySorted (fun a b => b <= a) out).
Proof.
  split; [done |]. intros items.
  destruct (insert_fold_ok (fun item : Z => item) (fun item => (item, None))
              items init) as (h & Hrun & Hord & Hperm);
    [apply heap_ordered_nil |].
  destruct (drain_ok h Hord) as (es & Hdrain & Hes & Hsorted).
  simpl in Hperm. rewrite app_nil_r in Hperm.
  assert (pair_of <$> es ≡ₚ (fun x : Z => (x, x)) <$> items) as Hpairs
    by (by rewrite Hes).
  exists h, (item_of <$> es). split_and!; [exact Hrun | done | |].
  - transitivity (snd <$> (pair_of <$> es)).
    { by rewrite <- list_fmap_compose. }
    rewrite Hpairs, <- list_fmap_compose. by rewrite list_fmap_id.
  - apply (sorted_items (fun item => item)); [done |].
    intros e He.
    assert (pair_of e ∈ (fun x : Z => (x, x)) <$> items) as Hin.
    { rewrite <- Hpairs. by apply list_elem_of_fmap_2. }
    apply list_elem_of_fmap in Hin as (x & Hx & _).
    unfold pair_of in Hx. by injection Hx as -> ->.
Qed.

(** C2, on the failing input: three items inserted under one priority come
    out first, third, second, not in the order of insertion. *)
Theorem equal_priorities_not_fifo :
  (h ← insert_all (fun _ : string => 0)
         [(1, "a"); (1, "b"); (1, "c")]%string;
   drain h)
  = Ret ["a"; "c"; "b"]%string.
Proof. reflexivity. Qed.

(** The example of the specification: priorities 5, 9, 1, 9. *)
Example ties_of_the_specification :
  (h ← insert_all (fun _ : string => 0)
         [(5, "a"); (9, "b"); (1, "c"); (9, "d")]%string;
   drain h)
  = Ret ["b"; "d"; "a"; "c"]%string.
Proof. reflexivity. Qed.

(** [topN] of the specification. *)
Example nlargest_of_the_specification :
  nlargest Z.gtb (fun item => item) 3 [3; 1; 4; 1; 5; 9; 2; 6] None
  = Ret [9; 6; 5].
Proof. reflexivity. Qed.

End MaxHeapFacts.

(** ** MaxHeap: [peek], sizes and [nlargest] *)

Module MaxHeapCallsFacts.
Import MaxHeap MaxHeapModel MaxHeapFacts MaxHeapCalls.
Section Calls.
Context {A : Type}.
Variable as_priority : A -> Z.
Implicit Types (h : MaxHeap.t (P:=Z) (A:=A)).

Lemma after_spec h (o : @op A) :
  heap_ordered (_heap h) ->
  heap_ordered (_heap (after as_priority h o)) /\
  match o with
  | Insert item priority =>
      _counter (after as_priority h o) = _counter h + 1 /\
      _heap (after as_priority h o) ≡ₚ
        (filed as_priority item priority, _counter h, item) :: _heap h
  | ExtractMax =>
      _counter (after as_priority h o) = _counter h /\
      match _heap h with
      | [] => _heap (after as_priority h o) = []
      | e0 :: _ => _heap h ≡ₚ e0 :: _heap (after as_priority h o)
      end
  end.
Proof.
  intros Hord. split; [by apply after_ordered |].
  unfold after. destruct o as [item priority|]; simpl.
  - by destruct (insert_ok as_priority h item priority Hord) as (heap' & -> & _ & Hperm).
  - destruct (_heap h) as [|e0 rest] eqn:Hheap.
    + rewrite extract_max_empty by done. simpl. by rewrite Hheap.
    + rewrite <- Hheap in Hord.
      destruct (extract_max_ok h e0 rest Hheap Hord) as (heap' & -> & _ & Hperm).
      simpl. by rewrite <- Hheap.
Qed.

Lemma after_stamped h (o : @op A) :
  heap_ordered (_heap h) -> stamped h -> stamped (after as_priority h o).
Proof.
  intros Hord (Hpos & Hnd & Hall). destruct (after_spec h o Hord) as [_ Hspec].
  unfold stamped. destruct o as [item priority|].
  - destruct Hspec as [-> Hperm]. rewrite Hperm. simpl. split_and!.
    + lia.
    + apply NoDup_cons. split; [|done].
      intros (e & Heq & Hin)%list_elem_of_fmap. rewrite Forall_forall in Hall.
      specialize (Hall e Hin). unfold order_of in *. simpl in *.
      rewrite <- Heq in Hall. lia.
    + constructor; [unfold order_of; simpl; lia |].
      eapply Forall_impl; [exact Hall |]. intros e. simpl. lia.
  - destruct Hspec as [-> Hspec]. destruct (_heap h) as [|e0 rest] eqn:Hheap.
    + rewrite Hspec. split_and!; [done | constructor..].
    + split; [done |]. rewrite Hspec in Hnd, Hall. simpl in Hnd.
      apply NoDup_cons in Hnd as [_ Hnd]. apply Forall_cons in Hall as [_ Hall].
      done.
Qed.

Lemma run_snoc (ops : list (@op A)) o :
  run as_priority (ops ++ [o]) = after as_priority (run as_priority ops) o.
Proof. unfold run. by rewrite foldl_snoc. Qed.

Lemma run_stamped (ops : list (@op A)) : stamped (run as_priority ops).
Proof.
  induction ops as [|o ops IH] using rev_ind.
  - split_and!; [done | constructor..].
  - rewrite run_snoc. apply after_stamped; [apply run_ordered | done].
Qed.

(** Sizes and the counter. After any [insert]s and [extract_max]s on
    [MaxHeap()], [size()] is what counting the calls gives, an
    [extract_max] on an empty heap (which raises) counting for nothing;
    [is_empty()] tells whether that count is 0; the counter is the number
    of [insert]s, and the entries in the heap carry different counter
    values below it. *)
Theorem size_counts_calls (ops : list (@op A)) :
  size (run as_priority ops) = size_of ops /\
  is_empty (run as_priority ops) = bool_decide (size_of ops = 0) /\
  _counter (run as_priority ops) = inserts ops /\
  NoDup (order_of <$> _heap (run as_priority ops)) /\
  forall e, e ∈ _heap (run as_priority ops) -> 0 <= order_of e < inserts ops.
Proof.
  assert (size (run as_priority ops) = size_of ops /\
          _counter (run as_priority ops) = inserts ops) as [Hsize Hcount].
  { induction ops as [|o ops [IHs IHc]] using rev_ind; [done |].
    rewrite run_snoc. unfold size_of, inserts in *.
    rewrite !foldl_snoc, <- IHs, <- IHc.
    destruct (after_spec (run as_priority ops) o (run_ordered as_priority ops))
      as [_ Hspec].
    unfold size in *. destruct o as [item priority|]; simpl.
    - destruct Hspec as [-> Hperm]. rewrite Hperm. simpl. lia.
    - destruct Hspec as [-> Hspec].
      destruct (_heap (run as_priority ops)) as [|e0 rest] eqn:Hheap.
      + rewrite Hspec. simpl. lia.
      + apply Permutation_length in Hspec. simpl in *. lia. }
  destruct (run_stamped ops) as (_ & Hnd & Hall).
  split_and!; [done | | done | done |].
  - unfold is_empty. rewrite <- Hsize. unfold size.
    by destruct (_heap (run as_priority ops)).
  - intros e He. rewrite Forall_forall in Hall. rewrite <- Hcount. by apply Hall.
Qed.

(** [peek] shows the next extraction. After any calls on [MaxHeap()],
    [peek()] raises [IndexError] exactly when [extract_max()] does, and
    otherwise returns the item that [extract_max()] would return, which
    was inserted with a priority no entry of the heap exceeds. *)
Theorem peek_is_next_extraction (ops : list (@op A)) :
  peek (run as_priority ops)
    = (r ← extract_max Z.gtb (run as_priority ops); Ret r.1) /\
  match peek (run as_priority ops) with
  | Ret item =>
      exists e0,
        e0 ∈ _heap (run as_priority ops) /\ item_of e0 = item /\
        forall e, e ∈ _heap (run as_priority ops) ->
                  priority_of e <= priority_of e0
  | Raise exn => exn = IndexError /\ is_empty (run as_priority ops) = true
  | Timeout => False
  end.
Proof.
  pose proof (run_ordered as_priority ops) as Hord.
  unfold peek, is_empty.
  destruct (_heap (run as_priority ops)) as [|e0 rest] eqn:Hheap.
  - rewrite extract_max_empty by done. done.
  - rewrite <- Hheap in Hord.
    destruct (extract_max_ok (run as_priority ops) e0 rest Hheap Hord)
      as (heap' & -> & _). split; [done |].
    exists e0. split_and!; [by left | done |].
    intros e He. apply (root_max_elem (_heap (run as_priority ops)) e0 rest);
      [done | done | by rewrite Hheap].
Qed.

End Calls.

(** *** [nlargest] *)

Lemma entries_keyed {A} (key : A -> Z) (items : list A) (es : list (Z * Z * A)) :
  pair_of <$> es ≡ₚ (fun x => (key x, x)) <$> items ->
  (forall e, e ∈ es -> priority_of e = key (item_of e)) /\
  item_of <$> es ≡ₚ items.
Proof.
  intros Hperm. split.
  - intros e He.
    assert (pair_of e ∈ (fun x => (key x, x)) <$> items) as Hin.
    { rewrite <- Hperm. by apply list_elem_of_fmap_2. }
    apply list_elem_of_fmap in Hin as (x & Heq & _).
    unfold pair_of in Heq. by injection Heq as -> ->.
  - assert (item_of <$> es = snd <$> (pair_of <$> es)) as ->.
    { rewrite <- list_fmap_compose. done. }
    rewrite Hperm, <- list_fmap_compose. simpl. by rewrite list_fmap_id.
Qed.

(** [nlargest] returns the top [n]. For any items, key and [n],
    [MaxHeap.nlargest(n, items, key)] returns [min(n, len(items))] of the
    items (none when [n] is negative), in the order of non-increasing key,
    and no item left out has a larger key than one returned. *)
Theorem nlargest_is_top_n {A} (as_priority : A -> Z) (key : option (A -> Z))
    (n : Z) (items : list A) :
  exists out rest,
    nlargest Z.gtb as_priority n items key = Ret out /\
    out ++ rest ≡ₚ items /\
    Z.of_nat (length out) = Z.max 0 (Z.min n (Z.of_nat (length items))) /\
    StronglySorted
      (fun a b => default as_priority key b <= default as_priority key a) out /\
    forall a b, a ∈ out -> b ∈ rest ->
                default as_priority key b <= default as_priority key a.
Proof.
  set (k := default as_priority key).
  destruct (insert_fold_ok as_priority (fun item => (item, Some (k item))) items init)
    as (h & Hrun & Hord & Hperm); [apply heap_ordered_nil |].
  simpl in Hrun, Hperm. rewrite app_nil_r in Hperm.
  destruct (entries_keyed k items (_heap h) Hperm) as [Hkey Hitems].
  assert (length (_heap h) = length items) as Hlen.
  { apply Permutation_length in Hitems. by rewrite length_fmap in Hitems. }
  destruct (extract_times_ok (Z.to_nat (Z.min n (size h))) h [] Hord)
    as (es & heap' & Htimes & Hcount & Hsplit & _ & Hsorted & Hbelow).
  { unfold size. lia. }
  exists (item_of <$> es), (item_of <$> heap').
  split_and!.
  - unfold nlargest. fold k. rewrite Hrun. simpl. rewrite Htimes. done.
  - rewrite <- fmap_app, <- Hsplit. exact Hitems.
  - rewrite length_fmap, Hcount. unfold size. lia.
  - apply sorted_items; [done |]. intros e He. apply Hkey.
    rewrite Hsplit. apply elem_of_app. by left.
  - intros a b (e & -> & He)%list_elem_of_fmap (e' & -> & He')%list_elem_of_fmap.
    rewrite <- !Hkey by (rewrite Hsplit, elem_of_app; tauto).
    by apply Hbelow.
Qed.

End MaxHeapCallsFacts.

(** ** MaxHeap under any comparison *)

Module MaxHeapAnyFacts.
Import MaxHeap MaxHeapModel.
Section AnyOrder.
(** Priorities of any type, compared by any [gt]: the loops end and no
    index is out of range, whatever the comparison answers. *)
Context {P A : Type}.
Variable gt : P -> P -> bool.
Variable as_priority : A -> P.
Implicit Types (heap : list (MaxHeap.entry (P:=P) (A:=A))).
Implicit Types (h : MaxHeap.t (P:=P) (A:=A)).

Lemma at_index_any heap i :
  (i < length heap)%nat -> exists e, heap !! i = Some e /\ at_index heap i = Ret e.
Proof.
  intros Hlt. destruct (lookup_lt_is_Some_2 _ _ Hlt) as [e He].
  exists e. split; [done |]. unfold at_index. by rewrite He.
Qed.

Lemma swap_any heap i j :
  (i < length heap)%nat -> (j < length heap)%nat ->
  exists heap',
    _swap heap i j = Ret heap' /\ heap' ≡ₚ heap /\ length heap' = length heap.
Proof.
  intros Hi Hj.
  destruct (at_index_any heap i Hi) as (ei & Hei & Hati).
  destruct (at_index_any heap j Hj) as (ej & Hej & Hatj).
  exists (<[j := ei]> (<[i := ej]> heap)). split_and!.
  - unfold _swap. by rewrite Hatj, Hati.
  - by apply Permutation_insert_swap.
  - by rewrite !length_insert.
Qed.

Lemma parent_below i : (0 < i)%nat -> (parent i < i)%nat.
Proof. unfold parent. intros Hi. apply Nat.Div0.div_lt_upper_bound. lia. Qed.

Lemma heapify_up_loop_unfold fuel heap index :
  heapify_up_loop gt (S fuel) heap index =
    if (0 <? index)%nat then
      ei ← at_index heap index;
      ep ← at_index heap (parent index);
      if gt (priority_of ei) (priority_of ep) then
        heap ← _swap heap index (parent index);
        heapify_up_loop gt fuel heap (parent index)
      else Ret heap
    else Ret heap.
Proof. reflexivity. Qed.

Lemma heapify_up_any fuel :
  forall heap j,
    (j < fuel)%nat -> (j < length heap)%nat ->
    exists heap', heapify_up_loop gt fuel heap j = Ret heap' /\ heap' ≡ₚ heap.
Proof.
  induction fuel as [|fuel IH]; intros heap j Hfuel Hj; [lia |].
  rewrite heapify_up_loop_unfold.
  destruct (Nat.ltb_spec 0 j) as [Hpos|Hzero]; [|by exists heap].
  pose proof (parent_below j Hpos) as Hp.
  destruct (at_index_any heap j Hj) as (ej & _ & ->).
  destruct (at_index_any heap (parent j)) as (ep & _ & ->); [lia |].
  rewrite !bind_Ret.
  destruct (gt (priority_of ej) (priority_of ep)); [|by exists heap].
  destruct (swap_any heap j (parent j)) as (heap1 & -> & Hperm & Hlen); [lia.. |].
  rewrite bind_Ret.
  destruct (IH heap1 (parent j)) as (heap' & Hrun & Hperm'); [lia | lia |].
  exists heap'. split; [done |]. by rewrite Hperm'.
Qed.

Lemma pick_larger_any heap child largest :
  (largest < length heap)%nat ->
  exists g,
    pick_larger gt heap (length heap) child largest = Ret g /\
    (g = largest \/ g = child /\ (child < length heap)%nat).
Proof.
  intros Hl. unfold pick_larger.
  destruct (Nat.ltb_spec child (length heap)) as [Hc|Hc].
  - destruct (at_index_any heap child Hc) as (ec & _ & ->).
    destruct (at_index_any heap largest Hl) as (el & _ & ->).
    rewrite !bind_Ret.
    destruct (gt (priority_of ec) (priority_of el)); eexists; split; eauto.
  - eexists; split; eauto.
Qed.

Lemma heapify_down_loop_unfold fuel heap size index :
  heapify_down_loop gt (S fuel) heap size index =
    (largest ← pick_larger gt heap size (2 * index + 1) index;
     largest ← pick_larger gt heap size (2 * index + 2) largest;
     if (largest =? index)%nat then Ret heap
     else
       heap ← _swap heap index largest;
       heapify_down_loop gt fuel heap size largest).
Proof. reflexivity. Qed.

Lemma heapify_down_any fuel :
  forall heap j,
    (j < length heap)%nat -> (length heap - j < fuel)%nat ->
    exists heap',
      heapify_down_loop gt fuel heap (length heap) j = Ret heap' /\ heap' ≡ₚ heap.
Proof.
  induction fuel as [|fuel IH]; intros heap j Hj Hfuel; [lia |].
  rewrite heapify_down_loop_unfold.
  destruct (pick_larger_any heap (2 * j + 1) j Hj) as (g1 & -> & Hg1).
  rewrite bind_Ret.
  assert (g1 < length heap)%nat as Hg1lt by lia.
  destruct (pick_larger_any heap (2 * j + 2) g1 Hg1lt) as (g & -> & Hg).
  rewrite bind_Ret.
  destruct (Nat.eqb_spec g j) as [->|Hne]; [by exists heap |].
  destruct (swap_any heap j g) as (heap1 & -> & Hperm & Hlen); [lia.. |].
  rewrite bind_Ret, <- Hlen.
  destruct (IH heap1 g) as (heap' & Hrun & Hperm'); [lia | lia |].
  exists heap'. split; [done |]. by rewrite Hperm'.
Qed.

Lemma insert_any h item priority :
  exists heap',
    insert gt as_priority h item priority = Ret (Build heap' (_counter h + 1)) /\
    heap' ≡ₚ (match priority with
              | None => as_priority item
              | Some priority => priority
              end, _counter h, item) :: _heap h.
Proof.
  unfold insert, _heapify_up.
  set (e := (match priority with
             | None => as_priority item
             | Some priority => priority
             end, _counter h, item)).
  destruct (heapify_up_any (S (length (_heap h ++ [e]) - 1)) (_heap h ++ [e])
              (length (_heap h ++ [e]) - 1)) as (heap' & -> & Hperm).
  - lia.
  - rewrite length_app. simpl. lia.
  - exists heap'. split; [done |].
    rewrite Hperm. by rewrite <- Permutation_cons_append.
Qed.

Lemma extract_max_any h e0 rest :
  _heap h = e0 :: rest ->
  exists heap',
    extract_max gt h = Ret (item_of e0, Build heap' (_counter h)) /\
    _heap h ≡ₚ e0 :: heap'.
Proof.
  intros Hheap. unfold extract_max. rewrite Hheap. rewrite <- Hheap.
  set (n := length (_heap h)).
  assert (0 < n)%nat as Hn by (unfold n; rewrite Hheap; simpl; lia).
  assert (_heap h !! 0%nat = Some e0) as H0 by (by rewrite Hheap).
  destruct (lookup_lt_is_Some_2 (_heap h) (n - 1)) as [el Hel]; [lia |].
  assert (_swap (_heap h) 0 (n - 1)
          = Ret (<[(n - 1)%nat := e0]> (<[0%nat := el]> (_heap h)))) as ->.
  { unfold _swap, at_index. by rewrite Hel, H0. }
  pose proof (Permutation_insert_swap (_heap h) 0 (n - 1) e0 el H0 Hel) as Hperm.
  rewrite bind_Ret.
  set (heap1 := <[(n - 1)%nat := e0]> (<[0%nat := el]> (_heap h))) in *.
  assert (length heap1 = n) as Hlen by (unfold heap1; by rewrite !length_insert).
  assert (last heap1 = Some e0) as Hlast.
  { rewrite last_lookup, Hlen. unfold heap1.
    replace (pred n) with (n - 1)%nat by lia.
    apply list_lookup_insert_eq. rewrite length_insert. fold n. lia. }
  unfold pop. rewrite Hlast, bind_Ret, Hlen.
  set (heap2 := take (n - 1) heap1).
  assert (heap1 = heap2 ++ [e0]) as Hsplit.
  { apply last_Some in Hlast as [l' Hl']. unfold heap2. rewrite Hl' in *.
    rewrite length_app in Hlen. simpl in Hlen.
    replace (n - 1)%nat with (length l') by lia. by rewrite take_app_length. }
  assert (_heap h ≡ₚ e0 :: heap2) as Hperm2.
  { rewrite <- Hperm, Hsplit. by rewrite <- Permutation_cons_append. }
  destruct heap2 as [|e2 heap3] eqn:Hheap2.
  - exists []. by rewrite bind_Ret.
  - rewrite <- Hheap2 in *. unfold _heapify_down.
    destruct (heapify_down_any (S (length heap2)) heap2 0) as (heap' & -> & Hperm').
    { rewrite Hheap2. simpl. lia. }
    { lia. }
    rewrite bind_Ret. exists heap'. split; [done |].
    by rewrite Hperm2, Hperm'.
Qed.

Lemma extract_times_any count :
  forall h result,
    (count <= length (_heap h))%nat ->
    exists es heap',
      extract_times gt count h result
        = Ret (result ++ map item_of es, Build heap' (_counter h)) /\
      length es = count /\
      _heap h ≡ₚ es ++ heap'.
Proof.
  induction count as [|count IH]; intros h result Hcount.
  - exists [], (_heap h). simpl. rewrite app_nil_r. by destruct h.
  - destruct (_heap h) as [|e0 rest] eqn:Hheap; [simpl in Hcount; lia |].
    destruct (extract_max_any h e0 rest Hheap) as (heap1 & Hex & Hperm1).
    rewrite Hheap in Hperm1.
    destruct (IH (Build heap1 (_counter h)) (result ++ [item_of e0]))
      as (es & heap' & Hrun & Hlen & Hperm).
    { simpl. apply Permutation_length in Hperm1. simpl in *. lia. }
    simpl in Hperm, Hrun.
    exists (e0 :: es), heap'. split_and!.
    + simpl. rewrite Hex, bind_Ret. simpl. rewrite Hrun.
      by rewrite <- app_assoc.
    + simpl. by rewrite Hlen.
    + by rewrite Hperm1, Hperm.
Qed.

Lemma insert_fold_any (key : A -> P) (items : list A) :
  forall h,
    exists h',
      foldl (fun acc item => h ← acc; insert gt as_priority h item (Some (key item)))
            (Ret h) items = Ret h' /\
      item_of <$> _heap h' ≡ₚ items ++ (item_of <$> _heap h).
Proof.
  induction items as [|item items IH]; intros h; simpl.
  - by exists h.
  - destruct (insert_any h item (Some (key item))) as (heap1 & Hins & Hperm1).
    destruct (IH (Build heap1 (_counter h + 1))) as (h' & Hrun & Hperm).
    exists h'. rewrite Hins. split; [exact Hrun |].
    rewrite Hperm. simpl. rewrite Hperm1. simpl.
    by rewrite <- Permutation_middle.
Qed.

Lemma nlargest_any (key : option (A -> P)) (n : Z) (items : list A) :
  exists out rest,
    nlargest gt as_priority n items key = Ret out /\
    out ++ rest ≡ₚ items /\
    Z.of_nat (length out) = Z.max 0 (Z.min n (Z.of_nat (length items))).
Proof.
  destruct (insert_fold_any (default as_priority key) items init)
    as (h & Hrun & Hperm).
  simpl in Hperm. rewrite app_nil_r in Hperm.
  assert (length (_heap h) = length items) as Hlen.
  { apply Permutation_length in Hperm. by rewrite length_fmap in Hperm. }
  destruct (extract_times_any (Z.to_nat (Z.min n (size h))) h [])
    as (es & heap' & Htimes & Hcount & Hsplit).
  { unfold size. lia. }
  exists (item_of <$> es), (item_of <$> heap'). split_and!.
  - unfold nlargest. rewrite Hrun. simpl. rewrite Htimes. done.
  - rewrite <- fmap_app, <- Hsplit. exact Hperm.
  - rewrite length_fmap, Hcount. unfold size. lia.
Qed.

(** [nlargest] never fails. Whatever the type of the keys and whatever
    their comparison answers, [MaxHeap.nlargest(n, items, key)] returns
    [min(n, len(items))] of the items (none when [n] is negative), each as
    often as the items have it at most; with [n] at least [len(items)] it
    returns all the items, in some order. *)
Theorem nlargest_selects (key : option (A -> P)) (n : Z) (items : list A) :
  exists out rest,
    nlargest gt as_priority n items key = Ret out /\
    out ++ rest ≡ₚ items /\
    Z.of_nat (length out) = Z.max 0 (Z.min n (Z.of_nat (length items))) /\
    (n <= 0 -> out = []) /\
    (Z.of_nat (length items) <= n -> rest = [] /\ out ≡ₚ items).
Proof.
  destruct (nlargest_any key n items) as (out & rest & Hcall & Hperm & Hlen).
  exists out, rest. split_and!; [done | done | done | |].
  - intros Hn. destruct out; [done | simpl in Hlen; lia].
  - intros Hall. pose proof (Permutation_length Hperm) as Hboth.
    rewrite length_app in Hboth.
    assert (rest = []) as -> by (destruct rest; [done | simpl in Hboth; lia]).
    split; [done |]. by rewrite app_nil_r in Hperm.
Qed.

End AnyOrder.
End MaxHeapAnyFacts.

(** ** Sorting *)

Section SortingFacts.
Context {X : Type}.
Variable le : X -> X -> bool.

Lemma sort_insert_perm x (l : list X) : sort_insert le x l ≡ₚ x :: l.
Proof.
  induction l as [|y l IH]; simpl; [done |].
  destruct (le x y); [done |]. by rewrite IH, Permutation_swap.
Qed.

Lemma sorted_perm (l : list X) : sorted le l ≡ₚ l.
Proof.
  induction l as [|x l IH]; simpl; [done |].
  by rewrite sort_insert_perm, IH.
Qed.

Lemma elem_of_sorted x (l : list X) : x ∈ sorted le l <-> x ∈ l.
Proof. by rewrite sorted_perm. Qed.

(** Two orders that agree sort alike. *)
Lemma sorted_ext (le' : X -> X -> bool) (l : list X) :
  (forall x y, le x y = le' x y) -> sorted le l = sorted le' l.
Proof.
  intros Hext. induction l as [|x l IH]; simpl; [done |].
  rewrite IH. generalize (sorted le' l). intros k.
  induction k as [|y k IHk]; simpl; [done |].
  rewrite Hext. destruct (le' x y); [done |]. by rewrite IHk.
Qed.

(** The result is in order when the order is total and transitive. *)
Lemma sorted_in_order (l : list X) :
  (forall x y, le x y = true \/ le y x = true) ->
  (forall x y z, le x y = true -> le y z = true -> le x z = true) ->
  StronglySorted (fun x y => le x y = true) (sorted le l).
Proof.
  intros Htotal Htrans. induction l as [|x l IH]; simpl; [constructor |].
  revert IH. generalize (sorted le l). intros k Hk.
  induction Hk as [|y k Hk IHk Hall]; simpl; [repeat constructor |].
  destruct (le x y) eqn:Hxy.
  - constructor; [by constructor |]. constructor; [done |].
    eapply Forall_impl; [exact Hall |]. intros z Hz. by eapply Htrans.
  - constructor; [done |].
    rewrite sort_insert_perm. constructor; [|done].
    destruct (Htotal x y); congruence.
Qed.

(** The sort is stable: elements that the order does not separate keep
    their relative positions. *)
Lemma sorted_stable (same : X -> bool) (l : list X) :
  (forall x y, same x = true -> same y = true -> le x y = true) ->
  filter (fun x => same x = true) (sorted le l)
  = filter (fun x => same x = true) l.
Proof.
  intros Hsame. induction l as [|x l IH]; [done |].
  cbn [sorted]. rewrite (filter_cons _ x l), <- IH.
  generalize (sorted le l). intros k.
  induction k as [|y k IHk]; cbn [sort_insert].
  - by rewrite filter_cons.
  - destruct (le x y) eqn:Hxy; [by rewrite (filter_cons _ x (y :: k)) |].
    rewrite (filter_cons _ y (sort_insert le x k)), IHk, (filter_cons _ y k).
    destruct (decide (same x = true)) as [Hx|Hx]; [|done].
    destruct (decide (same y = true)) as [Hy|Hy]; [|done].
    rewrite Hsame in Hxy by done. done.
Qed.
End SortingFacts.

(** ** Trie *)

Module TrieFacts.
Import Trie TrieModel.

(** *** The [children] dict *)

Lemma dict_get_set {X} (c c0 : ascii) (x : X) (d : list (ascii * X)) :
  dict_get c (dict_set c0 x d) = if decide (c0 = c) then Some x else dict_get c d.
Proof.
  induction d as [|[c1 y] d IH]; simpl.
  - destruct (decide (c0 = c)); done.
  - destruct (decide (c1 = c0)) as [->|Hne]; simpl.
    + destruct (decide (c0 = c)); done.
    + destruct (decide (c1 = c)) as [->|Hne'].
      * by rewrite decide_False by congruence.
      * apply IH.
Qed.

Lemma dict_get_map {X Y} (g : X -> Y) (c : ascii) (d : list (ascii * X)) :
  dict_get c (map (fun item => (item.1, g item.2)) d) = g <$> dict_get c d.
Proof.
  induction d as [|[c1 y] d IH]; simpl; [done |].
  destruct (decide (c1 = c)); [done | apply IH].
Qed.

Lemma dict_get_elem {X} (c : ascii) (d : list (ascii * X)) (x : X) :
  dict_get c d = Some x -> (c, x) ∈ d.
Proof.
  induction d as [|[c1 y] d IH]; simpl; [done |].
  destruct (decide (c1 = c)) as [->|Hne].
  - intros [= ->]. by left.
  - intros Hget. right. by apply IH.
Qed.

Lemma dict_get_keys {X} (c : ascii) (d : list (ascii * X)) :
  c ∈ keys d -> is_Some (dict_get c d).
Proof.
  unfold keys. induction d as [|[c1 y] d IH]; simpl.
  - intros Hin. inversion Hin.
  - intros Hin. destruct (decide (c1 = c)) as [->|Hne]; [by eexists |].
    apply IH. apply elem_of_cons in Hin as [->|Hin]; done.
Qed.

(** *** Paths *)

Lemma walk_new_node path node :
  walk new_node path = Some node -> path = [] /\ node = new_node.
Proof. destruct path; simpl; [by intros [= <-] | done]. Qed.

Lemma walk_insert_path path :
  forall node p word,
    is_Some (walk (insert_path node path word) p) <->
    is_Some (walk node p) \/ p `prefix_of` path.
Proof.
  induction path as [|c0 path IH]; intros node p word.
  - destruct p as [|c p]; simpl.
    + split; [left; by eexists | by eexists].
    + split; [by left |]. intros [Hw|Hp]; [done |].
      by apply prefix_nil_not in Hp.
  - destruct p as [|c p].
    + simpl. split; [left; by eexists | by eexists].
    + cbn [insert_path walk children]. rewrite dict_get_set.
      destruct (decide (c0 = c)) as [->|Hne].
      * rewrite IH. destruct (dict_get c (children node)) as [child|] eqn:Hc.
        -- split; (intros [Hw|Hp]; [by left | right]).
           ++ by apply prefix_cons.
           ++ by apply prefix_cons_inv_2 in Hp.
        -- split.
           ++ intros [[n Hn]|Hp]; right; apply prefix_cons; [|done].
              apply walk_new_node in Hn as [-> _]. apply prefix_nil.
           ++ intros [[n Hn]|Hp]; [done |]. right.
              by apply prefix_cons_inv_2 in Hp.
      * split; [by left |]. intros [Hw|Hp]; [done |].
        apply prefix_cons_inv_1 in Hp. congruence.
Qed.

Lemma terminal_named_new : terminal_named new_node.
Proof. intros path node [-> ->]%walk_new_node. done. Qed.

Lemma terminal_named_child node c child :
  terminal_named node -> dict_get c (children node) = Some child ->
  terminal_named child.
Proof.
  intros Hnode Hc path node' Hwalk. apply (Hnode (c :: path)).
  simpl. by rewrite Hc.
Qed.

Lemma terminal_named_insert path :
  forall node word,
    terminal_named node -> terminal_named (insert_path node path word).
Proof.
  induction path as [|c0 path IH]; intros node word Hnode p node'.
  - destruct p as [|c p]; simpl.
    + intros [= <-] _. by eexists.
    + apply (Hnode (c :: p)).
  - destruct p as [|c p].
    + simpl. intros [= <-]. simpl. apply (Hnode []). done.
    + cbn [insert_path walk children]. rewrite dict_get_set.
      destruct (decide (c0 = c)) as [->|Hne]; [|apply (Hnode (c :: p))].
      apply IH. destruct (dict_get c (children node)) as [child|] eqn:Hc.
      * by eapply terminal_named_child.
      * apply terminal_named_new.
Qed.

(** *** Built tries *)

Lemma lower_nil (s : string) : lower s = [] <-> s = ""%string.
Proof. destruct s; simpl; split; done. Qed.

Lemma eqb_empty (s : string) : String.eqb s "" = true <-> s = ""%string.
Proof. apply String.eqb_eq. Qed.

Lemma root_insert (self : t) (word : string) :
  root (insert self word) =
    if blank word then root self else insert_path (root self) (lower word) word.
Proof. unfold insert. by destruct (blank word). Qed.

Lemma walk_foldl_insert (words : list string) :
  forall (self : t) p,
    is_Some (walk (root (foldl insert self words)) p) <->
    is_Some (walk (root self) p) \/
    exists word, word ∈ words /\ blank word = false /\ p `prefix_of` lower word.
Proof.
  induction words as [|w words IH]; intros self p; simpl.
  - split; [by left |]. intros [?|(word & Hin & _)]; [done | inversion Hin].
  - rewrite IH, root_insert. destruct (blank w) eqn:Hw.
    + split; (intros [?|(word & Hin & Hb & Hp)]; [by left | right]).
      * exists word. split; [by right | done].
      * apply elem_of_cons in Hin as [->|Hin]; [congruence |]. by exists word.
    + rewrite walk_insert_path. split.
      * intros [[?|Hp]|(word & Hin & Hb & Hp)]; [by left | right | right].
        -- exists w. split; [by left | done].
        -- exists word. split; [by right | done].
      * intros [?|(word & Hin & Hb & Hp)]; [left; by left |].
        apply elem_of_cons in Hin as [->|Hin]; [left; by right | right].
        by exists word.
Qed.

Lemma walk_build (words : list string) p :
  p <> [] ->
  is_Some (walk (root (build words)) p) <->
  exists word, word ∈ words /\ blank word = false /\ p `prefix_of` lower word.
Proof.
  intros Hp. unfold build. rewrite walk_foldl_insert. split; [|by right].
  intros [[node Hw]|?]; [|done]. by apply walk_new_node in Hw as [? _].
Qed.

Lemma terminal_named_build (words : list string) :
  terminal_named (root (build words)).
Proof.
  unfold build. assert (terminal_named (root init)) as Hinit
    by apply terminal_named_new.
  revert Hinit. generalize init.
  induction words as [|w words IH]; intros self Hself; simpl; [done |].
  apply IH. rewrite root_insert. destruct (blank w); [done |].
  by apply terminal_named_insert.
Qed.

(** C4, as the code has it: for a prefix that is not empty, [starts_with]
    answers whether one of the terms inserted begins with it, compared
    case-insensitively; for the empty prefix it answers [False]. *)
Theorem starts_with_iff (words : list string) (prefix : string) :
  starts_with (build words) prefix = true <->
  prefix <> ""%string /\ some_term_begins_with words prefix.
Proof.
  unfold starts_with, some_term_begins_with, begins_with.
  destruct (String.eqb prefix "") eqn:Hempty.
  - apply eqb_empty in Hempty. split; [done | by intros [? _]].
  - assert (prefix <> ""%string) as Hne.
    { intros ->. by rewrite String.eqb_refl in Hempty. }
    assert (lower prefix <> []) as Hp by (by rewrite lower_nil).
    rewrite <- (walk_build words _ Hp).
    destruct (walk (root (build words)) (lower prefix)) as [node|].
    + split; [split; [done | by eexists] | done].
    + split; [done | by intros [_ [? ?]]].
Qed.

(** C4 as stated fails on the empty prefix: a term has been inserted and
    begins with it, and [starts_with] answers [False]. *)
Lemma starts_with_empty_prefix :
  starts_with (build ["Python"]) "" = false /\
  some_term_begins_with ["Python"] "".
Proof.
  split; [reflexivity |]. exists "Python"%string.
  split; [by left |]. split; [reflexivity |]. apply prefix_nil.
Qed.

(** *** [_collect_words] against the full traversal *)

Lemma room_zero {X} limit (results : list X) :
  (limit <=? Z.of_nat (length results)) = true -> room limit results = 0%nat.
Proof. unfold room. intros Hle%Z.leb_le. lia. Qed.

Lemma room_pos {X} limit (results : list X) :
  (limit <=? Z.of_nat (length results)) = false -> (0 < room limit results)%nat.
Proof. unfold room. intros Hle%Z.leb_gt. lia. Qed.

Lemma room_app {X} limit (results l : list X) :
  room limit (results ++ l) = (room limit results - length l)%nat.
Proof. unfold room. rewrite length_app. lia. Qed.

Lemma collect_children_spec limit (T : ascii -> list (string * Z))
    (visit : list (ascii * (hits -> hits))) (order : list ascii) :
  (forall c, c ∈ order ->
     exists call,
       dict_get c visit = Some call /\
       forall res, call res = res ++ take (room limit res) (hit <$> T c)) ->
  forall results,
    collect_children limit visit order results
    = results ++ take (room limit results) (hit <$> flat_map T order).
Proof.
  induction order as [|c order IH]; intros Hcalls results;
    cbn [collect_children flat_map].
  - by rewrite fmap_nil, take_nil, app_nil_r.
  - destruct (limit <=? Z.of_nat (length results)) eqn:Hle.
    + rewrite room_zero by done. by rewrite take_0, app_nil_r.
    + destruct (Hcalls c) as (call & -> & Hcall); [by left |].
      rewrite IH by (intros c' Hc'; apply Hcalls; by right).
      rewrite Hcall, <- app_assoc. f_equal.
      rewrite fmap_app, take_app. f_equal.
      rewrite room_app, length_take. f_equal. lia.
Qed.

Lemma collect_words_unfold cs e w f results limit :
  _collect_words (Node cs e w f) results limit =
    if limit <=? Z.of_nat (length results) then results
    else
      collect_children limit
        (map (fun item : ascii * _TrieNode =>
                (item.1, fun results => _collect_words item.2 results limit)) cs)
        (sorted char_le (keys cs))
        (if e then results ++ [(w, f)] else results).
Proof. reflexivity. Qed.

Lemma terms_unfold cs e w f :
  terms (Node cs e w f) =
    (if e then [(term_of (Node cs e w f), f)] else [])
    ++ flat_map
         (fun char =>
            default [] (dict_get char
              (map (fun item : ascii * _TrieNode => (item.1, terms item.2)) cs)))
         (sorted char_le (keys cs)).
Proof. reflexivity. Qed.

(** [_collect_words] appends the first tuples of the full traversal, as
    many as there is room for. *)
Lemma collect_words_spec node :
  terminal_named node ->
  forall results limit,
    _collect_words node results limit
    = results ++ take (room limit results) (hit <$> terms node).
Proof.
  induction node as [cs e w f IH] using node_ind.
  intros Hnamed results limit.
  rewrite collect_words_unfold, terms_unfold.
  destruct (limit <=? Z.of_nat (length results)) eqn:Hle.
  { rewrite room_zero by done. by rewrite take_0, app_nil_r. }
  pose proof (room_pos _ _ Hle) as Hroom.
  set (head := if e then [(term_of (Node cs e w f), f)] else []).
  match goal with
  | |- collect_children _ _ _ ?r = _ =>
      assert (r = results ++ (hit <$> head)) as ->
  end.
  { unfold head. destruct e; [|by rewrite app_nil_r].
    destruct (Hnamed [] (Node cs true w f) eq_refl eq_refl) as [word Hw].
    simpl in Hw. subst w. done. }
  assert (length (hit <$> head) <= 1)%nat as Hhead.
  { unfold head. destruct e; simpl; lia. }
  rewrite (collect_children_spec limit
             (fun char =>
                default [] (dict_get char
                  (map (fun item : ascii * _TrieNode => (item.1, terms item.2)) cs)))).
  - rewrite <- app_assoc. f_equal.
    rewrite fmap_app, take_app, room_app.
    rewrite (take_ge (hit <$> head)) by lia. done.
  - intros c Hc. apply elem_of_sorted, dict_get_keys in Hc as [child Hchild].
    exists (fun results => _collect_words child results limit).
    rewrite (dict_get_map (fun child results => _collect_words child results limit)).
    rewrite (dict_get_map terms), Hchild. split; [done |]. simpl.
    intros res. rewrite Forall_forall in IH.
    apply (IH (c, child)); [by apply dict_get_elem |].
    by apply (terminal_named_child (Node cs e w f) c).
Qed.

(** *** [get_suggestions] against the specification *)

Lemma with_lengths_hit (l : list (string * Z)) : with_lengths (hit <$> l) = Ret l.
Proof.
  induction l as [|[word freq] l IH]; [done |].
  rewrite fmap_cons. unfold hit at 1. cbn [with_lengths fst snd].
  by rewrite IH.
Qed.

Lemma rank_le_ranks_before x y : rank_le x y = ranks_before x y.
Proof.
  unfold rank_le, ranks_before, len. simpl.
  apply eq_true_iff_eq.
  rewrite !orb_true_iff, !andb_true_iff, !Z.ltb_lt, !Z.eqb_eq, Z.leb_le,
    Nat.leb_le.
  lia.
Qed.

Lemma py_take_candidates {X} (le : X -> X -> bool) limit (l : list X) :
  py_take limit (sorted le (take (Z.to_nat (limit * 3)) l))
  = take (Z.to_nat limit) (sorted le (take (Z.to_nat (limit * 3)) l)).
Proof.
  unfold py_take. destruct (Z.ltb_spec limit 0) as [Hneg|Hpos]; [|done].
  replace (Z.to_nat (limit * 3)) with 0%nat by lia.
  rewrite take_0. simpl. by rewrite !take_nil.
Qed.

Lemma walk_app node p q :
  walk node (p ++ q) = walk node p ≫= fun node' => walk node' q.
Proof.
  revert node. induction p as [|c p IH]; intros node; simpl; [done |].
  destruct (dict_get c (children node)); [apply IH | done].
Qed.

Lemma terminal_named_walk node p node' :
  terminal_named node -> walk node p = Some node' -> terminal_named node'.
Proof.
  intros Hnode Hwalk q n Hq. apply (Hnode (p ++ q)).
  by rewrite walk_app, Hwalk.
Qed.

Lemma get_suggestions_at (self : t) prefix limit node :
  terminal_named (root self) ->
  prefix <> ""%string ->
  walk (root self) (lower prefix) = Some node ->
  get_suggestions self prefix limit = Ret (suggest node limit).
Proof.
  intros Hnamed Hne Hwalk. unfold get_suggestions, suggest.
  destruct (String.eqb prefix "") eqn:Hempty; [by apply eqb_empty in Hempty |].
  rewrite Hwalk.
  rewrite (collect_words_spec node) by (by eapply terminal_named_walk).
  simpl. unfold room. simpl. rewrite Z.sub_0_r, <- fmap_take.
  rewrite with_lengths_hit, bind_Ret.
  rewrite (sorted_ext rank_le ranks_before) by apply rank_le_ranks_before.
  by rewrite py_take_candidates.
Qed.

(** C5. [get_suggestions] returns the empty list, without raising, when
    the prefix is empty or no term inserted begins with it; otherwise it
    returns what the specification describes from the node at the end of
    the prefix path: the depth-first traversal with children in ascending
    character order, cut at [limit * 3] candidates, sorted by occurrence
    count descending then shorter term first, cut at [limit], as terms in
    their original case. *)
Theorem get_suggestions_refines (words : list string) (prefix : string)
    (limit : Z) :
  (prefix = ""%string \/ ~ some_term_begins_with words prefix ->
   get_suggestions (build words) prefix limit = Ret []) /\
  (prefix <> ""%string -> some_term_begins_with words prefix ->
   exists node,
     walk (root (build words)) (lower prefix) = Some node /\
     get_suggestions (build words) prefix limit = Ret (suggest node limit)).
Proof.
  split.
  - intros Hnone. unfold get_suggestions.
    destruct (String.eqb prefix "") eqn:Hempty; [done |].
    assert (prefix <> ""%string) as Hne.
    { intros ->. by rewrite String.eqb_refl in Hempty. }
    destruct Hnone as [?|Hnone]; [done |].
    destruct (walk (root (build words)) (lower prefix)) as [node|] eqn:Hwalk;
      [|done].
    exfalso. apply Hnone. apply walk_build; [by rewrite lower_nil |].
    by eexists.
  - intros Hne Hsome.
    assert (is_Some (walk (root (build words)) (lower prefix))) as [node Hwalk].
    { apply walk_build; [by rewrite lower_nil | done]. }
    exists node. split; [done |].
    apply get_suggestions_at; [apply terminal_named_build | done | done].
Qed.

(** The example of the specification. *)
Example suggestions_of_the_specification :
  let trie := build ["Python"; "Python"; "Python"; "Pytorch"] in
  get_suggestions trie "py" 10 = Ret ["Python"; "Pytorch"]%string /\
  get_suggestions trie "z" 10 = Ret [] /\
  search trie "PYTHON" = true.
Proof. repeat split. Qed.

End TrieFacts.

(** ** Trie: what a built trie records *)

Module TrieWordsFacts.
Import Trie TrieModel TrieWords TrieFacts.

Lemma data_at_new_node path : data_at new_node path = data new_node.
Proof. by destruct path. Qed.

Lemma data_at_cons node c path :
  data_at node (c :: path) =
    match dict_get c (children node) with
    | Some child => data_at child path
    | None => data new_node
    end.
Proof. unfold data_at. simpl. by destruct (dict_get c (children node)). Qed.

(** What [insert] changes: the node at the end of the path of the word. *)
Lemma data_at_insert_path path :
  forall node p word,
    data_at (insert_path node path word) p =
      if decide (p = path)
      then (true, Some word, (data_at node p).2 + 1)
      else data_at node p.
Proof.
  induction path as [|c0 path IH]; intros node p word.
  - destruct p as [|c p]; [done |].
    rewrite decide_False by done. by rewrite !data_at_cons.
  - destruct p as [|c p]; [done |].
    rewrite !data_at_cons. cbn [insert_path children]. rewrite dict_get_set.
    destruct (decide (c0 = c)) as [->|Hne].
    + rewrite IH. destruct (dict_get c (children node)) as [child|].
      * destruct (decide (p = path)) as [->|Hp].
        -- by rewrite decide_True.
        -- rewrite decide_False; [done | congruence].
      * rewrite data_at_new_node.
        destruct (decide (p = path)) as [->|Hp].
        -- by rewrite decide_True.
        -- rewrite decide_False; [done | congruence].
    + rewrite decide_False; [done | congruence].
Qed.

Lemma data_at_insert (self : t) word p :
  data_at (root (insert self word)) p =
    if decide (blank word = false /\ lower word = p)
    then (true, Some word, (data_at (root self) p).2 + 1)
    else data_at (root self) p.
Proof.
  rewrite root_insert. destruct (blank word) eqn:Hblank.
  - rewrite decide_False; [done | by intros [? _]].
  - rewrite data_at_insert_path.
    destruct (decide (p = lower word)) as [->|Hp].
    + by rewrite decide_True.
    + rewrite decide_False; [done | intros [_ ?]; congruence].
Qed.

Lemma spelled_cons p word words :
  spelled p (word :: words) =
    if decide (blank word = false /\ lower word = p)
    then word :: spelled p words
    else spelled p words.
Proof.
  unfold spelled, stored. rewrite filter_cons.
  destruct (decide (blank word = false)) as [Hb|Hb].
  - rewrite filter_cons. destruct (decide (lower word = p)) as [Hp|Hp].
    + by rewrite decide_True.
    + rewrite decide_False; [done | by intros [_ ?]].
  - rewrite decide_False; [done | by intros [? _]].
Qed.

Lemma spelled_snoc p word words :
  spelled p (words ++ [word]) =
    spelled p words
    ++ (if decide (blank word = false /\ lower word = p) then [word] else []).
Proof.
  unfold spelled, stored. rewrite !filter_app. f_equal.
  rewrite filter_cons. destruct (decide (blank word = false)) as [Hb|Hb].
  - rewrite filter_cons. destruct (decide (lower word = p)) as [Hp|Hp].
    + by rewrite decide_True.
    + rewrite decide_False; [done | by intros [_ ?]].
  - rewrite decide_False; [done | by intros [? _]].
Qed.

Lemma data_at_build (words : list string) p :
  data_at (root (build words)) p =
    (bool_decide (spelled p words <> []),
     last (spelled p words),
     Z.of_nat (length (spelled p words))).
Proof.
  induction words as [|word words IH] using rev_ind.
  - by rewrite data_at_new_node.
  - unfold build in *. rewrite foldl_snoc, data_at_insert, IH, spelled_snoc.
    destruct (decide (blank word = false /\ lower word = p)) as [Hw|Hw].
    + rewrite last_snoc, length_app. simpl.
      rewrite bool_decide_eq_true_2 by (by destruct (spelled p words)).
      f_equal. lia.
    + by rewrite app_nil_r.
Qed.

Lemma spelled_nonempty p words :
  spelled p words <> [] <->
  exists word, word ∈ words /\ blank word = false /\ lower word = p.
Proof.
  unfold spelled, stored. split.
  - destruct (filter _ _) as [|word l] eqn:Hf; [done |]. intros _.
    assert (word ∈ filter (fun word => lower word = p)
                     (filter (fun word => blank word = false) words)) as Hin
      by (rewrite Hf; by left).
    apply list_elem_of_filter in Hin as [Hp Hin].
    apply list_elem_of_filter in Hin as [Hb Hin]. by exists word.
  - intros (word & Hin & Hb & Hp) Hnil.
    assert (word ∈ filter (fun word => lower word = p)
                     (filter (fun word => blank word = false) words)) as Hin'.
    { apply list_elem_of_filter. split; [done |].
      by apply list_elem_of_filter. }
    rewrite Hnil in Hin'. inversion Hin'.
Qed.

(** Exact search. [search] answers [True] exactly for the words that are
    not empty and equal, letter case apart, one of the terms inserted. *)
Theorem search_iff_inserted (words : list string) (word : string) :
  search (build words) word = true <->
  word <> ""%string /\
  exists word', word' ∈ words /\ blank word' = false /\ lower word' = lower word.
Proof.
  unfold search. rewrite <- spelled_nonempty.
  destruct (String.eqb word "") eqn:Hempty.
  - apply eqb_empty in Hempty. split; [done | by intros [? _]].
  - assert (word <> ""%string) as Hne.
    { intros ->. by rewrite String.eqb_refl in Hempty. }
    pose proof (data_at_build words (lower word)) as Hdata.
    unfold data_at, data in Hdata.
    destruct (walk (root (build words)) (lower word)) as [node|].
    + injection Hdata as -> _ _. rewrite bool_decide_eq_true. tauto.
    + injection Hdata as Hd _ _. symmetry in Hd.
      apply bool_decide_eq_false in Hd. split; [done | tauto].
Qed.

(** Counts and casing. The node at the end of a path is terminal exactly
    when a term inserted has that lowercase form; its [frequency] is the
    number of insertions of such terms and its [original_word] the last of
    them, in its own case. A path without a node has no such term. *)
Theorem node_records_insertions (words : list string) (path : list ascii) :
  match walk (root (build words)) path with
  | Some node =>
      is_end node = bool_decide (spelled path words <> []) /\
      frequency node = Z.of_nat (length (spelled path words)) /\
      original_word node = last (spelled path words)
  | None => spelled path words = []
  end.
Proof.
  pose proof (data_at_build words path) as Hdata. unfold data_at, data in Hdata.
  destruct (walk (root (build words)) path) as [node|].
  - by injection Hdata as -> -> ->.
  - injection Hdata as _ _ Hlen. by destruct (spelled path words).
Qed.

Lemma elem_of_distinct p words :
  p ∈ distinct words <-> spelled p words <> [].
Proof.
  unfold distinct. rewrite elem_of_list_to_set, list_elem_of_fmap, spelled_nonempty.
  unfold stored. split.
  - intros (word & -> & [Hb Hin]%list_elem_of_filter). by exists word.
  - intros (word & Hin & Hb & <-). exists word. split; [done |].
    by apply list_elem_of_filter.
Qed.

Lemma distinct_snoc words word :
  distinct (words ++ [word]) =
    distinct words ∪ (if blank word then ∅ else {[lower word]}).
Proof.
  unfold distinct, stored. rewrite filter_app, fmap_app, list_to_set_app_L.
  f_equal. rewrite filter_cons. destruct (blank word).
  - by rewrite decide_False.
  - rewrite decide_True by done. simpl. by rewrite union_empty_r_L.
Qed.

(** [len(trie)] is the number of different terms inserted, letter case
    apart; repeated insertions are counted once. *)
Theorem len_counts_distinct_words (words : list string) :
  __len__ (build words) = Z.of_nat (size (distinct words)).
Proof.
  unfold __len__. induction words as [|word words IH] using rev_ind; [done |].
  rewrite distinct_snoc. unfold build in *. rewrite foldl_snoc.
  unfold insert at 1. destruct (blank word) eqn:Hblank.
  { by rewrite union_empty_r_L. }
  pose proof (data_at_build words (lower word)) as Hdata.
  unfold data_at, data, build in Hdata. simpl.
  assert (match walk (root (foldl insert init words)) (lower word) with
          | Some node => is_end node
          | None => false
          end = bool_decide (spelled (lower word) words <> [])) as ->.
  { destruct (walk _ _); by injection Hdata as -> _ _. }
  rewrite IH. case_bool_decide as Hseen.
  - apply elem_of_distinct in Hseen.
    replace (distinct words ∪ {[lower word]}) with (distinct words); [done |].
    apply set_eq. intros x. rewrite elem_of_union, elem_of_singleton.
    split; [by left | intros [?| ->]; done].
  - assert (lower word ∉ distinct words) as Hnew
      by (rewrite elem_of_distinct; tauto).
    rewrite size_union by (by apply disjoint_singleton_r).
    rewrite size_singleton. lia.
Qed.

(** *** What suggestions are *)

Lemma terms_from node :
  forall x,
    x ∈ terms node ->
    exists path node',
      walk node path = Some node' /\ is_end node' = true /\
      x = (term_of node', frequency node').
Proof.
  induction node as [cs e w f IH] using node_ind. intros x.
  rewrite terms_unfold, elem_of_app. intros [Hhead|Hbelow].
  - destruct e; [|inversion Hhead].
    apply list_elem_of_singleton in Hhead as ->.
    by exists [], (Node cs true w f).
  - apply list_elem_of_In, in_flat_map in Hbelow as (c & _ & Hx).
    apply list_elem_of_In in Hx.
    rewrite (dict_get_map terms) in Hx.
    destruct (dict_get c cs) as [child|] eqn:Hchild; [|inversion Hx].
    simpl in Hx. rewrite Forall_forall in IH.
    destruct (IH (c, child) (dict_get_elem _ _ _ Hchild) x Hx)
      as (path & node' & Hwalk & Hend & ->).
    exists (c :: path), node'. simpl. by rewrite Hchild.
Qed.

Lemma elem_of_suggest node limit s :
  s ∈ suggest node limit -> exists freq, (s, freq) ∈ terms node.
Proof.
  unfold suggest. intros ([s' freq] & -> & Hin)%list_elem_of_fmap.
  exists freq. apply elem_of_take in Hin as (i & Hi%list_elem_of_lookup_2 & _).
  apply elem_of_sorted in Hi.
  by apply elem_of_take in Hi as (j & Hj%list_elem_of_lookup_2 & _).
Qed.

Lemma length_suggest node limit :
  (length (suggest node limit) <= Z.to_nat limit)%nat.
Proof. unfold suggest. rewrite length_fmap, length_take. lia. Qed.

(** Suggestions are terms of terminal nodes below the prefix. *)
Lemma suggestions_from_terminals (words : list string) (prefix : string)
    (limit : Z) :
  exists suggestions,
    get_suggestions (build words) prefix limit = Ret suggestions /\
    (length suggestions <= Z.to_nat limit)%nat /\
    forall s,
      s ∈ suggestions ->
      exists path node,
        walk (root (build words)) (lower prefix ++ path) = Some node /\
        is_end node = true /\ s = term_of node.
Proof.
  unfold get_suggestions.
  destruct (String.eqb prefix "") eqn:Hempty.
  { exists []. split_and!; [done | simpl; lia |]. intros s Hs. inversion Hs. }
  assert (prefix <> ""%string) as Hne.
  { intros ->. by rewrite String.eqb_refl in Hempty. }
  destruct (walk (root (build words)) (lower prefix)) as [node|] eqn:Hwalk.
  2:{ exists []. split_and!; [done | simpl; lia |]. intros s Hs. inversion Hs. }
  pose proof (get_suggestions_at (build words) prefix limit node
                (terminal_named_build words) Hne Hwalk) as Hget.
  unfold get_suggestions in Hget. rewrite Hempty, Hwalk in Hget.
  exists (suggest node limit). split; [exact Hget |].
  split; [apply length_suggest |].
  intros s (freq & Hterm)%elem_of_suggest.
  apply terms_from in Hterm as (path & node' & Hpath & Hend & [= -> _]).
  exists path, node'. split_and!; [|done..]. by rewrite walk_app, Hwalk.
Qed.

(** The term of a terminal node is the last spelling inserted for its
    path. *)
Lemma terminal_term_spelled (words : list string) path node :
  walk (root (build words)) path = Some node -> is_end node = true ->
  term_of node ∈ words /\ blank (term_of node) = false /\
  lower (term_of node) = path /\
  last (spelled path words) = Some (term_of node).
Proof.
  intros Hwalk Hend.
  pose proof (data_at_build words path) as Hnode.
  unfold data_at, data in Hnode. rewrite Hwalk in Hnode.
  injection Hnode as _ Hword _.
  unfold term_of. rewrite Hword.
  destruct (last (spelled path words)) as [word|] eqn:Hlast.
  2:{ pose proof (terminal_named_build words _ _ Hwalk Hend) as [? Hsome].
      congruence. }
  assert (word ∈ spelled path words) as Hin by (by apply last_Some_elem_of).
  unfold spelled, stored in Hin.
  apply list_elem_of_filter in Hin as [Hlower Hin].
  apply list_elem_of_filter in Hin as [Hblank Hin].
  done.
Qed.

(** Suggestions are sound. On any built trie [get_suggestions] returns,
    with at most [limit] suggestions; each is a term that was inserted and
    begins with the prefix, letter case apart, spelled as its last
    insertion spelled it. *)
Theorem suggestions_are_inserted_terms (words : list string)
    (prefix : string) (limit : Z) :
  exists suggestions,
    get_suggestions (build words) prefix limit = Ret suggestions /\
    (length suggestions <= Z.to_nat limit)%nat /\
    forall s,
      s ∈ suggestions ->
      s ∈ words /\ blank s = false /\ begins_with prefix s /\
      last (spelled (lower s) words) = Some s.
Proof.
  destruct (suggestions_from_terminals words prefix limit)
    as (suggestions & Hget & Hlen & Hfrom).
  exists suggestions. split_and!; [done | done |].
  intros s (path & node & Hwalk & Hend & ->)%Hfrom.
  destruct (terminal_term_spelled words _ node Hwalk Hend)
    as (Hin & Hblank & Hlower & Hlast).
  split_and!; [done | done | |].
  - unfold begins_with. rewrite Hlower. by apply prefix_app_r.
  - by rewrite Hlower.
Qed.

End TrieWordsFacts.

(** ** The caches of [managers.py] *)

Module ManagersFacts.
Import Managers.

(** *** Time *)

Lemma seconds_of_age (t d : datetime) :
  0 <= d < SECONDS_PER_DAY * MICROS_PER_SECOND ->
  seconds (datetime_sub (t + d) t) = d / MICROS_PER_SECOND.
Proof.
  unfold datetime_sub, SECONDS_PER_DAY, MICROS_PER_SECOND. simpl. intros Hd.
  replace (t + d - t) with d by lia.
  apply Z.mod_small. split.
  - apply Z.div_pos; lia.
  - apply Z.div_lt_upper_bound; lia.
Qed.

(** [timedelta.seconds] forgets whole days. *)
Lemma seconds_wraps (t d : datetime) :
  seconds (datetime_sub (t + d + SECONDS_PER_DAY * MICROS_PER_SECOND) t)
  = seconds (datetime_sub (t + d) t).
Proof.
  unfold datetime_sub, SECONDS_PER_DAY, MICROS_PER_SECOND. simpl.
  replace (t + d + 86400 * 1000000 - t) with (d + 86400 * 1000000) by lia.
  replace (t + d - t) with d by lia.
  rewrite Z.div_add by lia.
  rewrite <- (Z.mul_1_l 86400) at 1. by rewrite Z.mod_add by lia.
Qed.

(** Within the first day the check is the one of the specification: the
    entry is served exactly while its age is below the timeout. *)
Lemma fresh_within_a_day (timeout timestamp age : Z) :
  0 <= age < SECONDS_PER_DAY * MICROS_PER_SECOND ->
  seconds (datetime_sub (timestamp + age) timestamp) < timeout <->
  age < timeout * MICROS_PER_SECOND.
Proof.
  intros Hage. rewrite seconds_of_age by done. unfold MICROS_PER_SECOND.
  pose proof (Z.div_mod age 1000000 ltac:(lia)).
  pose proof (Z.mod_pos_bound age 1000000 ltac:(lia)). lia.
Qed.

Section Caches.
Context {Service Rating : Type}.
Variables is_active is_approved : Service -> bool.
Variable title : Service -> string.
Variable tags : Service -> option string.
Variable get_tags_list : Service -> list string.
Variable get_average_rating : Service -> Rating.
Variable get_review_count : Service -> Z.
Variables rating_eq rating_gt : Rating -> Rating -> bool.
Variable hash : string -> Z.

Abbreviation autocomplete :=
  (get_autocomplete_suggestions is_active is_approved title tags
     get_tags_list hash).
Abbreviation rebuild :=
  (_build_trie is_active is_approved title tags get_tags_list).
Abbreviation featured :=
  (get_featured_services is_active is_approved get_average_rating
     get_review_count rating_eq rating_gt hash).

Lemma contains_getitem {V} (m : HashMap.t (K:=string) (V:=V)) (key : string) :
  HashMap.__contains__ hash m key = Ret true ->
  exists value, HashMap.__getitem__ hash m key = Ret value.
Proof.
  unfold HashMap.__contains__, HashMap.__getitem__.
  destruct (HashMap._hash hash m key) as [index| |]; simpl; [|done..].
  destruct (py_index (HashMap._buckets m) index) as [node| |]; simpl; [|done..].
  intros [= Hsome%bool_decide_eq_true]. destruct Hsome as [value ->].
  by exists value.
Qed.

(** *** SearchEngine *)

(** C9. A query that is [None], empty or shorter than two characters is
    answered [[]] at once, and the engine (suggestions cache, trie and
    build time) is left as it was. *)
Theorem short_query_untouched (self : SearchEngine) (table : list Service)
    (now_check now_built : datetime) (query : option string) (limit : Z) :
  match query with
  | None => True
  | Some query => (String.length query < 2)%nat
  end ->
  autocomplete self table now_check now_built query limit = Ret ([], self).
Proof.
  destruct query as [query|]; [|done]. intros Hshort.
  unfold get_autocomplete_suggestions, len.
  destruct (Z.ltb_spec (Z.of_nat (String.length query)) 2) as [_|Hge]; [|lia].
  by rewrite orb_true_r.
Qed.

Lemma long_query (query : string) :
  (2 <= String.length query)%nat ->
  String.eqb query "" || (len query <? 2) = false.
Proof.
  intros Hlen. unfold len. apply orb_false_iff. split.
  - apply String.eqb_neq. intros ->. simpl in Hlen. lia.
  - apply Z.ltb_ge. lia.
Qed.

Lemma cache_after_rebuild (self : SearchEngine) (table : list Service)
    (now : datetime) :
  suggestions_cache (rebuild self table now) = suggestions_cache self.
Proof. reflexivity. Qed.

Lemma autocomplete_hit (self : SearchEngine) (table : list Service)
    (now_check now_built : datetime) (query : string) (limit : Z)
    (cached : list string) :
  (2 <= String.length query)%nat ->
  HashMap.__contains__ hash (suggestions_cache self)
    (string_of_list_ascii (lower query)) = Ret true ->
  HashMap.__getitem__ hash (suggestions_cache self)
    (string_of_list_ascii (lower query)) = Ret cached ->
  autocomplete self table now_check now_built (Some query) limit
  = Ret (cached, self).
Proof.
  intros Hlen Hin Hget. unfold get_autocomplete_suggestions.
  rewrite long_query by done. rewrite Hin, bind_Ret, Hget. done.
Qed.

(** C3, as the code has it: a query of at least two characters whose
    lowercased form is in the suggestions cache is answered from the cache
    whatever the time, the catalog and the limit; and rebuilding the trie
    leaves the cache as it was, so that after a rebuild the query is still
    answered from the cache. *)
Theorem cached_query_served (self : SearchEngine) (query : string) :
  (2 <= String.length query)%nat ->
  HashMap.__contains__ hash (suggestions_cache self)
    (string_of_list_ascii (lower query)) = Ret true ->
  exists cached,
    HashMap.__getitem__ hash (suggestions_cache self)
      (string_of_list_ascii (lower query)) = Ret cached /\
    (forall table now_check now_built limit,
       autocomplete self table now_check now_built (Some query) limit
       = Ret (cached, self)) /\
    (forall table' now' table now_check now_built limit,
       suggestions_cache (rebuild self table' now') = suggestions_cache self /\
       autocomplete (rebuild self table' now') table now_check now_built
         (Some query) limit
       = Ret (cached, rebuild self table' now')).
Proof.
  intros Hlen Hin. destruct (contains_getitem _ _ Hin) as [cached Hget].
  exists cached. split; [done |]. split.
  - intros. by apply autocomplete_hit.
  - intros. split; [done |]. by apply autocomplete_hit.
Qed.

(** *** ServiceManager *)

Lemma featured_hit (self : ServiceManager) (table : list Service)
    (now_read now_store : datetime) (limit : Z)
    (cached_data : list Service) (timestamp : datetime) :
  HashMap.__contains__ hash (_cache self) (featured_key limit) = Ret true ->
  HashMap.__getitem__ hash (_cache self) (featured_key limit)
    = Ret (cached_data, timestamp) ->
  seconds (datetime_sub now_read timestamp) < _cache_timeout self ->
  featured self table now_read now_store limit = Ret (cached_data, self).
Proof.
  intros Hin Hget Hfresh. unfold get_featured_services.
  rewrite Hin, bind_Ret, Hget, bind_Ret.
  by destruct (Z.ltb_spec (seconds (datetime_sub now_read timestamp))
                 (_cache_timeout self)); [|lia].
Qed.

(** An entry that is a day older than a fresh one is served like it. *)
Lemma featured_stale_served (self : ServiceManager) (table : list Service)
    (now_store : datetime) (limit : Z) (cached_data : list Service)
    (timestamp age : datetime) :
  HashMap.__contains__ hash (_cache self) (featured_key limit) = Ret true ->
  HashMap.__getitem__ hash (_cache self) (featured_key limit)
    = Ret (cached_data, timestamp) ->
  0 <= age < _cache_timeout self * MICROS_PER_SECOND ->
  _cache_timeout self <= SECONDS_PER_DAY ->
  featured self table
    (timestamp + age + SECONDS_PER_DAY * MICROS_PER_SECOND) now_store limit
  = Ret (cached_data, self).
Proof.
  intros Hin Hget Hage Hday. apply (featured_hit _ _ _ _ _ _ timestamp);
    [done | done |].
  rewrite seconds_wraps. apply fresh_within_a_day; [|lia].
  unfold SECONDS_PER_DAY, MICROS_PER_SECOND in *. lia.
Qed.

End Caches.

(** *** Runs on the small catalog *)

(** The witness of C9: the one-character query ["p"] on a new engine. *)
Lemma short_query_untouched_witness :
  Scenario.autocomplete new_search_engine [Scenario.python] 0 0
    (Some "p"%string) 5
  = Ret ([], new_search_engine).
Proof.
  apply (short_query_untouched (fun _ => true) (fun _ => true)
           Scenario.row_title (fun _ => None) (fun _ => [])
           Scenario.length_hash new_search_engine [Scenario.python] 0 0
           (Some "p"%string) 5).
  simpl. lia.
Defined.

(** The witness of C3: the query ["py"], cached by an earlier call. *)
Lemma cached_query_served_witness :
  exists cached,
    HashMap.__getitem__ Scenario.length_hash
      (suggestions_cache Scenario.engine_with_py)
      (string_of_list_ascii (lower "py")) = Ret cached /\
    (forall table now_check now_built limit,
       Scenario.autocomplete Scenario.engine_with_py table now_check now_built
         (Some "py"%string) limit
       = Ret (cached, Scenario.engine_with_py)) /\
    (forall table' now' table now_check now_built limit,
       suggestions_cache (Scenario.rebuild Scenario.engine_with_py table' now')
       = suggestions_cache Scenario.engine_with_py /\
       Scenario.autocomplete (Scenario.rebuild Scenario.engine_with_py table' now')
         table now_check now_built (Some "py"%string) limit
       = Ret (cached, Scenario.rebuild Scenario.engine_with_py table' now')).
Proof.
  apply (cached_query_served (fun _ => true) (fun _ => true)
           Scenario.row_title (fun _ => None) (fun _ => [])
           Scenario.length_hash Scenario.engine_with_py "py"%string).
  - simpl. lia.
  - reflexivity.
Defined.

(** C3 as stated fails: ["py"] is cached as [["Python"]], the catalog
    changes, the trie is rebuilt, and the query is still answered
    [["Python"]] where the rebuilt index gives [["Pyramid"]]. *)
Lemma cached_query_survives_rebuild :
  Scenario.ask_rebuild_ask
  = Ret (["Python"%string], Ret ["Pyramid"%string]).
Proof. reflexivity. Qed.

(** C1, on the failing input: the list cached at time 0 is served again
    86410 seconds later, although the catalog has changed and the entry is
    far older than the 300 seconds of the timeout; at 310 seconds it is
    recomputed. *)
Theorem featured_served_after_a_day :
  Scenario.featured_twice 86410
    = Ret ([Scenario.pyramid], [Scenario.pyramid]) /\
  Scenario.featured_twice 310
    = Ret ([Scenario.pyramid], [Scenario.python]) /\
  Scenario.featured_twice 299
    = Ret ([Scenario.pyramid], [Scenario.pyramid]).
Proof. repeat split. Qed.

End ManagersFacts.

(** ** The caches over the life of the managers *)

Module SessionsFacts.
Import Managers Sessions ManagersFacts.
Import HashMapModel HashMapFacts.
Section Lives.
Context {Service Rating : Type}.
Variables is_active is_approved : Service -> bool.
Variable title : Service -> string.
Variable tags : Service -> option string.
Variable get_tags_list : Service -> list string.
Variable get_average_rating : Service -> Rating.
Variable get_review_count : Service -> Z.
Variables rating_eq rating_gt : Rating -> Rating -> bool.
Variable hash : string -> Z.

Abbreviation autocomplete :=
  (get_autocomplete_suggestions is_active is_approved title tags
     get_tags_list hash).
Abbreviation rebuild :=
  (_build_trie is_active is_approved title tags get_tags_list).
Abbreviation featured :=
  (get_featured_services is_active is_approved get_average_rating
     get_review_count rating_eq rating_gt hash).
Abbreviation engine_of :=
  (Sessions.engine_of is_active is_approved title tags get_tags_list hash).
Abbreviation manager_of :=
  (Sessions.manager_of is_active is_approved get_average_rating
     get_review_count rating_eq rating_gt hash).

(** *** SearchEngine *)

Lemma index_service_terms (trie : Trie.t) (service : Service) :
  index_service title tags get_tags_list trie service
  = foldl Trie.insert trie (terms_of title tags get_tags_list service).
Proof. unfold index_service, terms_of. by destruct (truthy (tags service)). Qed.

Lemma build_trie_terms (rows : list Service) :
  forall trie,
    foldl (index_service title tags get_tags_list) trie rows
    = foldl Trie.insert trie (flat_map (terms_of title tags get_tags_list) rows).
Proof.
  induction rows as [|row rows IH]; intros trie; simpl; [done |].
  by rewrite IH, foldl_app, index_service_terms.
Qed.

Lemma trie_of_rebuild (self : SearchEngine) table now :
  _trie (rebuild self table now)
  = TrieModel.build (catalog_terms is_active is_approved title tags
                       get_tags_list table).
Proof. unfold _build_trie. simpl. apply build_trie_terms. Qed.

Lemma length_lower (s : string) : length (lower s) = String.length s.
Proof.
  unfold lower, chars. rewrite length_map.
  induction s as [|c s IH]; simpl; [done | by rewrite IH].
Qed.

Lemma short_query (query : string) :
  String.eqb query "" || (len query <? 2) = true ->
  (String.length query < 2)%nat.
Proof.
  intros [Hempty|Hshort]%orb_true_iff.
  - apply String.eqb_eq in Hempty as ->. simpl. lia.
  - unfold len in Hshort. apply Z.ltb_lt in Hshort. lia.
Qed.

Lemma short_query_iff (query : string) :
  String.eqb query "" || (len query <? 2) = true <->
  (String.length query < 2)%nat.
Proof.
  split; [apply short_query |]. intros Hshort. apply orb_true_iff. right.
  unfold len. apply Z.ltb_lt. lia.
Qed.

Lemma ensure_fresh_ok (self : SearchEngine) table now_check now_built :
  engine_ok hash self ->
  engine_ok hash (_ensure_trie_fresh is_active is_approved title tags
                    get_tags_list self table now_check now_built) /\
  suggestions_cache (_ensure_trie_fresh is_active is_approved title tags
                       get_tags_list self table now_check now_built)
  = suggestions_cache self.
Proof.
  intros (Hwf & Hload & Hwords & Hbegin).
  assert (engine_ok hash (rebuild self table now_built)) as Hrebuilt.
  { split_and!; [done | done | | done].
    eexists. apply trie_of_rebuild. }
  unfold _ensure_trie_fresh. destruct (_trie_built_at self) as [built_at|].
  - destruct (_ <? _); [done |]. by split_and!.
  - done.
Qed.

(** One query on an engine in order. *)
Lemma autocomplete_ok (self : SearchEngine) table now_check now_built
    (query : string) limit :
  engine_ok hash self ->
  exists out self',
    autocomplete self table now_check now_built (Some query) limit
      = Ret (out, self') /\
    engine_ok hash self' /\
    (forall s, s ∈ out -> TrieModel.begins_with query s) /\
    if String.eqb query "" || (len query <? 2)
    then out = [] /\ self' = self
    else find hash (suggestions_cache self')
           (string_of_list_ascii (lower query)) = Some out.
Proof.
  intros Hok. pose proof Hok as (Hwf & Hload & Hwords & Hbegin).
  unfold get_autocomplete_suggestions.
  destruct (String.eqb query "" || (len query <? 2)) eqn:Hshort.
  { exists [], self. split_and!; [done | done | | done | done].
    intros s Hs. inversion Hs. }
  set (key := string_of_list_ascii (lower query)).
  rewrite contains_wf by done.
  destruct (find hash (suggestions_cache self) key) as [cached|] eqn:Hfind.
  - rewrite bool_decide_eq_true_2 by done. rewrite bind_Ret.
    rewrite getitem_wf, Hfind by done. rewrite bind_Ret.
    exists cached, self. split_and!; [done | done | | done].
    intros s Hs. specialize (Hbegin key cached Hfind s Hs).
    unfold key, chars in Hbegin.
    by rewrite list_ascii_of_string_of_list_ascii in Hbegin.
  - rewrite bool_decide_eq_false_2 by (by intros [? ?]). rewrite bind_Ret.
    destruct (ensure_fresh_ok self table now_check now_built Hok)
      as [(Hwf1 & Hload1 & [words Hwords1] & Hbegin1) Hcache].
    set (self1 := _ensure_trie_fresh is_active is_approved title tags
                    get_tags_list self table now_check now_built) in *.
    rewrite Hwords1.
    destruct (TrieWordsFacts.suggestions_from_terminals words query limit)
      as (result & -> & _ & Hfrom).
    assert (forall s, s ∈ result -> TrieModel.begins_with query s) as Hsound.
    { intros s (path & node & Hwalk & Hend & ->)%Hfrom.
      destruct (TrieWordsFacts.terminal_term_spelled words _ node Hwalk Hend)
        as (_ & _ & Hlower & _).
      unfold TrieModel.begins_with. rewrite Hlower. by apply prefix_app_r. }
    rewrite bind_Ret.
    destruct (setitem_wf hash (suggestions_cache self1) key result Hwf1 Hload1)
      as (cache' & -> & Hwf' & Hload' & Hfind').
    rewrite bind_Ret. eexists _, _. split; [done |].
    split_and!; simpl.
    + split_and!; simpl; [done | done | by exists words |].
      intros key' answer. rewrite Hfind'.
      destruct (decide (key = key')) as [<-|Hne].
      * intros [= <-] s Hs. unfold key, chars.
        rewrite list_ascii_of_string_of_list_ascii. by apply Hsound.
      * apply Hbegin1.
    + intros s Hs. by apply Hsound.
    + rewrite Hfind'. by rewrite decide_True.
Qed.

Lemma engine_after_ok (self : SearchEngine) ev :
  engine_ok hash self ->
  engine_ok hash
    (engine_after is_active is_approved title tags get_tags_list hash self ev).
Proof.
  intros Hok. destruct ev as [table now_check now_built [query|] limit|table now];
    unfold engine_after.
  - by destruct (autocomplete_ok self table now_check now_built query limit Hok)
      as (out & self' & -> & Hok' & _).
  - done.
  - destruct Hok as (Hwf & Hload & Hwords & Hbegin).
    split_and!; [done | done | | done]. eexists. apply trie_of_rebuild.
Qed.

Lemma new_search_engine_ok : engine_ok hash new_search_engine.
Proof.
  split_and!; simpl.
  - apply (wf_init hash).
  - apply (wf_init hash).
  - by exists [].
  - intros key answer. by rewrite (find_init hash key).
Qed.

Lemma engine_of_ok evs : engine_ok hash (engine_of evs).
Proof.
  unfold Sessions.engine_of. induction evs as [|ev evs IH] using rev_ind.
  - apply new_search_engine_ok.
  - rewrite foldl_snoc. by apply engine_after_ok.
Qed.


(** *** ServiceManager *)

(** One call on a manager in order. *)
Lemma featured_ok (self : ServiceManager) table now_read now_store limit :
  manager_ok is_active is_approved hash self ->
  exists out self' stamp,
    featured self table now_read now_store limit = Ret (out, self') /\
    manager_ok is_active is_approved hash self' /\
    find hash (_cache self') (featured_key limit) = Some (out, stamp) /\
    (self' = self /\ find hash (_cache self) (featured_key limit) = Some (out, stamp) \/
     stamp = now_store /\
     exists rest,
       out ++ rest ≡ₚ active_approved is_active is_approved table /\
       Z.of_nat (length out)
       = Z.max 0 (Z.min limit
                    (Z.of_nat (length (active_approved is_active is_approved table))))).
Proof.
  intros Hok. pose proof Hok as (Hwf & Hload & Htimeout & Hlisted).
  set (key := featured_key limit).
  set (score := fun s : Service => (get_average_rating s, get_review_count s)).
  destruct (MaxHeapAnyFacts.nlargest_any (score_gt rating_eq rating_gt) score
              (Some score) limit (active_approved is_active is_approved table))
    as (out & rest & Hlargest & Hperm & Hlen).
  destruct (setitem_wf hash (_cache self) key (out, now_store) Hwf Hload)
    as (cache' & Hset & Hwf' & Hload' & Hfind').
  assert (exists self',
             (featured0 ← MaxHeap.nlargest (score_gt rating_eq rating_gt) score
                            limit (active_approved is_active is_approved table)
                            (Some score);
              cache ← HashMap.__setitem__ hash (_cache self) key
                        (featured0, now_store);
              Ret (featured0, BuildServiceManager cache (_cache_timeout self)))
             = Ret (out, self') /\
             manager_ok is_active is_approved hash self' /\
             find hash (_cache self') key = Some (out, now_store)) as Hcompute.
  { eexists. rewrite Hlargest, bind_Ret, Hset, bind_Ret. split; [done |].
    split; simpl.
    - split_and!; simpl; [done | done | done |].
      intros key' answer. rewrite Hfind'.
      destruct (decide (key = key')) as [<-|Hne]; [|apply Hlisted].
      intros [= <-] s Hs. simpl in Hs.
      assert (s ∈ active_approved is_active is_approved table) as Hin.
      { rewrite <- Hperm. apply elem_of_app. by left. }
      unfold active_approved in Hin. apply list_elem_of_filter in Hin as [Hin _].
      by apply andb_true_iff in Hin.
    - rewrite Hfind'. by rewrite decide_True. }
  destruct Hcompute as (self' & Hcompute & Hok' & Hfound).
  unfold get_featured_services. fold key. fold score.
  rewrite contains_wf by done.
  destruct (find hash (_cache self) key) as [[cached timestamp]|] eqn:Hfind.
  - rewrite bool_decide_eq_true_2 by done. rewrite bind_Ret.
    rewrite getitem_wf, Hfind by done. rewrite bind_Ret.
    destruct (seconds (datetime_sub now_read timestamp) <? _cache_timeout self).
    + exists cached, self, timestamp. split_and!; [done | done | done |].
      left. done.
    + exists out, self', now_store. split_and!; [done | done | done |].
      right. split; [done |]. by exists rest.
  - rewrite bool_decide_eq_false_2 by (by intros [? ?]). rewrite bind_Ret.
    exists out, self', now_store. split_and!; [done | done | done |].
    right. split; [done |]. by exists rest.
Qed.

Lemma cleared_ok (self : ServiceManager) :
  _cache_timeout self = 300 ->
  manager_ok is_active is_approved hash
    (BuildServiceManager (HashMap.clear (_cache self)) (_cache_timeout self)) /\
  forall key,
    find hash (HashMap.clear (_cache self)) key = None.
Proof.
  intros Htimeout. unfold HashMap.clear.
  assert (forall key,
             find hash (HashMap.init : HashMap.t (K:=string)
                                         (V:=list Service * datetime)) key = None)
    as Hnone by (intros key; apply find_init).
  split; [|exact Hnone]. split_and!; simpl.
  - apply (wf_init hash).
  - apply (wf_init hash).
  - done.
  - intros key answer Hfind. exfalso.
    pose proof (Hnone key) as Hk. unfold HashMap.init in Hk. congruence.
Qed.

Lemma manager_after_ok (self : ServiceManager) ev :
  manager_ok is_active is_approved hash self ->
  manager_ok is_active is_approved hash
    (manager_after is_active is_approved get_average_rating get_review_count
       rating_eq rating_gt hash self ev).
Proof.
  intros Hok. destruct ev as [table now_read now_store limit|];
    unfold manager_after.
  - by destruct (featured_ok self table now_read now_store limit Hok)
      as (out & self' & stamp & -> & Hok' & _).
  - apply cleared_ok. apply Hok.
Qed.

Lemma new_service_manager_ok :
  manager_ok is_active is_approved hash (new_service_manager (Service:=Service)).
Proof.
  split_and!; simpl.
  - apply (wf_init hash).
  - apply (wf_init hash).
  - done.
  - intros key answer. by rewrite (find_init hash key).
Qed.

Lemma manager_of_ok evs : manager_ok is_active is_approved hash (manager_of evs).
Proof.
  unfold Sessions.manager_of. induction evs as [|ev evs IH] using rev_ind.
  - apply new_service_manager_ok.
  - rewrite foldl_snoc. by apply manager_after_ok.
Qed.

(** The featured list is kept for its time. On the manager reached by any
    calls and cache clearings, [get_featured_services] returns active,
    approved services only, either the list the cache holds for the limit
    or, computed from the catalog and stored with the second clock
    reading, [min(limit, n)] of its [n] active, approved services; and any
    later call for the limit whose clock reads less than 300 in the
    [seconds] of its difference to the stored time is answered with the
    same list, whatever the catalog then is. *)
Theorem featured_list_is_kept (evs : list manager_event)
    (table : list Service) (now_read now_store : datetime) (limit : Z) :
  exists out self' stamp,
    featured (manager_of evs) table now_read now_store limit = Ret (out, self') /\
    HashMap.__getitem__ hash (_cache self') (featured_key limit)
      = Ret (out, stamp) /\
    (forall s, s ∈ out -> is_active s = true /\ is_approved s = true) /\
    (self' = manager_of evs \/
     stamp = now_store /\
     exists rest,
       out ++ rest ≡ₚ active_approved is_active is_approved table /\
       Z.of_nat (length out)
       = Z.max 0 (Z.min limit
                    (Z.of_nat (length (active_approved is_active is_approved table))))) /\
    forall table' now_read' now_store',
      seconds (datetime_sub now_read' stamp) < 300 ->
      featured self' table' now_read' now_store' limit = Ret (out, self').
Proof.
  destruct (featured_ok (manager_of evs) table now_read now_store limit
              (manager_of_ok evs))
    as (out & self' & stamp & Hcall & Hok & Hfind & Hcase).
  pose proof Hok as (Hwf & _ & Htimeout & Hlisted).
  assert (HashMap.__getitem__ hash (_cache self') (featured_key limit)
          = Ret (out, stamp)) as Hget by (by rewrite getitem_wf, Hfind).
  exists out, self', stamp. split_and!; [done | done | | | ].
  - intros s Hs. by apply (Hlisted _ _ Hfind).
  - destruct Hcase as [[-> _]|Hcomputed]; [by left | by right].
  - intros table' now_read' now_store' Hfresh.
    apply (featured_hit is_active is_approved get_average_rating
             get_review_count rating_eq rating_gt hash self' table'
             now_read' now_store' limit out stamp).
    + rewrite contains_wf, Hfind by done. by rewrite bool_decide_eq_true_2.
    + done.
    + by rewrite Htimeout.
Qed.

(** Clearing the cache forces a fresh list. After [self._cache.clear()],
    as creating, approving or rejecting a service and adding a review do,
    the next [get_featured_services] does not answer from the cache,
    whatever the clock reads: it returns [min(limit, n)] of the [n] active,
    approved services of the catalog as it then is. *)
Theorem cleared_cache_is_recomputed (evs : list manager_event)
    (table : list Service) (now_read now_store : datetime) (limit : Z) :
  exists out self' rest,
    featured (manager_of (evs ++ [CacheCleared])) table now_read now_store limit
      = Ret (out, self') /\
    out ++ rest ≡ₚ active_approved is_active is_approved table /\
    Z.of_nat (length out)
    = Z.max 0 (Z.min limit
                 (Z.of_nat (length (active_approved is_active is_approved table)))) /\
    HashMap.__getitem__ hash (_cache self') (featured_key limit)
      = Ret (out, now_store).
Proof.
  destruct (featured_ok (manager_of (evs ++ [CacheCleared])) table now_read
              now_store limit (manager_of_ok _))
    as (out & self' & stamp & Hcall & Hok & Hfind & Hcase).
  destruct Hcase as [[_ Hold]|[-> (rest & Hperm & Hlen)]].
  - exfalso. unfold Sessions.manager_of in Hold. rewrite foldl_snoc in Hold.
    simpl in Hold.
    destruct (cleared_ok (manager_of evs)) as [_ Hnone].
    { apply (manager_of_ok evs). }
    rewrite Hnone in Hold. done.
  - exists out, self', rest. split_and!; [done | done | done |].
    destruct Hok as (Hwf & _). by rewrite getitem_wf, Hfind.
Qed.

End Lives.
End SessionsFacts.

(** ** Queue *)

Module QueueFacts.
Import Queue QueueModel.
Section Queues.
Context {V : Type}.

Abbreviation queue := (Queue.t (V:=V)).
Abbreviation store := (list (_QueueNode (V:=V))).

Lemma deref_Some (objects : store) ref node :
  objects !! ref = Some node -> deref objects ref = Ret node.
Proof. unfold deref. by intros ->. Qed.

Lemma linked_length (objects : store) first refs values :
  linked objects first refs values -> length refs = length values.
Proof. induction 1; simpl; congruence. Qed.

Lemma linked_None (objects : store) refs values :
  linked objects None refs values -> refs = [] /\ values = [].
Proof. by inversion 1. Qed.

(** Nodes created later do not disturb a chain. *)
Lemma linked_app (objects more : store) first refs values :
  linked objects first refs values ->
  linked (objects ++ more) first refs values.
Proof.
  induction 1 as [|ref v nxt refs values Href _ IH]; [constructor |].
  econstructor; [by apply lookup_app_l_Some | done].
Qed.

(** The assignment [rear.next = new_node] extends the chain by the new
    node. *)
Lemma linked_snoc (objects : store) first refs values rear v_rear new v :
  linked objects first refs values ->
  last refs = Some rear ->
  NoDup refs ->
  objects !! rear = Some (Node v_rear None) ->
  objects !! new = Some (Node v None) ->
  new ∉ refs ->
  linked (<[rear := Node v_rear (Some new)]> objects) first
         (refs ++ [new]) (values ++ [v]).
Proof.
  intros Hlinked. revert rear v_rear.
  induction Hlinked as [|ref v0 nxt refs values Href Hrest IH];
    intros rear v_rear Hlast Hnd Hrear Hnew Hfresh; [done |].
  apply NoDup_cons in Hnd as [Href_fresh Hnd].
  apply not_elem_of_cons in Hfresh as [Hne Hfresh].
  destruct refs as [|ref' refs].
  - simpl in Hlast. injection Hlast as ->.
    inversion Hrest; subst.
    rewrite Hrear in Href. injection Href as ->.
    simpl. econstructor.
    + apply list_lookup_insert_eq. by eapply lookup_lt_Some.
    + econstructor; [|constructor].
      rewrite list_lookup_insert_ne by done. exact Hnew.
  - assert (last (ref' :: refs) = Some rear) as Hlast' by done.
    assert (ref <> rear) as Hne'.
    { intros ->. apply Href_fresh. by apply last_Some_elem_of. }
    simpl. econstructor.
    + rewrite list_lookup_insert_ne by done. exact Href.
    + by apply (IH rear v_rear).
Qed.

Lemma holds_init : holds (init : queue) [].
Proof.
  exists []. split_and!; [constructor | done | constructor | constructor | done | done].
Qed.

Lemma enqueue_holds (self : queue) values v :
  holds self values ->
  exists self', enqueue self v = Ret self' /\ holds self' (values ++ [v]).
Proof.
  intros (refs & Hlinked & Hrear & Hnd & Hbound & Hlen & Hsize).
  unfold enqueue. set (new := length (objects self)).
  assert (new ∉ refs) as Hfresh.
  { intros Hin. rewrite Forall_forall in Hbound. specialize (Hbound _ Hin).
    unfold new in Hbound. lia. }
  assert ((objects self ++ [Node v None]) !! new = Some (Node v None)) as Hnew.
  { unfold new. by rewrite list_lookup_middle. }
  destruct (_rear self) as [rear|] eqn:Hr.
  - symmetry in Hrear.
    assert (rear ∈ refs) as Hrear_in by (by apply last_Some_elem_of).
    assert (exists v_rear, objects self !! rear = Some (Node v_rear None))
      as [v_rear Hnode].
    { clear -Hlinked Hrear. induction Hlinked as [|ref v0 nxt refs values Href Hrest IH];
        [done |].
      destruct refs as [|ref' refs].
      - injection Hrear as ->. inversion Hrest; subst. by exists v0.
      - by apply IH. }
    rewrite (deref_Some _ _ (Node v_rear None)) by (by apply lookup_app_l_Some).
    rewrite bind_Ret. eexists. split; [done |].
    exists (refs ++ [new]). simpl. split_and!.
    + apply (linked_snoc _ _ _ _ rear v_rear new v); try done.
      * by apply linked_app.
      * by apply lookup_app_l_Some.
    + by rewrite last_snoc.
    + apply NoDup_app. split_and!; [done | | apply NoDup_singleton].
      intros x Hx [->|Hin]%elem_of_cons; [done | inversion Hin].
    + rewrite length_insert, length_app. simpl. apply Forall_app. split.
      * eapply Forall_impl; [exact Hbound |]. simpl. intros. lia.
      * constructor; [fold new; lia | constructor].
    + rewrite length_insert, !length_app. simpl. lia.
    + rewrite length_app. simpl. lia.
  - assert (refs = []) as ->.
    { destruct refs as [|ref refs] using rev_ind; [done |].
      by rewrite last_snoc in Hrear. }
    inversion Hlinked as [Hfront Hrefs Hvalues|]; subst.
    eexists. split; [done |]. exists [new]. simpl. split_and!.
    + econstructor; [exact Hnew | constructor].
    + done.
    + apply NoDup_singleton.
    + constructor; [rewrite length_app; simpl; fold new; lia | constructor].
    + rewrite length_app. simpl. lia.
    + simpl in *. lia.
Qed.

Lemma dequeue_empty (self : queue) :
  holds self [] -> dequeue self = Raise IndexError.
Proof.
  intros (refs & Hlinked & _). unfold dequeue.
  inversion Hlinked as [Hfront|]; subst. try rewrite <- Hfront; done.
Qed.

Lemma dequeue_holds (self : queue) v values :
  holds self (v :: values) ->
  exists self', dequeue self = Ret (v, self') /\ holds self' values.
Proof.
  intros (refs & Hlinked & Hrear & Hnd & Hbound & Hlen & Hsize).
  unfold dequeue.
  inversion Hlinked as [|ref v0 nxt refs' values' Href Hrest Hfront]; subst.
  rewrite (deref_Some _ _ _ Href), bind_Ret. simpl.
  eexists. split; [done |].
  apply NoDup_cons in Hnd as [_ Hnd]. apply Forall_cons in Hbound as [_ Hbound].
  exists refs'. simpl in *. split_and!; [done | | done | done | lia | lia].
  destruct nxt as [ref'|].
  - inversion Hrest; subst. by rewrite Hrear.
  - by apply linked_None in Hrest as [-> _].
Qed.

Lemma to_list_loop_linked (objects : store) first refs values :
  linked objects first refs values ->
  forall fuel result,
    (length refs <= fuel)%nat ->
    to_list_loop fuel objects first result = Ret (result ++ values).
Proof.
  induction 1 as [|ref v nxt refs values Href _ IH]; intros fuel result Hfuel.
  - destruct fuel; simpl; by rewrite app_nil_r.
  - destruct fuel as [|fuel]; [simpl in Hfuel; lia |].
    simpl. rewrite (deref_Some _ _ _ Href), bind_Ret. simpl.
    rewrite IH by (simpl in Hfuel; lia). by rewrite <- app_assoc.
Qed.

Lemma after_holds (self : queue) values (o : @op V) :
  holds self values -> holds (after self o) (list_after values o).
Proof.
  intros Hholds. unfold after. destruct o as [v|]; simpl.
  - by destruct (enqueue_holds self values v Hholds) as (self' & -> & Hholds').
  - destruct values as [|v values].
    + by rewrite dequeue_empty.
    + by destruct (dequeue_holds self v values Hholds) as (self' & -> & Hholds').
Qed.

Lemma run_holds (ops : list (@op V)) : holds (run ops) (list_of ops).
Proof.
  unfold run, list_of. generalize (holds_init). generalize (init : queue).
  generalize ([] : list V).
  induction ops as [|o ops IH]; intros values self Hholds; simpl; [done |].
  apply IH. by apply after_holds.
Qed.

(** First in, first out. After any sequence of [enqueue] and [dequeue] on
    [Queue()], [to_list] gives the values enqueued and not yet dequeued,
    oldest first, and [__len__] their number; [dequeue] and [peek] return
    the oldest of them, or raise [IndexError] when there is none, and
    [is_empty] tells which; [enqueue] always returns. *)
Theorem queue_is_fifo (ops : list (@op V)) :
  to_list (run ops) = Ret (list_of ops) /\
  __len__ (run ops) = Z.of_nat (length (list_of ops)) /\
  is_empty (run ops) = bool_decide (list_of ops = []) /\
  match list_of ops with
  | [] =>
      dequeue (run ops) = Raise IndexError /\
      peek (run ops) = Raise IndexError
  | oldest :: _ =>
      (exists self', dequeue (run ops) = Ret (oldest, self')) /\
      peek (run ops) = Ret oldest
  end /\
  (forall value, exists self', enqueue (run ops) value = Ret self').
Proof.
  pose proof (run_holds ops) as Hholds.
  destruct Hholds as (refs & Hlinked & Hrear & Hnd & Hbound & Hlen & Hsize) eqn:Hh.
  split_and!.
  - unfold to_list. by rewrite (to_list_loop_linked _ _ _ _ Hlinked).
  - done.
  - unfold is_empty. inversion Hlinked as [Hfront Hrefs Hvalues|]; subst; done.
  - destruct (list_of ops) as [|oldest values] eqn:Hlist.
    + split; [by apply dequeue_empty |].
      unfold peek. inversion Hlinked as [Hfront|]; subst. try rewrite <- Hfront; done.
    + split.
      * destruct (dequeue_holds (run ops) oldest values) as (self' & Hdq & _);
          [by eexists |]. by exists self'.
      * unfold peek.
        inversion Hlinked as [|ref v0 nxt refs' values' Href Hrest Hfront]; subst.
        by rewrite (deref_Some _ _ _ Href).
  - intros value.
    destruct (enqueue_holds (run ops) (list_of ops) value) as (self' & Henq & _);
      [by eexists |]. by exists self'.
Qed.

(** [_front] and [_rear] are both [None] exactly when the queue is empty,
    and otherwise [_rear] is a node whose [next] is [None]. *)
Theorem front_rear_both_none (ops : list (@op V)) :
  (_front (run ops) = None <-> list_of ops = []) /\
  (_rear (run ops) = None <-> list_of ops = []) /\
  (forall rear, _rear (run ops) = Some rear ->
     exists v, objects (run ops) !! rear = Some (Node v None)).
Proof.
  destruct (run_holds ops) as (refs & Hlinked & Hrear & Hnd & Hbound & Hlen & Hsize).
  pose proof (linked_length _ _ _ _ Hlinked) as Hlength.
  split_and!.
  - inversion Hlinked; subst; done.
  - rewrite Hrear. destruct refs as [|ref refs] using rev_ind.
    + by destruct (list_of ops).
    + rewrite last_snoc. split; [done |]. intros Hnil. rewrite Hnil in Hlength.
      rewrite length_app in Hlength. simpl in Hlength. lia.
  - intros rear Hr. rewrite Hrear in Hr. clear -Hlinked Hr.
    induction Hlinked as [|ref v0 nxt refs values Href Hrest IH]; [done |].
    destruct refs as [|ref' refs].
    + injection Hr as ->. inversion Hrest; subst. by exists v0.
    + by apply IH.
Qed.

End Queues.
End QueueFacts.

(** ** ReviewSystem *)

Module ReviewsFacts.
Import Managers Reviews Sessions ReviewsModel SessionsFacts.
Import HashMapModel.

Lemma no_ratings_lookup (r : Z) :
  no_ratings !! r = if decide (1 <= r <= 5) then Some 0 else None.
Proof.
  unfold no_ratings.
  destruct (decide (1 <= r <= 5)) as [Hr|Hr].
  - assert (r = 1 \/ r = 2 \/ r = 3 \/ r = 4 \/ r = 5) as Hcases by lia.
    destruct Hcases as [->|[->|[->|[->| ->]]]]; reflexivity.
  - rewrite !lookup_insert_ne by lia. apply lookup_empty.
Qed.

Lemma with_stars_cons r review reviews :
  with_stars r (review :: reviews) =
    (if decide (rating review = r) then 1 else 0) + with_stars r reviews.
Proof.
  unfold with_stars. rewrite filter_cons.
  destruct (decide (rating review = r)); simpl; lia.
Qed.

Lemma count_raised e (reviews : list Review) :
  foldl (fun distribution review =>
           distribution ← distribution; count_rating distribution review)
        (Raise e) reviews = Raise e.
Proof. induction reviews as [|review reviews IH]; simpl; [done | exact IH]. Qed.

Lemma count_all (reviews : list Review) :
  forall (d : gmap Z Z) (base : Z -> Z),
    (forall r, d !! r = if decide (1 <= r <= 5) then Some (base r) else None) ->
    if decide (Forall stars reviews) then
      exists d',
        foldl (fun distribution review =>
                 distribution ← distribution; count_rating distribution review)
              (Ret d) reviews = Ret d' /\
        forall r, d' !! r = if decide (1 <= r <= 5)
                            then Some (base r + with_stars r reviews) else None
    else
      foldl (fun distribution review =>
               distribution ← distribution; count_rating distribution review)
            (Ret d) reviews = Raise KeyError.
Proof.
  induction reviews as [|review reviews IH]; intros d base Hd.
  - rewrite decide_True by constructor. exists d. split; [done |].
    intros r. rewrite Hd. unfold with_stars. simpl.
    destruct (decide (1 <= r <= 5)); [f_equal; lia | done].
  - simpl.
    assert (count_rating d review
            = if decide (1 <= rating review <= 5)
              then Ret (<[rating review := base (rating review) + 1]> d)
              else Raise KeyError) as ->.
    { unfold count_rating. rewrite Hd. by destruct (decide (1 <= rating review <= 5)). }
    destruct (decide (1 <= rating review <= 5)) as [Hstars|Hstars].
    + specialize (IH (<[rating review := base (rating review) + 1]> d)
                     (fun r => base r + if decide (rating review = r) then 1 else 0)).
      destruct (decide (Forall stars reviews)) as [Hall|Hall].
      * rewrite decide_True by (by constructor).
        destruct IH as (d' & Hrun & Hd').
        { intros r. destruct (decide (rating review = r)) as [<-|Hne].
          - rewrite lookup_insert_eq, decide_True by done. done.
          - rewrite lookup_insert_ne by done. rewrite Hd.
            destruct (decide (1 <= r <= 5)); [f_equal; lia | done]. }
        exists d'. split; [exact Hrun |]. intros r. rewrite Hd'.
        rewrite with_stars_cons.
        destruct (decide (1 <= r <= 5)); [f_equal; lia | done].
      * rewrite decide_False by (by intros [_ ?]%Forall_cons).
        apply IH. intros r. destruct (decide (rating review = r)) as [<-|Hne].
        -- rewrite lookup_insert_eq, decide_True by done. done.
        -- rewrite lookup_insert_ne by done. rewrite Hd.
           destruct (decide (1 <= r <= 5)); [f_equal; lia | done].
    + rewrite decide_False by (by intros [? _]%Forall_cons).
      apply count_raised.
Qed.

Lemma distribution_ok (table : list Review) (service : Z) :
  if decide (Forall stars (all_by_service table service)) then
    exists d,
      calculate_rating_distribution table service = Ret d /\
      forall r, d !! r = if decide (1 <= r <= 5)
                         then Some (with_stars r (all_by_service table service))
                         else None
  else calculate_rating_distribution table service = Raise KeyError.
Proof.
  pose proof (count_all (all_by_service table service) no_ratings (fun _ => 0)
                no_ratings_lookup) as Hcount.
  unfold calculate_rating_distribution.
  destruct (decide (Forall stars (all_by_service table service))); [|done].
  destruct Hcount as (d & Hrun & Hd). exists d. split; [done |].
  intros r. rewrite Hd. by destruct (decide (1 <= r <= 5)).
Qed.

Lemma stars_total (reviews : list Review) :
  Forall stars reviews ->
  with_stars 1 reviews + with_stars 2 reviews + with_stars 3 reviews
  + with_stars 4 reviews + with_stars 5 reviews
  = Z.of_nat (length reviews).
Proof.
  induction 1 as [|review reviews Hstars Hall IH].
  - done.
  - rewrite !with_stars_cons. unfold stars in Hstars. simpl.
    repeat destruct (decide (rating review = _)); lia.
Qed.

(** The distribution counts the stars. [calculate_rating_distribution]
    returns exactly when every review of the service has a rating of 1 to
    5, and raises [KeyError] otherwise; the dictionary returned has the
    keys 1 to 5, each with the number of reviews of the service that have
    that rating, and the five counts add up to the number of its
    reviews. *)
Theorem distribution_counts_stars (table : list Review) (service : Z) :
  match calculate_rating_distribution table service with
  | Ret d =>
      Forall stars (all_by_service table service) /\
      (forall r, d !! r = if decide (1 <= r <= 5)
                          then Some (with_stars r (all_by_service table service))
                          else None) /\
      with_stars 1 (all_by_service table service)
      + with_stars 2 (all_by_service table service)
      + with_stars 3 (all_by_service table service)
      + with_stars 4 (all_by_service table service)
      + with_stars 5 (all_by_service table service)
      = Z.of_nat (length (all_by_service table service))
  | Raise e =>
      e = KeyError /\ ~ Forall stars (all_by_service table service)
  | Timeout => False
  end.
Proof.
  pose proof (distribution_ok table service) as Hok.
  destruct (decide (Forall stars (all_by_service table service))) as [Hall|Hall].
  - destruct Hok as (d & -> & Hd). split_and!; [done | done |].
    by apply stars_total.
  - by rewrite Hok.
Qed.

Section Sites.
Context {Service Rating : Type}.
Variables is_active is_approved : Service -> bool.
Variable get_average_rating : Service -> Rating.
Variable get_review_count : Service -> Z.
Variables rating_eq rating_gt : Rating -> Rating -> bool.
Variable hash : string -> Z.

Abbreviation featured :=
  (get_featured_services is_active is_approved get_average_rating
     get_review_count rating_eq rating_gt hash).
Abbreviation site_of :=
  (ReviewsModel.site_of (Service:=Service) is_active is_approved
     get_average_rating get_review_count rating_eq rating_gt hash).

Lemma first_by_None (table : list Review) service user :
  first_by_service_and_user table service user = None <->
  (service, user) ∉ (fun review => (service_id review, user_id review)) <$> table.
Proof.
  unfold first_by_service_and_user. rewrite head_None. split.
  - intros Hnil (review & [= Hs Hu] & Hin)%list_elem_of_fmap.
    assert (review ∈ filter (fun review => service_id review = service /\
                                           user_id review = user) table) as Hf
      by (by apply list_elem_of_filter).
    rewrite Hnil in Hf. inversion Hf.
  - intros Hnot.
    destruct (filter _ table) as [|review rest] eqn:Hf; [done |]. exfalso.
    assert (review ∈ filter (fun review => service_id review = service /\
                                           user_id review = user) table) as Hin
      by (rewrite Hf; by left).
    apply list_elem_of_filter in Hin as [[<- <-] Hin]. apply Hnot.
    apply list_elem_of_fmap. by exists review.
Qed.

(** What [add_review] does, by cases. *)
Lemma add_review_cases (sm : ServiceManager (Service:=Service))
    (table : list Review) service user stars_given comment :
  let review := BuildReview service user stars_given comment in
  if decide (1 <= stars_given <= 5 /\
             (service, user) ∉
               (fun review => (service_id review, user_id review)) <$> table)
  then add_review sm table service user stars_given comment
       = ((Some review, None), table ++ [review],
          BuildServiceManager (HashMap.clear (_cache sm)) (_cache_timeout sm))
  else exists message,
      add_review sm table service user stars_given comment
      = ((None, Some message), table, sm).
Proof.
  intros review. unfold add_review.
  destruct (decide (1 <= stars_given <= 5)) as [Hstars|Hstars].
  - assert (negb ((1 <=? stars_given) && (stars_given <=? 5)) = false) as ->.
    { apply negb_false_iff, andb_true_iff. split; apply Z.leb_le; lia. }
    destruct (first_by_service_and_user table service user) as [existing|] eqn:Hfirst.
    + rewrite decide_False; [by eexists |].
      intros [_ Hnew]. apply first_by_None in Hnew. congruence.
    + rewrite decide_True; [done |]. split; [done |]. by apply first_by_None.
  - assert (negb ((1 <=? stars_given) && (stars_given <=? 5)) = true) as ->.
    { apply negb_true_iff, andb_false_iff.
      destruct (Z.leb_spec 1 stars_given); [right | by left].
      apply Z.leb_gt. lia. }
    rewrite decide_False; [by eexists | tauto].
Qed.

Lemma site_after_ok (w : site (Service:=Service)) ev :
  reviews_ok w.1 -> manager_ok is_active is_approved hash w.2 ->
  reviews_ok
    (site_after is_active is_approved get_average_rating get_review_count
       rating_eq rating_gt hash w ev).1 /\
  manager_ok is_active is_approved hash
    (site_after is_active is_approved get_average_rating get_review_count
       rating_eq rating_gt hash w ev).2.
Proof.
  intros [Hstars Hnd] Hok. destruct ev as [service user stars_given comment|ev].
  - unfold site_after.
    pose proof (add_review_cases w.2 w.1 service user stars_given comment) as Hcases.
    simpl in Hcases.
    destruct (decide (1 <= stars_given <= 5 /\ _)) as [[Hgiven Hnew]|_].
    + rewrite Hcases. simpl. split.
      * split.
        -- apply Forall_app. split; [done |]. by constructor.
        -- rewrite fmap_app. simpl. apply NoDup_app. split_and!; [done | |].
           ++ intros pair Hin ->%list_elem_of_singleton. done.
           ++ apply NoDup_singleton.
      * apply cleared_ok. apply Hok.
    + destruct Hcases as [message ->]. done.
  - simpl. split; [done |].
    by apply (manager_after_ok is_active is_approved get_average_rating
                get_review_count rating_eq rating_gt hash).
Qed.

Lemma site_of_ok (evs : list site_event) :
  reviews_ok (site_of evs).1 /\
  manager_ok is_active is_approved hash (site_of evs).2.
Proof.
  unfold ReviewsModel.site_of. induction evs as [|ev evs [IHr IHm]] using rev_ind.
  - simpl. split.
    + split; constructor.
    + apply new_service_manager_ok.
  - rewrite foldl_snoc. by apply site_after_ok.
Qed.

(** Reviews stay countable. Whatever reviews are submitted and whatever
    the service manager is used for, every review stored has a rating of 1
    to 5 and no user has two reviews for a service; so
    [calculate_rating_distribution] never raises, and its five counts add
    up to the number of reviews of the service. *)
Theorem stored_reviews_are_valid (evs : list site_event) (service : Z) :
  (forall review, review ∈ (site_of evs).1 -> 1 <= rating review <= 5) /\
  NoDup ((fun review => (service_id review, user_id review))
           <$> (site_of evs).1) /\
  exists d one two three four five,
    calculate_rating_distribution (site_of evs).1 service = Ret d /\
    d = <[1 := one]> (<[2 := two]> (<[3 := three]> (<[4 := four]>
          (<[5 := five]> ∅)))) /\
    one + two + three + four + five
    = Z.of_nat (length (all_by_service (site_of evs).1 service)).
Proof.
  destruct (site_of_ok evs) as [[Hstars Hnd] _].
  split_and!; [by apply Forall_forall | done |].
  assert (Forall stars (all_by_service (site_of evs).1 service)) as Hall.
  { unfold all_by_service. apply Forall_forall.
    intros review [_ Hin]%list_elem_of_filter.
    rewrite Forall_forall in Hstars. by apply Hstars. }
  pose proof (distribution_ok (site_of evs).1 service) as Hok.
  rewrite decide_True in Hok by done. destruct Hok as (d & Hrun & Hd).
  exists d. do 5 eexists. split; [exact Hrun |]. split.
  - apply map_eq. intros r. rewrite Hd.
    destruct (decide (1 <= r <= 5)) as [Hr|Hr].
    + assert (r = 1 \/ r = 2 \/ r = 3 \/ r = 4 \/ r = 5) as Hcases by lia.
      destruct Hcases as [->|[->|[->|[->| ->]]]]; reflexivity.
    + rewrite !lookup_insert_ne by lia. symmetry. apply lookup_empty.
  - by apply stars_total.
Qed.

(** A review added shows at once. When [add_review] adds the review, the
    next [get_featured_services] is computed from the catalog as it then
    is, whatever was cached and whatever the clock reads; when it refuses
    the review (a rating outside 1 to 5, or a second review of the service
    by the user), the rows and the service manager are as they were. *)
Theorem review_added_refreshes_featured (evs : list site_event)
    (service user stars_given : Z) (comment : string)
    (table : list Service) (now_read now_store : datetime) (limit : Z) :
  match add_review (site_of evs).2 (site_of evs).1 service user stars_given
          comment with
  | ((Some review, _), table', service_manager) =>
      1 <= stars_given <= 5 /\
      table' = (site_of evs).1 ++ [review] /\
      exists out self' rest,
        featured service_manager table now_read now_store limit
          = Ret (out, self') /\
        out ++ rest ≡ₚ active_approved is_active is_approved table /\
        Z.of_nat (length out)
        = Z.max 0 (Z.min limit
                     (Z.of_nat (length (active_approved is_active is_approved
                                          table))))
  | ((None, message), table', service_manager) =>
      is_Some message /\ table' = (site_of evs).1 /\
      service_manager = (site_of evs).2 /\
      (~ 1 <= stars_given <= 5 \/
       exists existing,
         existing ∈ (site_of evs).1 /\ service_id existing = service /\
         user_id existing = user)
  end.
Proof.
  destruct (site_of_ok evs) as [_ Hok].
  pose proof (add_review_cases (site_of evs).2 (site_of evs).1 service user
                stars_given comment) as Hcases.
  simpl in Hcases.
  destruct (decide (1 <= stars_given <= 5 /\ _)) as [[Hgiven Hnew]|Hnot].
  - rewrite Hcases. split_and!; [lia | lia | done |].
    destruct (cleared_ok is_active is_approved hash (site_of evs).2)
      as [Hok' Hnone]; [apply Hok |].
    destruct (featured_ok is_active is_approved get_average_rating
                get_review_count rating_eq rating_gt hash _ table now_read
                now_store limit Hok')
      as (out & self' & stamp & Hcall & _ & _ & Hcase).
    destruct Hcase as [[_ Hold]|[_ (rest & Hperm & Hlen)]].
    + simpl in Hold. rewrite Hnone in Hold. done.
    + by exists out, self', rest.
  - destruct Hcases as [message ->]. split_and!; [done | done | done |].
    destruct (decide (1 <= stars_given <= 5)) as [Hgiven|Hgiven]; [|by left].
    right.
    destruct (decide ((service, user) ∈
                (fun review => (service_id review, user_id review))
                  <$> (site_of evs).1)) as [Hin|Hout]; [|tauto].
    apply list_elem_of_fmap in Hin as (existing & [= -> ->] & Hin).
    by exists existing.
Qed.

End Sites.
End ReviewsFacts.
